(** * rasterizer.js: the scan-line fill of the polygon demo

    A shallow embedding of [src/rasterizer/rasterizer.js]: the polygon
    construction ([Polygon], [Vertex], [Edge]), the scan-line fill
    ([computeFilledSquares] with its helper [floor]), [vertexPositions] and
    the settings read at startup ([Rasterizer]).

    Conventions of the embedding.
    - A JavaScript number is a value of [num]: an exact rational, [NaN],
      [Infinity] or [-Infinity].  Arithmetic on finite values is exact
      (binary64 rounding is not modelled) and the two zeros are one value.
      On integers and halves of the size used by the demo the double
      arithmetic is exact as well, so every concrete evaluation below is the
      evaluation of the source.
    - An object used as a dictionary ([squares], [xValues]) is a [gmap] keyed
      by the number used as property name.
    - A loop whose exit depends on number arithmetic takes fuel and returns
      [None] when the fuel runs out; results are stated for enough fuel.
    - The DOM keeps [String(value)] for every attribute; [Vertex] and [Edge]
      are the records of the attributes that the source reads back. *)

From Stdlib Require Import ZArith QArith Qcanon Qround Lia Lqa Ascii String.
From Stdlib Require Import DecimalString DecimalN.
From stdpp Require Import gmap strings list fin_maps.

Local Open Scope Qc_scope.

(** ** JavaScript numbers *)

Module JS.

Inductive num : Type :=
  | NaN
  | PInf
  | NInf
  | Fin (q : Qc).

Definition ofZ (z : Z) : num := Fin (Qc_of_Z z).
Definition ofNat (n : nat) : num := ofZ (Z.of_nat n).

(** Truncation toward zero of a rational, as an integer. *)
Definition Qc_trunc (q : Qc) : Z := Z.quot (Qnum q) (Zpos (Qden q)).

Definition neg (a : num) : num :=
  match a with
  | NaN => NaN
  | PInf => NInf
  | NInf => PInf
  | Fin q => Fin (- q)
  end.

Definition add (a b : num) : num :=
  match a, b with
  | NaN, _ | _, NaN => NaN
  | PInf, NInf | NInf, PInf => NaN
  | PInf, _ | _, PInf => PInf
  | NInf, _ | _, NInf => NInf
  | Fin p, Fin q => Fin (p + q)
  end.

Definition sub (a b : num) : num := add a (neg b).

(** [inf * q] and [inf / q] for a finite [q]: the sign of [q] decides. *)
Definition scale_inf (inf : num) (q : Qc) : num :=
  if bool_decide (0 < q) then inf else neg inf.

Definition mul (a b : num) : num :=
  match a, b with
  | NaN, _ | _, NaN => NaN
  | Fin p, Fin q => Fin (p * q)
  | Fin q, (PInf | NInf) as i | (PInf | NInf) as i, Fin q =>
      if bool_decide (q = 0) then NaN else scale_inf i q
  | PInf, PInf | NInf, NInf => PInf
  | PInf, NInf | NInf, PInf => NInf
  end.

(** Division.  A finite value over zero is an infinity of the sign of the
    dividend (the divisor is the positive zero), [0 / 0] is [NaN]. *)
Definition div (a b : num) : num :=
  match a, b with
  | NaN, _ | _, NaN => NaN
  | (PInf | NInf), (PInf | NInf) => NaN
  | (PInf | NInf) as i, Fin q => if bool_decide (q = 0) then i else scale_inf i q
  | Fin _, (PInf | NInf) => Fin 0
  | Fin p, Fin q =>
      if bool_decide (q = 0) then
        if bool_decide (p = 0) then NaN
        else if bool_decide (0 < p) then PInf else NInf
      else Fin (p / q)
  end.

(** The remainder operator [%]: the result has the sign of the dividend. *)
Definition rem (n d : num) : num :=
  match n, d with
  | Fin p, Fin q =>
      if bool_decide (q = 0) then NaN
      else Fin (p - q * Qc_of_Z (Qc_trunc (p / q)))
  | Fin p, (PInf | NInf) => Fin p
  | _, _ => NaN
  end.

Definition Math_floor (a : num) : num :=
  match a with
  | Fin q => ofZ (Qfloor q)
  | other => other
  end.

(** [<] and [<=]: every comparison with [NaN] is false. *)
Definition ltb (a b : num) : bool :=
  match a, b with
  | NaN, _ | _, NaN => false
  | _, NInf | PInf, _ => false
  | NInf, _ | _, PInf => true
  | Fin p, Fin q => bool_decide (p < q)
  end.

Definition leb (a b : num) : bool :=
  match a, b with
  | NaN, _ | _, NaN => false
  | NInf, _ | _, PInf => true
  | _, NInf | PInf, _ => false
  | Fin p, Fin q => bool_decide (p ≤ q)
  end.

Definition Math_min (a b : num) : num :=
  match a, b with
  | NaN, _ | _, NaN => NaN
  | _, _ => if ltb b a then b else a
  end.

Definition Math_max (a b : num) : num :=
  match a, b with
  | NaN, _ | _, NaN => NaN
  | _, _ => if ltb a b then b else a
  end.

(** [Math.PI], the double nearest to pi. *)
Definition Math_PI : num := Fin (Q2Qc (884279719003555 # 281474976710656)).

End JS.

Export JS.

Declare Scope num_scope.
Delimit Scope num_scope with J.
Bind Scope num_scope with num.
Infix "+" := add : num_scope.
Infix "-" := sub : num_scope.
Infix "*" := mul : num_scope.
Infix "/" := div : num_scope.
Infix "%%" := rem (at level 40, left associativity) : num_scope.
Infix "<?" := ltb : num_scope.
Infix "<=?" := leb : num_scope.

Global Instance num_eq_dec : EqDecision num.
Proof. solve_decision. Defined.

(** [===] on two numbers: [NaN] is different from itself. *)
Definition strict_eq (a b : num) : bool :=
  match a, b with
  | NaN, _ | _, NaN => false
  | _, _ => bool_decide (a = b)
  end.

Global Instance num_countable : Countable num.
Proof.
  refine (inj_countable'
    (λ a, match a with
          | NaN => inl 0%nat | PInf => inl 1%nat | NInf => inl 2%nat
          | Fin q => inr q end)
    (λ s, match s with
          | inl 0%nat => NaN | inl 1%nat => PInf | inl _ => NInf
          | inr q => Fin q end) _).
  intros []; reflexivity.
Defined.

(** ** [floor]

<<
function floor(n, modulo) {
  return Math.floor(n - n % modulo);
}
>> *)
Definition floor (n modulo : num) : num := Math_floor (n - n %% modulo)%J.

(** ** Numbers and strings

    [setAttribute(name, value)] stores [String(value)] and the source reads
    every coordinate back with [parseInt]. *)

Local Open Scope string_scope.

Definition digits_of_N (n : N) : string := NilZero.string_of_uint (N.to_uint n).

(** The decimal digits of a fraction [0 <= r < 1], at most [n] of them,
    ending at the last digit that is not zero. *)
Fixpoint fraction_digits (n : nat) (r : Qc) : string :=
  match n with
  | O => ""
  | S n' =>
      if bool_decide (r = 0%Qc) then ""
      else
        let d := Qfloor (r * Qc_of_Z 10)%Qc in
        digits_of_N (Z.to_N d)
          ++ fraction_digits n' (r * Qc_of_Z 10 - Qc_of_Z d)%Qc
  end.

Definition fraction_part (r : Qc) : string :=
  if bool_decide (r = 0%Qc) then "" else "." ++ fraction_digits 20 r.

(** The least [k] (up to the fuel) with [1 <= a * 10^k]. *)
Fixpoint exponent_below (fuel : nat) (a : Qc) (k : nat) : nat :=
  match fuel with
  | O => k
  | S fuel' =>
      if bool_decide (1 ≤ a)%Qc then k
      else exponent_below fuel' (a * Qc_of_Z 10)%Qc (S k)
  end.

Definition pow10 (k : nat) : Qc := Qc_of_Z (10 ^ Z.of_nat k).

(** [String(x)] for a number [x] (Number::toString, radix 10): decimal
    notation for [1e-6 <= |x| < 1e21], exponent notation outside.  Digits
    are those of the exact value, a fraction being cut after 20 digits. *)
Definition Number_toString (x : num) : string :=
  match x with
  | NaN => "NaN"
  | PInf => "Infinity"
  | NInf => "-Infinity"
  | Fin q =>
      if bool_decide (q = 0%Qc) then "0"
      else
        let sign := if bool_decide (q < 0)%Qc then "-" else "" in
        let a := if bool_decide (q < 0)%Qc then (- q)%Qc else q in
        if bool_decide (pow10 21 ≤ a)%Qc then
          let e := (String.length (digits_of_N (Z.to_N (Qfloor a))) - 1)%nat in
          let m := (a / pow10 e)%Qc in
          sign ++ digits_of_N (Z.to_N (Qfloor m))
               ++ fraction_part (m - Qc_of_Z (Qfloor m))%Qc
               ++ "e+" ++ digits_of_N (N.of_nat e)
        else if bool_decide (a < / pow10 6)%Qc then
          let e := exponent_below (Pos.size_nat (Qden a)) a 0 in
          let m := (a * pow10 e)%Qc in
          sign ++ digits_of_N (Z.to_N (Qfloor m))
               ++ fraction_part (m - Qc_of_Z (Qfloor m))%Qc
               ++ "e-" ++ digits_of_N (N.of_nat e)
        else
          sign ++ digits_of_N (Z.to_N (Qfloor a))
               ++ fraction_part (a - Qc_of_Z (Qfloor a))%Qc
  end.

Definition is_white_space (c : ascii) : bool :=
  let n := nat_of_ascii c in
  bool_decide (n = 9 ∨ n = 10 ∨ n = 11 ∨ n = 12 ∨ n = 13 ∨ n = 32 ∨ n = 160)%nat.

Fixpoint trim_start (s : string) : string :=
  match s with
  | String c s' => if is_white_space c then trim_start s' else s
  | EmptyString => s
  end.

(** The longest prefix of decimal digits of a string, most significant
    digit first, and the rest of the string. *)
Fixpoint decimal_prefix (s : string) : Decimal.uint * string :=
  match s with
  | String c s' =>
      let '(d, rest) := decimal_prefix s' in
      match uint_of_char c (Some d) with
      | Some d' => (d', rest)
      | None => (Decimal.Nil, s)
      end
  | EmptyString => (Decimal.Nil, s)
  end.

Definition hex_digit (c : ascii) : option N :=
  let n := N_of_ascii c in
  if bool_decide (48 ≤ n ≤ 57)%N then Some (n - 48)%N
  else if bool_decide (65 ≤ n ≤ 70)%N then Some (n - 55)%N
  else if bool_decide (97 ≤ n ≤ 102)%N then Some (n - 87)%N
  else None.

(** The value of the longest prefix of hexadecimal digits, if there is one. *)
Fixpoint hex_prefix (acc : option N) (s : string) : option N :=
  match s with
  | String c s' =>
      match hex_digit c with
      | Some d => hex_prefix (Some (16 * default 0%N acc + d)%N) s'
      | None => acc
      end
  | EmptyString => acc
  end.

Definition signed (negative : bool) (n : N) : num :=
  ofZ (if negative then - Z.of_N n else Z.of_N n).

(** A leading sign: whether it is [-], and the rest of the string. *)
Definition strip_sign (s : string) : bool * string :=
  match s with
  | String c s' =>
      if Ascii.eqb c "-" then (true, s')
      else if Ascii.eqb c "+" then (false, s')
      else (false, s)
  | EmptyString => (false, s)
  end.

(** The string starts with [0x] or [0X]. *)
Definition has_hex_prefix (s : string) : bool :=
  match s with
  | String c1 (String c2 _) =>
      Ascii.eqb c1 "0" && (Ascii.eqb c2 "x" || Ascii.eqb c2 "X")
  | _ => false
  end.

(** [parseInt(string)] without a radix: leading white space, a sign, a
    [0x] prefix for radix 16, then the longest run of digits; [NaN] when
    there is no digit. *)
Definition parseInt (s : string) : num :=
  let '(negative, s) := strip_sign (trim_start s) in
  if has_hex_prefix s then
    match hex_prefix None (String.substring 2 (String.length s - 2) s) with
    | Some n => signed negative n
    | None => NaN
    end
  else
    match decimal_prefix s with
    | (Decimal.Nil, _) => NaN
    | (d, _) => signed negative (N.of_uint d)
    end.

Local Close Scope string_scope.

(** ** The DOM elements the source reads back *)

(** [{x, y}] *)
Record point : Type := { x : num; y : num }.

(** [Vertex(options)]: a [<circle>] with attributes [cx] and [cy]. *)
Record VertexEl : Type := { cx : string; cy : string }.

Definition Vertex (options : point) : VertexEl :=
  {| cx := Number_toString (x options); cy := Number_toString (y options) |}.

(** [Vertex.position()] *)
Definition Vertex_position (vertex : VertexEl) : point :=
  {| x := parseInt (cx vertex); y := parseInt (cy vertex) |}.

(** [Edge(options)]: a [<line>] whose four attributes are copied from the
    attributes of its two vertices. *)
Record EdgeEl : Type := {
  attr_x1 : string;
  attr_y1 : string;
  attr_x2 : string;
  attr_y2 : string;
  leftVertex : VertexEl;
  rightVertex : VertexEl
}.

Definition Edge (left right : VertexEl) : EdgeEl :=
  {| attr_x1 := cx left; attr_y1 := cy left;
     attr_x2 := cx right; attr_y2 := cy right;
     leftVertex := left; rightVertex := right |}.

Record edge_position : Type := { x1 : num; y1 : num; x2 : num; y2 : num }.

(** [Edge.position()] *)
Definition Edge_position (edge : EdgeEl) : edge_position :=
  {| x1 := parseInt (attr_x1 edge); y1 := parseInt (attr_y1 edge);
     x2 := parseInt (attr_x2 edge); y2 := parseInt (attr_y2 edge) |}.

(** ** [Polygon]

    [Math.cos] and [Math.sin] are left to the engine by the language
    standard; they are parameters of the construction. *)

Record PolygonOptions : Type := {
  sides : nat;
  (** [options.points]: absent, or an array whose entries are points or
      falsy (a hole, [null], an index past the end). *)
  points : option (list (option point))
}.

Record PolygonObj : Type := {
  vertices : list VertexEl;
  edges : list EdgeEl
}.

Section PolygonConstruction.

Variables Math_cos Math_sin : num → num.

(** The argument of [Math.cos] and [Math.sin] for vertex [sideIndex]:
    [(Math.PI * 2 * sideIndex + Math.PI / 2) / options.sides]. *)
Definition radialAngle (options : PolygonOptions) (sideIndex : nat) : num :=
  ((Math_PI * ofZ 2 * ofNat sideIndex + Math_PI / ofZ 2) / ofNat (sides options))%J.

(** The body of the first loop of [initializePieces], up to the call of
    [Vertex]. *)
Definition initialPoint (options : PolygonOptions) (sideIndex : nat) : point :=
  let x := (ofZ 150 + Math_cos (radialAngle options sideIndex) * ofZ 100)%J in
  let y := (ofZ 150 + Math_sin (radialAngle options sideIndex) * ofZ 100)%J in
  match points options with
  | Some pts =>
      match pts !! sideIndex with
      | Some (Some p) => p
      | _ => {| x := x; y := y |}
      end
  | None => {| x := x; y := y |}
  end.

Definition initializeVertices (options : PolygonOptions) : list VertexEl :=
  (λ sideIndex, Vertex (initialPoint options sideIndex)) <$> seq 0 (sides options).

(** The second loop: edge [edgeIndex] joins vertex [edgeIndex] to vertex
    [(edgeIndex + 1) % options.sides]. *)
Definition initializeEdges (options : PolygonOptions)
    (vertices : list VertexEl) : list EdgeEl :=
  omap (λ edgeIndex,
          left ← vertices !! edgeIndex;
          right ← vertices !! ((edgeIndex + 1) `mod` sides options)%nat;
          Some (Edge left right))
       (seq 0 (sides options)).

Definition Polygon (options : PolygonOptions) : PolygonObj :=
  let vertices := initializeVertices options in
  {| vertices := vertices; edges := initializeEdges options vertices |}.

End PolygonConstruction.

(** [vertexPositions()] *)
Definition vertexPositions (polygon : PolygonObj) : list point :=
  Vertex_position <$> vertices polygon.

(** ** [computeFilledSquares] *)

(** The two dictionaries of the fill pass. *)
Record fillState : Type := {
  squares : gmap num (list num);
  xValues : gmap num num
}.

(** [for (let i = start; test(i); i += step) body(i)], on a state. *)
Fixpoint for_loop {S : Type} (fuel : nat) (test : num → bool) (step : num)
    (body : num → S → option S) (i : num) (s : S) : option S :=
  match fuel with
  | O => None
  | Datatypes.S fuel' =>
      if test i then
        s' ← body i s;
        for_loop fuel' test step body (i + step)%J s'
      else Some s
  end.

(** The body of the inner loop:
<<
if (!squares[tileX / tileSize]) { squares[tileX / tileSize] = []; }
squares[tileX / tileSize].push(y / tileSize);
>> *)
Definition markTile (tileSize y tileX : num)
    (squares : gmap num (list num)) : gmap num (list num) :=
  let squares :=
    match squares !! (tileX / tileSize)%J with
    | Some _ => squares
    | None => <[(tileX / tileSize)%J := []]> squares
    end in
  alter (λ rows, rows ++ [(y / tileSize)%J]) (tileX / tileSize)%J squares.

(** The body of the scan loop once [x] is known: the second crossing of
    scan-line [y] fills the span between the two intersections and clears
    the entry, the first one records its intersection. *)
Definition crossing (fuel : nat) (tileSize y x : num)
    (st : fillState) : option fillState :=
  match xValues st !! y with
  | Some xv =>
      let xa := Math_min x xv in
      let xb := Math_max x xv in
      sq ← for_loop fuel (λ tileX, tileX <? xb)%J tileSize
             (λ tileX sq, Some (markTile tileSize y tileX sq)) xa (squares st);
      Some {| squares := sq; xValues := delete y (xValues st) |}
  | None =>
      Some {| squares := squares st;
              xValues := <[y := floor x tileSize]> (xValues st) |}
  end.

(** The body of the scan loop of an edge of slope [m] and intercept [b]. *)
Definition scanLine (fuel : nat) (tileSize m b y : num)
    (st : fillState) : option fillState :=
  let x := floor ((y - b) / m)%J tileSize in
  crossing fuel tileSize y x st.

Definition accumulateSquaresForEdge (fuel : nat) (tileSize : num)
    (edge : EdgeEl) (st : fillState) : option fillState :=
  let position := Edge_position edge in
  let x1 := (x1 position + tileSize / ofZ 2)%J in
  let x2 := (x2 position + tileSize / ofZ 2)%J in
  let y1 := (y1 position - tileSize / ofZ 2)%J in
  let y2 := (y2 position - tileSize / ofZ 2)%J in
  let rise := (y2 - y1)%J in
  let run := (x2 - x1)%J in
  let m := if strict_eq run (ofZ 0) then ofZ 0 else (rise / run)%J in
  let b := (y1 - m * x1)%J in
  let ya := Math_min y1 y2 in
  let yb := Math_max y1 y2 in
  for_loop fuel (λ y, y <=? yb)%J tileSize (scanLine fuel tileSize m b)
    (floor ya tileSize + tileSize)%J st.

(** [edges.forEach(accumulateSquaresForEdge)], from the two empty
    dictionaries. *)
Fixpoint forEach {A S : Type} (f : A → S → option S) (l : list A) (s : S) : option S :=
  match l with
  | [] => Some s
  | a :: l' => s' ← f a s; forEach f l' s'
  end.

Definition fillPass (fuel : nat) (tileSize : num) (edges : list EdgeEl) : option fillState :=
  forEach (accumulateSquaresForEdge fuel tileSize) edges
    {| squares := ∅; xValues := ∅ |}.

Definition computeFilledSquares (fuel : nat) (tileSize : num)
    (polygon : PolygonObj) : option (gmap num (list num)) :=
  squares <$> fillPass fuel tileSize (edges polygon).

(** Tile [(col, row)] is in the result: [row] is an entry of [squares[col]]. *)
Definition active (squares : gmap num (list num)) (col row : num) : Prop :=
  ∃ rows, squares !! col = Some rows ∧ row ∈ rows.

(** ** The settings read by [Rasterizer] at startup *)

(** The values [JSON.parse] returns, and [undefined]. *)
#[local] Set Warnings "-register-all".
Inductive jsval : Type :=
  | VUndefined
  | VNull
  | VBool (b : bool)
  | VNum (n : num)
  | VStr (s : string)
  | VArr (items : list jsval)
  | VObj (props : list (string * jsval)).

(** An object literal: its properties, in insertion order. *)
Definition object : Type := list (string * jsval).

Fixpoint obj_get (key : string) (o : object) : jsval :=
  match o with
  | [] => VUndefined
  | (k, v) :: o' => if bool_decide (k = key) then v else obj_get key o'
  end.

Fixpoint obj_set (key : string) (v : jsval) (o : object) : object :=
  match o with
  | [] => [(key, v)]
  | (k, w) :: o' =>
      if bool_decide (k = key) then (k, v) :: o' else (k, w) :: obj_set key v o'
  end.

(** The own enumerable properties of a source of [Object.assign]: those of
    an object, the indices of an array or of a string, none otherwise. *)
Definition own_properties (source : jsval) : object :=
  match source with
  | VObj props => props
  | VArr items => imap (λ i v, (Number_toString (ofNat i), v)) items
  | VStr s =>
      imap (λ i c, (Number_toString (ofNat i), VStr (String c EmptyString)))
           (list_ascii_of_string s)
  | _ => []
  end.

Definition Object_assign (target : object) (source : jsval) : object :=
  foldl (λ o kv, obj_set kv.1 kv.2 o) target (own_properties source).

(** What a call either returns or throws. *)
Inductive completion (A : Type) : Type :=
  | Returns (a : A)
  | Throws (error : string).
Arguments Returns {A} a.
Arguments Throws {A} error.

Section Startup.

(** [JSON.parse], a builtin of the engine: the value of a JSON text, or
    the [SyntaxError] thrown for any other text. *)
Variable JSON_parse : string → completion jsval.

(** The first statements of [Rasterizer], for a valid [anchor]:
<<
const settings = Object.assign({
sides: 4,
points: undefined,
}, JSON.parse(localStorage.getItem('rasterizer.settings') || '{}'));
>>
    [item] is what [localStorage.getItem] returns: [None] for [null]. *)
Definition Rasterizer_settings (item : option string) : completion object :=
  let text :=
    match item with
    | Some EmptyString | None => "{}"%string
    | Some s => s
    end in
  match JSON_parse text with
  | Returns parsed =>
      Returns (Object_assign [("sides"%string, VNum (ofZ 4));
                              ("points"%string, VUndefined)] parsed)
  | Throws error => Throws error
  end.

End Startup.

Definition default_settings : object :=
  [("sides"%string, VNum (ofZ 4)); ("points"%string, VUndefined)].

(** ** More of [Polygon] and of [Rasterizer] *)

(** [sides()] *)
Definition Polygon_sides (polygon : PolygonObj) : nat := length (vertices polygon).

(** The options of [Rasterizer]:
<<
options = Object.assign({
backgroundColor: '#000000',
tileBorderColor: '#222222',
tileActiveColor: '#db0167',
tileSize: 20,
}, options);
>> *)
Definition default_options : object :=
  [("backgroundColor"%string, VStr "#000000");
   ("tileBorderColor"%string, VStr "#222222");
   ("tileActiveColor"%string, VStr "#db0167");
   ("tileSize"%string, VNum (ofZ 20))].

Definition Rasterizer_options (options : jsval) : object :=
  Object_assign default_options options.

(** ** [Tile] and [Canvas]

    A tile is a [<rect>]; the record holds its attributes, as strings, and
    the properties of its [style] that the source assigns. *)
Record TileEl : Type := {
  tile_class : string;
  tile_x : string;
  tile_y : string;
  tile_width : string;
  tile_height : string;
  style_fill : string;
  style_stroke : string;
  style_strokeWidth : num
}.

(** [attributes.style]: each property is there or not. *)
Record TileStyle : Type := {
  fill : option string;
  stroke : option string;
  strokeWidth : option num
}.

(** [Tile(attributes)] for [attributes = {x, y, width, height, style}]:
<<
const el = createSVGElement('rect', Object.assign({
className: 'tile',
}, attributes, {
style: Object.assign({
fill: '#ff1493',
stroke: '#333333',
strokeWidth: 1,
}, attributes.style || {}),
}));
>> *)
Definition Tile (x y width height : num) (style : option TileStyle) : TileEl :=
  let style := default {| fill := None; stroke := None; strokeWidth := None |} style in
  {| tile_class := "tile"%string;
     tile_x := Number_toString x;
     tile_y := Number_toString y;
     tile_width := Number_toString width;
     tile_height := Number_toString height;
     style_fill := default "#ff1493"%string (fill style);
     style_stroke := default "#333333"%string (stroke style);
     style_strokeWidth := default (ofZ 1) (strokeWidth style) |}.

(** [redrawTiles()]: the new value of [tiles], from [svg.clientWidth],
    [svg.clientHeight] and the options. *)
Definition redrawTiles (fuel : nat) (clientWidth clientHeight tileSize : num)
    (tileBorderColor : string) : option (list (list TileEl)) :=
  for_loop fuel (λ y, y <? clientHeight)%J tileSize
    (λ y newTiles,
       tileRow ←
         for_loop fuel (λ x, x <? clientWidth)%J tileSize
           (λ x tileRow,
              Some (tileRow ++
                    [Tile x y tileSize tileSize
                       (Some {| fill := Some "none"%string;
                                stroke := Some tileBorderColor;
                                strokeWidth := Some (ofZ 1) |})]))
           (ofZ 0) [];
       Some (newTiles ++ [tileRow]))
    (ofZ 0) [].

(** The element of an array that the property name [String(n)] selects:
    [n] is an array index when it is a whole number that is not negative. *)
Definition array_index (n : num) : option nat :=
  match n with
  | Fin q =>
      if bool_decide (0 ≤ q ∧ Qc_of_Z (Qfloor q) = q) then Some (Z.to_nat (Qfloor q))
      else None
  | _ => None
  end.

(** [tile.el.style.fill = color] *)
Definition setFill (color : string) (tile : TileEl) : TileEl :=
  {| tile_class := tile_class tile;
     tile_x := tile_x tile;
     tile_y := tile_y tile;
     tile_width := tile_width tile;
     tile_height := tile_height tile;
     style_fill := color;
     style_stroke := style_stroke tile;
     style_strokeWidth := style_strokeWidth tile |}.

(** The body of the painting loops:
<<
const tile = (tiles[y] || [])[x];
if (tile) {
tile.el.style.fill = options.tileActiveColor;
}
>> *)
Definition paintTile (tileActiveColor : string) (x y : num)
    (tiles : list (list TileEl)) : list (list TileEl) :=
  match array_index y, array_index x with
  | Some row, Some col => alter (alter (setFill tileActiveColor) col) row tiles
  | _, _ => tiles
  end.

(** [tiles.forEach((row) => row.forEach((tile) => tile.el.style.fill = 'none'))] *)
Definition clearTiles (tiles : list (list TileEl)) : list (list TileEl) :=
  (λ row : list TileEl, setFill "none"%string <$> row) <$> tiles.

(** [setActiveTilesDict(activeTiles)], the [setActiveTiles] of a canvas, on
    the entries of [activeTiles] as [Object.entries] lists them. *)
Definition paintEntries (tileActiveColor : string)
    (tiles : list (list TileEl)) (entries : list (num * list num))
    : list (list TileEl) :=
  foldl (λ tiles entry,
           foldl (λ tiles y, paintTile tileActiveColor entry.1 y tiles)
                 tiles entry.2)
        (clearTiles tiles) entries.

(** The entries are taken in the order of [map_to_list]; the order of
    [Object.entries] is another one. *)
Definition setActiveTilesDict (tileActiveColor : string)
    (tiles : list (list TileEl)) (activeTiles : gmap num (list num))
    : list (list TileEl) :=
  paintEntries tileActiveColor tiles (map_to_list activeTiles).

(** [setActiveTilesTuples(activeTiles)], for a list of [[x, y]] pairs. *)
Definition setActiveTilesTuples (tileActiveColor : string)
    (tiles : list (list TileEl)) (activeTiles : list (num * num))
    : list (list TileEl) :=
  foldl (λ tiles position, paintTile tileActiveColor position.1 position.2 tiles)
        (clearTiles tiles) activeTiles.

(** [redraw()] of [Rasterizer]:
    [canvas.setActiveTiles(polygon.computeFilledSquares(options.tileSize))]. *)
Definition redraw (fuel : nat) (tileSize : num) (tileActiveColor : string)
    (polygon : PolygonObj) (tiles : list (list TileEl))
    : option (list (list TileEl)) :=
  setActiveTilesDict tileActiveColor tiles <$> computeFilledSquares fuel tileSize polygon.

(** ** Dragging a vertex

    Each [Vertex] keeps its [<circle>] and the closure variable
    [mouseGrabOffset]. *)
Record VertexObj : Type := {
  vertex_el : VertexEl;
  mouseGrabOffset : point
}.

(** [a || 0] for a number [a]: [NaN] and 0 give 0. *)
Definition or_zero (a : num) : num :=
  match a with
  | NaN => ofZ 0
  | _ => a
  end.

(** [handleStart(point)]; [point] is [None] when [touchEventPoint] has
    returned [undefined], and reading [point.x] throws.
<<
mouseGrabOffset.x = point.x - (parseInt(vertex.getAttribute('cx')) || 0);
mouseGrabOffset.y = point.y - (parseInt(vertex.getAttribute('cy')) || 0);
>> *)
Definition handleStart (point : option point) (vertex : VertexObj)
    : completion VertexObj :=
  match point with
  | Some point =>
      Returns
        {| vertex_el := vertex_el vertex;
           mouseGrabOffset :=
             {| x := (x point - or_zero (parseInt (cx (vertex_el vertex))))%J;
                y := (y point - or_zero (parseInt (cy (vertex_el vertex))))%J |} |}
  | None => Throws "TypeError"
  end.

(** [handleMove(evt, point)], up to the event it emits:
<<
const newX = point.x - mouseGrabOffset.x;
const newY = point.y - mouseGrabOffset.y;
vertex.setAttribute('cx', newX);
vertex.setAttribute('cy', newY);
>> *)
Definition handleMove (point : option point) (vertex : VertexObj)
    : completion VertexObj :=
  match point with
  | Some point =>
      Returns
        {| vertex_el :=
             {| cx := Number_toString (x point - x (mouseGrabOffset vertex))%J;
                cy := Number_toString (y point - y (mouseGrabOffset vertex))%J |};
           mouseGrabOffset := mouseGrabOffset vertex |}
  | None => Throws "TypeError"
  end.

(** [handleEnd(evt)], on the side of the vertex: the offset is reset. *)
Definition handleEnd (vertex : VertexObj) : VertexObj :=
  {| vertex_el := vertex_el vertex;
     mouseGrabOffset := {| x := ofZ 0; y := ofZ 0 |} |}.

(** The polygon on its canvas: the vertices, the edges, and the
    [mousemove] and [touchmove] listeners that the vertices have on the
    [<svg>], by the index of their vertex, in the order of registration. *)
Record Scene : Type := {
  scene_vertices : list VertexObj;
  scene_edges : list EdgeEl;
  mousemove_listeners : list nat;
  touchmove_listeners : list nat
}.

(** The polygon of a scene, and the scene of a polygon that has just been
    built. *)
Definition polygonOf (scene : Scene) : PolygonObj :=
  {| vertices := vertex_el <$> scene_vertices scene; edges := scene_edges scene |}.

Definition sceneOf (polygon : PolygonObj) : Scene :=
  {| scene_vertices :=
       (λ el, {| vertex_el := el;
                 mouseGrabOffset := {| x := ofZ 0; y := ofZ 0 |} |})
         <$> vertices polygon;
     scene_edges := edges polygon;
     mousemove_listeners := [];
     touchmove_listeners := [] |}.

(** The two ['shape.move'] listeners that [Edge] puts on its vertices, for
    the edge of index [edgeIndex] of a polygon of [sides] vertices when the
    vertex of index [moved] emits the event: the left vertex of the edge is
    the vertex [edgeIndex], its right vertex the vertex
    [(edgeIndex + 1) % sides].
<<
edge.setAttribute('x1', evt.target.getAttribute('cx'));
edge.setAttribute('y1', evt.target.getAttribute('cy'));
>>
    and the same for [x2] and [y2].  The edge holds its vertices by
    reference: the fields [leftVertex] and [rightVertex] change with them. *)
Definition followVertex (sides moved : nat) (target : VertexEl)
    (edgeIndex : nat) (edge : EdgeEl) : EdgeEl :=
  let edge :=
    if bool_decide (edgeIndex = moved) then
      {| attr_x1 := cx target; attr_y1 := cy target;
         attr_x2 := attr_x2 edge; attr_y2 := attr_y2 edge;
         leftVertex := target; rightVertex := rightVertex edge |}
    else edge in
  if bool_decide ((edgeIndex + 1) `mod` sides = moved)%nat then
    {| attr_x1 := attr_x1 edge; attr_y1 := attr_y1 edge;
       attr_x2 := cx target; attr_y2 := cy target;
       leftVertex := leftVertex edge; rightVertex := target |}
  else edge.

(** One [mousemove] or [touchmove] listener runs: [handleMove] of the
    vertex, then the listeners of the edges.  A listener that throws is
    reported by the browser and changes nothing. *)
Definition moveListener (point : option point) (scene : Scene) (index : nat)
    : Scene :=
  match scene_vertices scene !! index with
  | Some vertex =>
      match handleMove point vertex with
      | Returns vertex' =>
          {| scene_vertices := <[index := vertex']> (scene_vertices scene);
             scene_edges :=
               imap (followVertex (length (scene_vertices scene)) index
                       (vertex_el vertex'))
                    (scene_edges scene);
             mousemove_listeners := mousemove_listeners scene;
             touchmove_listeners := touchmove_listeners scene |}
      | Throws _ => scene
      end
  | None => scene
  end.

(** [addEventListener]: a listener that is on the list already is not put
    there again. *)
Definition addListener (index : nat) (listeners : list nat) : list nat :=
  if bool_decide (index ∈ listeners) then listeners else listeners ++ [index].

(** The events of the pointer: on a vertex ([mousedown], [touchstart]), on
    the [<svg>] ([mousemove], [touchmove]) and on the window ([mouseup],
    [touchend]). *)
Inductive pointerEvent : Type :=
  | MouseDown (index : nat) (point : point)
  | TouchStart (index : nat) (point : option point)
  | MouseMove (point : point)
  | TouchMove (point : option point)
  | PointerEnd.

Definition dispatch (event : pointerEvent) (scene : Scene) : Scene :=
  match event with
  | MouseDown index point =>
      match scene_vertices scene !! index with
      | Some vertex =>
          match handleStart (Some point) vertex with
          | Returns vertex' =>
              {| scene_vertices := <[index := vertex']> (scene_vertices scene);
                 scene_edges := scene_edges scene;
                 mousemove_listeners := addListener index (mousemove_listeners scene);
                 touchmove_listeners := touchmove_listeners scene |}
          | Throws _ => scene
          end
      | None => scene
      end
  | TouchStart index point =>
      match scene_vertices scene !! index with
      | Some vertex =>
          match handleStart point vertex with
          | Returns vertex' =>
              {| scene_vertices := <[index := vertex']> (scene_vertices scene);
                 scene_edges := scene_edges scene;
                 mousemove_listeners := mousemove_listeners scene;
                 touchmove_listeners := addListener index (touchmove_listeners scene) |}
          | Throws _ => scene
          end
      | None => scene
      end
  | MouseMove point =>
      foldl (moveListener (Some point)) scene (mousemove_listeners scene)
  | TouchMove point =>
      foldl (moveListener point) scene (touchmove_listeners scene)
  | PointerEnd =>
      {| scene_vertices := handleEnd <$> scene_vertices scene;
         scene_edges := scene_edges scene;
         mousemove_listeners := [];
         touchmove_listeners := [] |}
  end.

Local Close Scope Qc_scope.

(** ** [createDelayedListener]

<<
let resizeTimer = null;
cb = cb || (() => null);
delay = delay == null ? 100 : delay;
const fn = () => {
clearTimeout(resizeTimer);
resizeTimer = setTimeout(cb, delay)
};
>>
    The state is the closure variable [resizeTimer] and, of the browser, the
    clock (in milliseconds) and the timers of this listener that have not
    run yet, each with the time from which it may run.  The last two fields
    are a log: the times at which [fn] and the callback have run. *)
Record Debouncer : Type := {
  clock : nat;
  timers : gmap nat nat;
  freshTimer : nat;
  resizeTimer : option nat;
  triggered : list nat;
  invoked : list nat
}.

(** [delay == null ? 100 : delay] *)
Definition effectiveDelay (delay : option nat) : nat := default 100 delay.

(** The state that [createDelayedListener] leaves, at time [now]. *)
Definition createDelayedListener (now : nat) : Debouncer :=
  {| clock := now; timers := ∅; freshTimer := 0; resizeTimer := None;
     triggered := []; invoked := [] |}.

(** [clearTimeout(id)]: nothing happens for [null], or for a timer that has
    run. *)
Definition clearTimeout (id : option nat) (timers : gmap nat nat) : gmap nat nat :=
  match id with
  | Some id => delete id timers
  | None => timers
  end.

(** [fn()], when [setTimeout] returns the identifier [id]. *)
Definition delayedListener (delay : option nat) (id : nat) (st : Debouncer)
    : Debouncer :=
  {| clock := clock st;
     timers := <[id := clock st + effectiveDelay delay]>
                 (clearTimeout (resizeTimer st) (timers st));
     freshTimer := S id;
     resizeTimer := Some id;
     triggered := triggered st ++ [clock st];
     invoked := invoked st |}.

(** What happens to a delayed listener: its event is emitted and
    [setTimeout] returns an identifier that has not been used, time passes,
    or the browser runs one of the timers, not before its time. *)
Inductive timerStep : Type :=
  | Emit (id : nat)
  | Elapse (ms : nat)
  | Expire (id : nat).

Definition timerRun (delay : option nat) (step : timerStep) (st : Debouncer)
    : option Debouncer :=
  match step with
  | Emit id =>
      if bool_decide (freshTimer st ≤ id)%nat
      then Some (delayedListener delay id st) else None
  | Elapse ms =>
      Some {| clock := clock st + ms; timers := timers st;
              freshTimer := freshTimer st; resizeTimer := resizeTimer st;
              triggered := triggered st; invoked := invoked st |}
  | Expire id =>
      match timers st !! id with
      | Some due =>
          if bool_decide (due ≤ clock st)%nat then
            Some {| clock := clock st; timers := delete id (timers st);
                    freshTimer := freshTimer st; resizeTimer := resizeTimer st;
                    triggered := triggered st;
                    invoked := invoked st ++ [clock st] |}
          else None
      | None => None
      end
  end.

(** ** The [Object.assign] of the polyfill

<<
srcObjs.forEach((srcObj) => {
for (const key in srcObj) {
if (srcObj[key] !== undefined) {
destObj[key] = srcObj[key];
}
}
});
>>
    for a destination that is an object. *)
Definition assignDefined (destObj : object) (srcObj : jsval) : object :=
  foldl (λ o kv, match kv.2 with
                 | VUndefined => o
                 | v => obj_set kv.1 v o
                 end)
        destObj (own_properties srcObj).

Definition Object_assign_polyfill (destObj : object) (srcObjs : list jsval) : object :=
  foldl assignDefined destObj srcObjs.

(** ** [normalizeNodeList]

    The values it tells apart: [null] and [undefined], the other
    primitives (falsy or not), DOM nodes, and the objects that are not
    nodes, whose property [el] is a node or is not. *)
Inductive domValue : Type :=
  | Nullish
  | Primitive (truthy : bool)
  | DomNode (node : nat)
  | Wrapper (el : option nat).

Inductive nodeListArg : Type :=
  | Single (element : domValue)
  | Several (elements : list domValue).

(** The callback of [elements.map]: a node, [undefined] for what is
    filtered out then, or the [TypeError] of reading [el.el]. *)
Definition unwrapNode (el : domValue) : completion (option nat) :=
  match el with
  | DomNode node => Returns (Some node)
  | Wrapper el => Returns el
  | Primitive _ => Returns None
  | Nullish => Throws "TypeError"
  end.

Fixpoint unwrapNodes (elements : list domValue) : completion (list nat) :=
  match elements with
  | [] => Returns []
  | el :: rest =>
      match unwrapNode el with
      | Returns node =>
          match unwrapNodes rest with
          | Returns nodes => Returns (from_option (λ n, [n]) [] node ++ nodes)
          | Throws error => Throws error
          end
      | Throws error => Throws error
      end
  end.

Definition normalizeNodeList (elements : nodeListArg) : completion (list nat) :=
  match elements with
  | Single Nullish | Single (Primitive false) => Returns []
  | Single element => unwrapNodes [element]
  | Several elements => unwrapNodes elements
  end.

(** * Vocabulary of the statements *)

Local Close Scope Qc_scope.

(** The value of the loop variable after [n] increments. *)
Fixpoint advance (n : nat) (step i : num) : num :=
  match n with
  | O => i
  | S n' => advance n' step (i + step)%J
  end.

Definition is_infinite (a : num) : bool :=
  match a with
  | PInf | NInf => true
  | _ => false
  end.

(** The pending intersections are values that [floor] returned: none is
    an infinity. *)
Definition pending_ok (st : fillState) : Prop :=
  ∀ y xv, xValues st !! y = Some xv → is_infinite xv = false.

(** Sample inputs. *)
Definition pt (px py : Z) : point := {| x := ofZ px; y := ofZ py |}.

Definition emptyState : fillState := {| squares := ∅; xValues := ∅ |}.

(** A tile size of half a pixel, and a horizontal edge on [y = 1]. *)
Definition halfPixel : num := Fin (Q2Qc (1 # 2)).
Definition flatEdge : EdgeEl := Edge (Vertex (pt 0 1)) (Vertex (pt 10 1)).

(** The square of the scenario, every vertex given. *)
Definition squareOptions : PolygonOptions :=
  {| sides := 4;
     points := Some [Some (pt 100 100); Some (pt 200 100);
                     Some (pt 200 200); Some (pt 100 200)] |}.

(** A triangle inside tile (5,5) of a grid of 20 by 20 tiles. *)
Definition triangleOptions : PolygonOptions :=
  {| sides := 3;
     points := Some [Some (pt 101 101); Some (pt 103 117); Some (pt 117 117)] |}.

(** Point [p] has whole coordinates inside tile [(col, row)] of a grid of
    tiles of size [t]. *)
Definition withinTile (t col row : Z) (p : point) : Prop :=
  ∃ px py : Z, p = pt px py ∧
    (col * t ≤ px < (col + 1) * t)%Z ∧ (row * t ≤ py < (row + 1) * t)%Z.

(** Point [p] lies strictly above the horizontal centre line of the tiles
    of row [row] ([above = true]), or on it or below ([above = false]). *)
Definition besideCentre (t row : Z) (above : bool) (p : point) : Prop :=
  ∃ px py : Z, p = pt px py ∧
    if above then (2 * py < 2 * row * t + t)%Z else (2 * row * t + t ≤ 2 * py)%Z.

(** The values of the loop variable on which the body of [for_loop] runs,
    at most [n] of them. *)
Fixpoint iterations (n : nat) (test : num → bool) (step i : num) : list num :=
  match n with
  | O => []
  | S n' => if test i then i :: iterations n' test step (i + step)%J else []
  end.

(** Tile [(col, row)] is marked by the inner loop that runs from [xa] up to
    [xb] on scan-line [y]. *)
Definition spanTile (fuel : nat) (tileSize y xa xb col row : num) : Prop :=
  row = (y / tileSize)%J ∧
  ∃ tileX, tileX ∈ iterations fuel (λ tileX, tileX <? xb)%J tileSize xa ∧
           col = (tileX / tileSize)%J.

(** The constants of [accumulateSquaresForEdge]. *)
Definition slopeOf (tileSize : num) (edge : EdgeEl) : num :=
  let position := Edge_position edge in
  let x1 := (x1 position + tileSize / ofZ 2)%J in
  let x2 := (x2 position + tileSize / ofZ 2)%J in
  let y1 := (y1 position - tileSize / ofZ 2)%J in
  let y2 := (y2 position - tileSize / ofZ 2)%J in
  if strict_eq (x2 - x1)%J (ofZ 0) then ofZ 0 else ((y2 - y1) / (x2 - x1))%J.

Definition interceptOf (tileSize : num) (edge : EdgeEl) : num :=
  let position := Edge_position edge in
  let x1 := (x1 position + tileSize / ofZ 2)%J in
  let y1 := (y1 position - tileSize / ofZ 2)%J in
  (y1 - slopeOf tileSize edge * x1)%J.

Definition lowerEnd (tileSize : num) (edge : EdgeEl) : num :=
  let position := Edge_position edge in
  Math_min (y1 position - tileSize / ofZ 2)%J (y2 position - tileSize / ofZ 2)%J.

Definition upperEnd (tileSize : num) (edge : EdgeEl) : num :=
  let position := Edge_position edge in
  Math_max (y1 position - tileSize / ofZ 2)%J (y2 position - tileSize / ofZ 2)%J.

(** A number of increments after which a loop from [i] by [step > 0] has
    passed [bound]. *)
Definition tripBound (i bound step : num) : nat :=
  match ((bound - i) / step)%J with
  | Fin q => Z.to_nat (Qfloor q + 1)
  | _ => 0
  end.

(** The scan-lines on which the scan loop of an edge runs, and its
    crossings: each scan-line with the intersection [x] the loop computes. *)
Definition scanLinesOf (tileSize : num) (edge : EdgeEl) : list num :=
  let y0 := (floor (lowerEnd tileSize edge) tileSize + tileSize)%J in
  iterations (tripBound y0 (upperEnd tileSize edge) tileSize)
    (λ y, y <=? upperEnd tileSize edge)%J tileSize y0.

Definition crossingsOf (tileSize : num) (edge : EdgeEl) : list (num * num) :=
  (λ y, (y, floor ((y - interceptOf tileSize edge) / slopeOf tileSize edge)%J tileSize))
    <$> scanLinesOf tileSize edge.

(** The crossings of a fill pass, in the order the pass meets them. *)
Definition allCrossings (tileSize : num) (edges : list EdgeEl) : list (num * num) :=
  edges ≫= crossingsOf tileSize.

Definition processCrossings (fuel : nat) (tileSize : num)
    (crossings : list (num * num)) (st : fillState) : option fillState :=
  forEach (λ c, crossing fuel tileSize c.1 c.2) crossings st.

(** The intersections met on scan-line [y], in order. *)
Definition intersectionsAt (y : num) (crossings : list (num * num)) : list num :=
  (filter (λ c, c.1 = y) crossings).*2.

(** The tiles that a list of crossings marks, from the pending
    intersections [pending]. *)
Fixpoint pairedTile (fuel : nat) (tileSize : num) (crossings : list (num * num))
    (pending : gmap num num) (col row : num) : Prop :=
  match crossings with
  | [] => False
  | (y, x) :: rest =>
      match pending !! y with
      | Some xv =>
          spanTile fuel tileSize y (Math_min x xv) (Math_max x xv) col row ∨
          pairedTile fuel tileSize rest (delete y pending) col row
      | None =>
          pairedTile fuel tileSize rest (<[y := floor x tileSize]> pending) col row
      end
  end.

(** The pending intersections after a list of crossings. *)
Fixpoint pendingAfter (tileSize : num) (crossings : list (num * num))
    (pending : gmap num num) : gmap num num :=
  match crossings with
  | [] => pending
  | (y, x) :: rest =>
      match pending !! y with
      | Some _ => pendingAfter tileSize rest (delete y pending)
      | None => pendingAfter tileSize rest (<[y := floor x tileSize]> pending)
      end
  end.

(** Fuel with which the scan loop of every edge of a list runs to its end. *)
Definition scanFuel (tileSize : num) (edges : list EdgeEl) : nat :=
  foldr (λ edge n,
           S (tripBound (floor (lowerEnd tileSize edge) tileSize + tileSize)%J
                (upperEnd tileSize edge) tileSize) `max` n)
        0 edges.

(** Scan-line [y] has a pending intersection. *)
Definition pendingAt (y : num) (pending : gmap num num) : bool :=
  match pending !! y with
  | Some _ => true
  | None => false
  end.

(** Every scan-line is crossed once more if it has a pending intersection,
    and twice or not at all otherwise. *)
Definition balanced (crossings : list (num * num)) (pending : gmap num num) : Prop :=
  ∀ y, match pending !! y with
       | Some _ => length (intersectionsAt y crossings) = 1
       | None => length (intersectionsAt y crossings) = 0 ∨
                 length (intersectionsAt y crossings) = 2
       end.

(** Tile [(col, row)] lies in the span between the two intersections of
    some scan-line. *)
Definition pairTile (fuel : nat) (tileSize : num) (crossings : list (num * num))
    (pending : gmap num num) (col row : num) : Prop :=
  ∃ y, match pending !! y with
       | Some xv =>
           ∃ x, intersectionsAt y crossings = [x] ∧
                spanTile fuel tileSize y (Math_min x xv) (Math_max x xv) col row
       | None =>
           ∃ x1 x2, intersectionsAt y crossings = [x1; x2] ∧
                    spanTile fuel tileSize y (Math_min x2 (floor x1 tileSize))
                      (Math_max x2 (floor x1 tileSize)) col row
       end.

(** The two results hold the same tiles. *)
Definition sameTiles (sq sq' : gmap num (list num)) : Prop :=
  ∀ col row, active sq col row ↔ active sq' col row.

(** A polygon with its edge list reversed. *)
Definition reverseEdges (polygon : PolygonObj) : PolygonObj :=
  {| vertices := vertices polygon; edges := reverse (edges polygon) |}.

(** A triangle on whole coordinates, for tiles of size 20. *)
Definition wedgeOptions : PolygonOptions :=
  {| sides := 3;
     points := Some [Some (pt 100 100); Some (pt 140 140); Some (pt 60 140)] |}.

(** A tile size of two pixels and a half, and a triangle with its apex at
    (5,0) above a horizontal base from (0,10) to (10,10). *)
Definition twoAndHalf : num := Fin (Q2Qc (5 # 2)).

Definition apexOptions : PolygonOptions :=
  {| sides := 3;
     points := Some [Some (pt 5 0); Some (pt 0 10); Some (pt 10 10)] |}.

Global Instance active_dec sq col row : Decision (active sq col row).
Proof.
  unfold active. destruct (sq !! col) as [rows|].
  - destruct (decide (row ∈ rows)) as [Hin|Hout].
    + left. by exists rows.
    + right. intros (rows' & [= <-] & Hin). contradiction.
  - right. intros (rows' & [=] & _).
Defined.

(** A call of [computeFilledSquares] returns a result that holds tile
    [(col, row)]. *)
Definition returnsTile (result : option (gmap num (list num))) (col row : num) : Prop :=
  ∃ sq, result = Some sq ∧ active sq col row.

Global Instance returnsTile_dec result col row : Decision (returnsTile result col row).
Proof.
  unfold returnsTile. destruct result as [sq|].
  - destruct (decide (active sq col row)) as [Hin|Hout].
    + left. by exists sq.
    + right. intros (sq' & [= <-] & Hin). contradiction.
  - right. intros (sq' & [=] & _).
Defined.

(** The three edges of the triangle (5,0), (10,10), (0,10), in this order. *)
Definition apexToRight : EdgeEl := Edge (Vertex (pt 5 0)) (Vertex (pt 10 10)).
Definition rightToLeft : EdgeEl := Edge (Vertex (pt 10 10)) (Vertex (pt 0 10)).
Definition leftToApex : EdgeEl := Edge (Vertex (pt 0 10)) (Vertex (pt 5 0)).

(** A computation returns a value that satisfies [P]. *)
Definition yields {A : Type} (o : option A) (P : A → Prop) : Prop :=
  ∃ a, o = Some a ∧ P a.

Global Instance yields_dec {A : Type} (o : option A) (P : A → Prop)
  `{∀ a, Decision (P a)} : Decision (yields o P).
Proof.
  unfold yields. destruct o as [a|].
  - destruct (decide (P a)) as [Hp|Hn].
    + left. by exists a.
    + right. intros (a' & [= <-] & Hp). contradiction.
  - right. intros (a' & [=] & _).
Defined.

(** A state in which scan-line 40 has the pending intersection 100. *)
Definition pendingSample : fillState :=
  {| squares := ∅; xValues := {[ofZ 40 := floor (ofZ 100) (ofZ 20)]} |}.

(** The ends of an edge after the half-tile offset of
    [accumulateSquaresForEdge] are the finite values [(X1, Y1)] and
    [(X2, Y2)]. *)
Definition offsetEnds (t : Z) (edge : EdgeEl) (X1 Y1 X2 Y2 : Qc) : Prop :=
  (x1 (Edge_position edge) + ofZ t / ofZ 2)%J = Fin X1 ∧
  (y1 (Edge_position edge) - ofZ t / ofZ 2)%J = Fin Y1 ∧
  (x2 (Edge_position edge) + ofZ t / ofZ 2)%J = Fin X2 ∧
  (y2 (Edge_position edge) - ofZ t / ofZ 2)%J = Fin Y2.

(** Sample edges: a slanted one and an upright one for tiles of size 20,
    and a slanted one for tiles of size 2.5. *)
Definition slantEdge : EdgeEl := Edge (Vertex (pt 100 100)) (Vertex (pt 140 140)).
Definition uprightEdge : EdgeEl := Edge (Vertex (pt 200 100)) (Vertex (pt 200 200)).
Definition steepEdge : EdgeEl := Edge (Vertex (pt 0 5)) (Vertex (pt 4 13)).

(** The numbers that [String(x)] writes in decimal notation: zero, and
    those with [1e-6 <= |x| < 1e21]. *)
Definition decimalRange (q : Qc) : Prop :=
  q = Q2Qc 0 ∨
  ((/ pow10 6 ≤ q)%Qc ∧ (q < pow10 21)%Qc) ∨
  ((/ pow10 6 ≤ - q)%Qc ∧ (- q < pow10 21)%Qc).

(** What follows the digits of the integer part in [String(x)]: nothing,
    or a fraction. *)
Definition fraction_like (rest : string) : Prop :=
  rest = EmptyString ∨ ∃ s, rest = String "." s.

Global Instance point_eq_dec : EqDecision point.
Proof. solve_decision. Defined.

(** The point [{x: p.1, y: p.2}], the same point with its coordinates
    truncated toward zero, and the options that give [n] sides and the
    points of a list. *)
Definition pointOf (p : Qc * Qc) : point := {| x := Fin p.1; y := Fin p.2 |}.

Definition truncated (p : Qc * Qc) : point :=
  {| x := ofZ (Qc_trunc p.1); y := ofZ (Qc_trunc p.2) |}.

Definition givenPoints (n : nat) (pts : list (Qc * Qc)) : PolygonOptions :=
  {| sides := n; points := Some ((λ p, Some (pointOf p)) <$> pts) |}.

(** A triangle whose first vertex has the abscissa 10.5. *)
Definition halfOptions : PolygonOptions :=
  givenPoints 3 [(Q2Qc (21 # 2), Qc_of_Z 20); (Qc_of_Z 0, Qc_of_Z 0);
                 (Qc_of_Z 5, Qc_of_Z 5)].

(** [options.points && options.points[sideIndex]], when it is a point. *)
Definition givenPoint (options : PolygonOptions) (sideIndex : nat) : option point :=
  match points options with
  | Some pts =>
      match pts !! sideIndex with
      | Some (Some p) => Some p
      | _ => None
      end
  | None => None
  end.

(** The angle of the first vertex and the angle between two vertices, in
    radians: 90 degrees over [sides], and 360 degrees over [sides]. *)
Definition startAngle (sides : nat) : num := (Math_PI / ofZ 2 / ofNat sides)%J.
Definition stepAngle (sides : nat) : num := (Math_PI * ofZ 2 / ofNat sides)%J.

(** The point of the circle of radius 100 around (150,150) at an angle. *)
Definition circlePoint (Math_cos Math_sin : num → num) (angle : num) : point :=
  {| x := (ofZ 150 + Math_cos angle * ofZ 100)%J;
     y := (ofZ 150 + Math_sin angle * ofZ 100)%J |}.

(** Three sides, and a list of points that holds one point only. *)
Definition shortOptions : PolygonOptions :=
  {| sides := 3; points := Some [Some (pt 0 0)] |}.

(** A parser that knows the text of the empty object only and throws on
    every other text. *)
Definition bracesOnly (text : string) : completion jsval :=
  if bool_decide (text = "{}"%string) then Returns (VObj [])
  else Throws "SyntaxError"%string.

(** ** Vocabulary of the further properties *)

(** An edge is upright or flat: its two abscissas, or its two ordinates,
    are the same. *)
Definition axisAligned (edge : EdgeEl) : Prop :=
  x1 (Edge_position edge) = x2 (Edge_position edge) ∨
  y1 (Edge_position edge) = y2 (Edge_position edge).

Global Instance axisAligned_dec edge : Decision (axisAligned edge).
Proof. unfold axisAligned. apply _. Defined.

(** A rectangle of 60 by 40 with a corner at the origin. *)
Definition rectangleOptions : PolygonOptions :=
  {| sides := 4;
     points := Some [Some (pt 0 0); Some (pt 60 0); Some (pt 60 40); Some (pt 0 40)] |}.

(** Tile [(col, row)] has whole indices, and the scan-line [row * t] of its
    row crosses one of the edges: it lies above the lower end of the edge,
    and not above its upper end. *)
Definition onScanLine (t : Z) (edges : list EdgeEl) (col row : num) : Prop :=
  ∃ (c r : Z) (edge : EdgeEl),
    col = ofZ c ∧ row = ofZ r ∧ edge ∈ edges ∧
    (lowerEnd (ofZ t) edge <? ofZ (r * t))%J = true ∧
    (ofZ (r * t) <=? upperEnd (ofZ t) edge)%J = true.

(** What a fill pass on tiles of size [t] keeps true of its state: the
    pending intersections are multiples of [t] or [NaN], and the marked
    tiles are tiles of the scan-lines of the edges. *)
Definition gridState (t : Z) (edges : list EdgeEl) (st : fillState) : Prop :=
  (∀ y xv, xValues st !! y = Some xv → xv = NaN ∨ ∃ a, xv = ofZ (a * t)) ∧
  (∀ col row, active (squares st) col row → onScanLine t edges col row).

(** A coordinate that is [NaN], or a number below [1e21] in absolute
    value. *)
Definition belowExponent (v : num) : Prop :=
  match v with
  | NaN => True
  | Fin q => (- pow10 21 < q)%Qc ∧ (q < pow10 21)%Qc
  | _ => False
  end.

Global Instance belowExponent_dec v : Decision (belowExponent v).
Proof. destruct v; apply _. Defined.

(** A parser for which every text but that of the empty object is the text
    of an object with five sides. *)
Definition fiveSides (text : string) : completion jsval :=
  if bool_decide (text = "{}"%string) then Returns (VObj [])
  else Returns (VObj [("sides"%string, VNum (ofZ 5))]).

(** The number of tiles of size [t] that it takes to cover [extent]. *)
Definition tileCount (extent t : Z) : nat := Z.to_nat ((extent + t - 1) / t).

(** The style that [redrawTiles] gives to its tiles. *)
Definition gridStyle (tileBorderColor : string) : TileStyle :=
  {| fill := Some "none"%string; stroke := Some tileBorderColor;
     strokeWidth := Some (ofZ 1) |}.

(** The grid of [rows] by [cols] tiles of size [t]. *)
Definition tileGrid (rows cols : nat) (t : Z) (tileBorderColor : string)
    : list (list TileEl) :=
  (λ j : nat,
     (λ i : nat,
        Tile (ofZ (Z.of_nat i * t)) (ofZ (Z.of_nat j * t)) (ofZ t) (ofZ t)
          (Some (gridStyle tileBorderColor)))
       <$> seq 0 cols)
    <$> seq 0 rows.

(** A grid with the fill of each tile chosen by its row and column. *)
Definition mapGrid (f : nat → nat → TileEl → TileEl)
    (tiles : list (list TileEl)) : list (list TileEl) :=
  imap (λ j row, imap (λ i tile, f j i tile) row) tiles.

(** The tiles of a canvas after [setActiveTiles]: the active colour on the
    tiles of the active set, ['none'] on the others. *)
Definition paintedGrid (tileActiveColor : string) (tiles : list (list TileEl))
    (activeTiles : gmap num (list num)) : list (list TileEl) :=
  mapGrid (λ j i tile,
             setFill (if bool_decide (active activeTiles (ofNat i) (ofNat j))
                      then tileActiveColor else "none"%string) tile)
          tiles.

(** The tile of row [j] and column [i] is painted by one of the pairs of
    a list. *)
Definition hits (positions : list (num * num)) (j i : nat) : Prop :=
  Exists (λ p, array_index p.1 = Some i ∧ array_index p.2 = Some j) positions.

Global Instance hits_dec positions j i : Decision (hits positions j i).
Proof. unfold hits. apply _. Defined.

(** The pairs of an active set, entry by entry. *)
Definition positionsOf (entries : list (num * list num)) : list (num * num) :=
  entries ≫= λ entry, (λ y, (entry.1, y)) <$> entry.2.

(** The tiles of a canvas after [setActiveTilesTuples]. *)
Definition paintedPositions (tileActiveColor : string) (tiles : list (list TileEl))
    (positions : list (num * num)) : list (list TileEl) :=
  mapGrid (λ j i tile,
             setFill (if bool_decide (hits positions j i)
                      then tileActiveColor else "none"%string) tile)
          tiles.

(** A value is a number: not [NaN], not an infinity. *)
Definition isNumber (v : num) : bool :=
  match v with
  | Fin _ => true
  | _ => false
  end.

(** An edge whose two ordinates are numbers. *)
Definition finiteOrdinates (edge : EdgeEl) : Prop :=
  isNumber (y1 (Edge_position edge)) = true ∧
  isNumber (y2 (Edge_position edge)) = true.

Global Instance finiteOrdinates_dec edge : Decision (finiteOrdinates edge).
Proof. unfold finiteOrdinates. apply _. Defined.

(** The [<circle>]s of a scene. *)
Definition circles (scene : Scene) : list VertexEl :=
  vertex_el <$> scene_vertices scene.

(** The edges that [initializePieces] builds from a list of vertices. *)
Definition ringOf (vertices : list VertexEl) : list EdgeEl :=
  initializeEdges {| sides := length vertices; points := None |} vertices.

(** A scene after a list of events, the first event first. *)
Definition after (events : list pointerEvent) (scene : Scene) : Scene :=
  foldl (λ scene event, dispatch event scene) scene events.

(** What a delayed listener keeps true.  A timer that has not run is the
    one that [resizeTimer] names, and it may run [delay] ms after the last
    event.  The events lie in the past, none later than the last one.  The
    callback has run at most once for each event, one more time if its
    timer is waiting.  And when no timer is waiting, the callback has run
    [delay] ms after the last event, or later. *)
Definition debounced (delay : option nat) (st : Debouncer) : Prop :=
  (∀ id due, timers st !! id = Some due →
     resizeTimer st = Some id ∧
     ∃ s, last (triggered st) = Some s ∧ due = s + effectiveDelay delay) ∧
  Forall (λ s, s ≤ clock st) (triggered st) ∧
  (∀ l, last (triggered st) = Some l → Forall (λ s, s ≤ l) (triggered st)) ∧
  length (invoked st) + size (timers st) ≤ length (triggered st) ∧
  (timers st = ∅ → ∀ s, last (triggered st) = Some s →
     ∃ t, last (invoked st) = Some t ∧ s + effectiveDelay delay ≤ t).

(** Two events 50 ms apart, then 100 ms without one. *)
Definition twoEvents : list timerStep := [Emit 0; Elapse 50; Emit 1; Elapse 100].

(** No property of a source is [undefined]. *)
Definition allDefined (srcObj : jsval) : Prop :=
  Forall (λ kv, kv.2 ≠ VUndefined) (own_properties srcObj).

(** The grid of [redrawTiles] with the tiles of an active set painted. *)
Definition shownGrid (rows cols : nat) (t : Z) (tileBorderColor tileActiveColor : string)
    (activeTiles : gmap num (list num)) : list (list TileEl) :=
  (λ j : nat,
     (λ i : nat,
        setFill (if bool_decide (active activeTiles (ofNat i) (ofNat j))
                 then tileActiveColor else "none"%string)
          (Tile (ofZ (Z.of_nat i * t)) (ofZ (Z.of_nat j * t)) (ofZ t) (ofZ t)
             (Some (gridStyle tileBorderColor))))
       <$> seq 0 cols)
    <$> seq 0 rows.

(** * Properties *)

(** ** Rational arithmetic *)

Lemma Qc_this_eq (a b : Qc) : a = b ↔ (this a == this b)%Q.
Proof. split; [intros ->; reflexivity | apply Qc_is_canon]. Qed.

(** Goals on [Qc] are sent to [Q], where [lra] and [field] work. *)
Ltac qc_to_q :=
  repeat match goal with
  | H : @eq Qc _ _ |- _ => apply Qc_this_eq in H
  | H : ¬ @eq Qc _ _ |- _ => rewrite Qc_this_eq in H
  | |- @eq Qc _ _ => apply Qc_this_eq
  | |- ¬ @eq Qc _ _ => rewrite Qc_this_eq
  end;
  unfold Qcle, Qclt, Qcdiv, Qcminus, Qcplus, Qcopp, Qcmult, Qcinv, Q2Qc, Qc_of_Z in *;
  cbn [this] in *; unfold inject_Z in *;
  repeat (setoid_rewrite Qred_correct);
  repeat match goal with
  | H : _ |- _ => setoid_rewrite Qred_correct in H
  end.

Ltac qc_lra := qc_to_q; lra.

(** A decidable closed proposition, decided by evaluation. *)
Ltac by_computation := apply (bool_decide_eq_true_1 _); vm_compute; reflexivity.

(** Replace a closed term of the goal by its value. *)
Ltac evaluate t :=
  let v := eval vm_compute in t in
  replace t with v by (vm_compute; reflexivity).

Lemma Qc_archimedean (a b t : Qc) :
  (0 < t)%Qc → ∃ n : nat, (b < a + Qc_of_Z (Z.of_nat n) * t)%Qc.
Proof.
  intros Ht.
  assert (Hfl : ((b - a) / t < Qc_of_Z (Qfloor ((b - a) / t)%Qc + 1))%Qc).
  { unfold Qclt, Qc_of_Z; cbn [this]. apply Qlt_floor. }
  set (z := (Qfloor ((b - a) / t)%Qc + 1)%Z) in *.
  exists (Z.to_nat z).
  assert (Hz : (Qc_of_Z z ≤ Qc_of_Z (Z.of_nat (Z.to_nat z)))%Qc).
  { apply (proj1 (Z2Qc_inj_le _ _)). lia. }
  assert (Hm : ((b - a) / t * t < Qc_of_Z z * t)%Qc)
    by (apply Qcmult_lt_compat_r; assumption).
  assert (Hd : ((b - a) / t * t = b - a)%Qc).
  { qc_to_q. field. lra. }
  rewrite Hd in Hm.
  assert (Hn : (Qc_of_Z z * t ≤ Qc_of_Z (Z.of_nat (Z.to_nat z)) * t)%Qc).
  { apply Qcmult_le_compat_r; [assumption | apply Qclt_le_weak; assumption]. }
  generalize dependent (Qc_of_Z z * t)%Qc.
  generalize dependent (Qc_of_Z (Z.of_nat (Z.to_nat z)) * t)%Qc.
  intros u v Hm Hn. clear - Hm Hn. qc_lra.
Qed.

(** ** The loops *)

Lemma for_loop_mono {S : Type} (body body' : num → S → option S) test step :
  (∀ i s r, body i s = Some r → body' i s = Some r) →
  ∀ fuel fuel' i s r, fuel ≤ fuel' →
    for_loop fuel test step body i s = Some r →
    for_loop fuel' test step body' i s = Some r.
Proof.
  intros Hbody. induction fuel as [|fuel IH]; intros fuel' i s r Hle; [discriminate|].
  destruct fuel' as [|fuel']; [lia|]. cbn.
  destruct (test i); [|tauto].
  destruct (body i s) as [s'|] eqn:Hb; [|discriminate].
  rewrite (Hbody _ _ _ Hb). cbn. apply IH. lia.
Qed.

Lemma forEach_mono {A S : Type} (f f' : A → S → option S) :
  (∀ a s r, f a s = Some r → f' a s = Some r) →
  ∀ l s r, forEach f l s = Some r → forEach f' l s = Some r.
Proof.
  intros Hf. induction l as [|a l IH]; intros s r; cbn; [tauto|].
  destruct (f a s) as [s'|] eqn:Ha; [|discriminate].
  rewrite (Hf _ _ _ Ha). cbn. apply IH.
Qed.

(** A loop whose test fails after finitely many increments returns, when
    its body does, for every supply of fuel above some bound. *)
Lemma for_loop_returns {S : Type} (Inv : S → Prop) test step
    (body : nat → num → S → option S) :
  (∀ f f' i s r, f ≤ f' → body f i s = Some r → body f' i s = Some r) →
  (∀ i s, Inv s → test i = true →
     ∃ F s', Inv s' ∧ ∀ f, F ≤ f → body f i s = Some s') →
  ∀ n i s, Inv s → test (advance n step i) = false →
    ∃ F s', Inv s' ∧ ∀ f, F ≤ f → for_loop f test step (body f) i s = Some s'.
Proof.
  intros Hmono Hbody. induction n as [|n IH]; intros i s Hs Hn; cbn in Hn.
  - exists 1, s. split; [assumption|]. intros [|f] Hf; [lia|]. cbn. by rewrite Hn.
  - destruct (test i) eqn:Hi.
    + destruct (Hbody i s Hs Hi) as (F1 & s1 & Hs1 & Hb).
      destruct (IH _ s1 Hs1 Hn) as (F2 & s2 & Hs2 & Hl).
      exists (Datatypes.S (F1 `max` F2)), s2. split; [assumption|].
      intros [|f] Hf; [lia|]. cbn. rewrite Hi.
      rewrite (Hb (Datatypes.S f)) by lia. cbn.
      eapply (for_loop_mono (body f)); [| |apply Hl; lia]; [|lia].
      intros j t r. apply Hmono. lia.
    + exists 1, s. split; [assumption|]. intros [|f] Hf; [lia|]. cbn. by rewrite Hi.
Qed.

Lemma forEach_returns {A S : Type} (Inv : S → Prop)
    (f : nat → A → S → option S) (l : list A) :
  (∀ n n' a s r, n ≤ n' → f n a s = Some r → f n' a s = Some r) →
  (∀ a s, a ∈ l → Inv s → ∃ F s', Inv s' ∧ ∀ n, F ≤ n → f n a s = Some s') →
  ∀ s, Inv s → ∃ F s', Inv s' ∧ ∀ n, F ≤ n → forEach (f n) l s = Some s'.
Proof.
  intros Hmono. induction l as [|a l IH]; intros Hf s Hs.
  - exists 0, s. split; [assumption|]. reflexivity.
  - destruct (Hf a s) as (F1 & s1 & Hs1 & Ha); [left|assumption|].
    destruct (IH (λ a' s' Hin, Hf a' s' (list_elem_of_further _ _ _ Hin)) s1 Hs1)
      as (F2 & s2 & Hs2 & Hl).
    exists (F1 `max` F2), s2. split; [assumption|].
    intros n Hn. cbn. rewrite Ha by lia. cbn. apply Hl. lia.
Qed.

(** ** Numbers *)

Lemma positive_cases (T : num) :
  (ofZ 0 <? T)%J = true → T = PInf ∨ ∃ t, T = Fin t ∧ (0 < t)%Qc.
Proof.
  destruct T as [| | |t]; cbn; try discriminate; [by left|].
  intros Ht. right. exists t. split; [reflexivity|].
  apply bool_decide_eq_true in Ht. exact Ht.
Qed.

Lemma floor_not_infinite (n modulo : num) : is_infinite (floor n modulo) = false.
Proof.
  destruct n as [| | |p], modulo as [| | |q]; try reflexivity.
  unfold floor, rem. case_bool_decide; reflexivity.
Qed.

Lemma Math_min_not_infinite (a b : num) :
  is_infinite a = false → is_infinite b = false → is_infinite (Math_min a b) = false.
Proof.
  destruct a, b; cbn; try discriminate; try reflexivity.
  intros _ _. case_bool_decide; reflexivity.
Qed.

Lemma Math_max_not_infinite (a b : num) :
  is_infinite a = false → is_infinite b = false → is_infinite (Math_max a b) = false.
Proof.
  destruct a, b; cbn; try discriminate; try reflexivity.
  intros _ _. case_bool_decide; reflexivity.
Qed.

Lemma advance_Fin (n : nat) (t a : Qc) :
  advance n (Fin t) (Fin a) = Fin (a + Qc_of_Z (Z.of_nat n) * t)%Qc.
Proof.
  revert a. induction n as [|n IH]; intros a.
  - change (Fin a = Fin (a + Qc_of_Z 0 * t)%Qc). f_equal.
    rewrite Z2Qc_inj_0. qc_to_q. ring.
  - cbn [advance]. change (Fin a + Fin t)%J with (Fin (a + t)%Qc). rewrite IH.
    f_equal. rewrite Nat2Z.inj_succ, <- Z.add_1_r, Z2Qc_inj_add, Z2Qc_inj_1.
    generalize (Qc_of_Z (Z.of_nat n)). intros k. qc_to_q. ring.
Qed.

(** With a positive step the loop variable passes every bound that is
    not [Infinity], unless it starts at [-Infinity]. *)
Lemma advance_passes_le (T i bound : num) :
  (ofZ 0 <? T)%J = true → i ≠ NInf → bound ≠ PInf →
  ∃ n, (advance n T i <=? bound)%J = false.
Proof.
  intros HT Hi Hb. destruct i as [| | |a]; [by exists 0%nat| |congruence|].
  - exists 0%nat. cbn. destruct bound; try reflexivity. congruence.
  - destruct bound as [| | |b]; try (by exists 0%nat).
    destruct (positive_cases T HT) as [->|(t & -> & Ht)].
    + exists 1%nat. reflexivity.
    + destruct (Qc_archimedean a b t Ht) as [n Hn]. exists n.
      rewrite advance_Fin. cbn. apply bool_decide_eq_false.
      by apply Qclt_not_le.
Qed.

Lemma advance_passes_lt (T i bound : num) :
  (ofZ 0 <? T)%J = true → i ≠ NInf → bound ≠ PInf →
  ∃ n, (advance n T i <? bound)%J = false.
Proof.
  intros HT Hi Hb.
  destruct i as [| | |a];
    [by exists 0%nat|exists 0%nat; by destruct bound|congruence|].
  destruct bound as [| | |b]; try (by exists 0%nat).
  destruct (positive_cases T HT) as [->|(t & -> & Ht)].
  - exists 1%nat. reflexivity.
  - destruct (Qc_archimedean a b t Ht) as [n Hn]. exists n.
    rewrite advance_Fin. cbn. apply bool_decide_eq_false.
    apply Qcle_not_lt, Qclt_le_weak. assumption.
Qed.

Lemma parseInt_cases (s : string) : parseInt s = NaN ∨ ∃ z, parseInt s = ofZ z.
Proof.
  unfold parseInt, signed. destruct (strip_sign _) as [negative s'].
  destruct (has_hex_prefix s').
  - destruct (hex_prefix _ _); eauto.
  - destruct (decimal_prefix s') as [[] ?]; eauto.
Qed.

Lemma parseInt_not_infinite (s : string) : is_infinite (parseInt s) = false.
Proof. destruct (parseInt_cases s) as [->|[z ->]]; reflexivity. Qed.

Lemma sub_not_PInf (a b : num) : a ≠ PInf → b ≠ NInf → (a - b)%J ≠ PInf.
Proof. destruct a, b; cbn; congruence. Qed.

Lemma half_not_NInf (T : num) : (ofZ 0 <? T)%J = true → (T / ofZ 2)%J ≠ NInf.
Proof.
  intros HT. destruct (positive_cases T HT) as [->|(t & -> & Ht)]; [done|].
  cbn. case_bool_decide; [|done]. repeat case_bool_decide; done.
Qed.

Lemma Math_max_not_PInf (a b : num) : a ≠ PInf → b ≠ PInf → Math_max a b ≠ PInf.
Proof. destruct a, b; cbn; try congruence. case_bool_decide; congruence. Qed.

Lemma parseInt_not_PInf (s : string) : parseInt s ≠ PInf.
Proof. destruct (parseInt_cases s) as [->|[z ->]]; done. Qed.

(** ** The fill pass returns *)

Lemma markTile_loop_mono tileSize y xb fuel fuel' xa sq r :
  fuel ≤ fuel' →
  for_loop fuel (λ tileX, tileX <? xb)%J tileSize
    (λ tileX sq, Some (markTile tileSize y tileX sq)) xa sq = Some r →
  for_loop fuel' (λ tileX, tileX <? xb)%J tileSize
    (λ tileX sq, Some (markTile tileSize y tileX sq)) xa sq = Some r.
Proof. intros Hle. by apply for_loop_mono. Qed.

Lemma crossing_mono tileSize x fuel fuel' y st r :
  fuel ≤ fuel' →
  crossing fuel tileSize y x st = Some r →
  crossing fuel' tileSize y x st = Some r.
Proof.
  intros Hle. unfold crossing. destruct (xValues st !! y) as [xv|]; [|tauto].
  destruct (for_loop fuel _ _ _ _ _) as [sq|] eqn:Hsq; [|discriminate].
  by rewrite (markTile_loop_mono _ _ _ _ _ _ _ _ Hle Hsq).
Qed.

Lemma scanLine_mono tileSize m b fuel fuel' y st r :
  fuel ≤ fuel' →
  scanLine fuel tileSize m b y st = Some r →
  scanLine fuel' tileSize m b y st = Some r.
Proof. apply crossing_mono. Qed.

Lemma accumulateSquaresForEdge_mono tileSize edge fuel fuel' st r :
  fuel ≤ fuel' →
  accumulateSquaresForEdge fuel tileSize edge st = Some r →
  accumulateSquaresForEdge fuel' tileSize edge st = Some r.
Proof.
  intros Hle. unfold accumulateSquaresForEdge. apply for_loop_mono; [|assumption].
  intros i s r'. by apply scanLine_mono.
Qed.

Lemma fillPass_mono tileSize edges fuel fuel' r :
  fuel ≤ fuel' →
  fillPass fuel tileSize edges = Some r → fillPass fuel' tileSize edges = Some r.
Proof.
  intros Hle. unfold fillPass. apply forEach_mono.
  intros a s r'. by apply accumulateSquaresForEdge_mono.
Qed.

Lemma crossing_returns tileSize y x st :
  (ofZ 0 <? tileSize)%J = true → is_infinite x = false → pending_ok st →
  ∃ F st', pending_ok st' ∧
    ∀ fuel, F ≤ fuel → crossing fuel tileSize y x st = Some st'.
Proof.
  intros HT Hx Hst. unfold crossing.
  destruct (xValues st !! y) as [xv|] eqn:Hy.
  - assert (Hxv : is_infinite xv = false) by (by eapply Hst).
    destruct (advance_passes_lt tileSize (Math_min x xv) (Math_max x xv)) as [n Hn];
      [assumption| | |].
    { intros E. pose proof (Math_min_not_infinite x xv Hx Hxv) as H.
      by rewrite E in H. }
    { intros E. pose proof (Math_max_not_infinite x xv Hx Hxv) as H.
      by rewrite E in H. }
    destruct (for_loop_returns (λ _ : gmap num (list num), True)
                (λ tileX, tileX <? Math_max x xv)%J tileSize
                (λ _ tileX sq, Some (markTile tileSize y tileX sq)))
      with (n := n) (i := Math_min x xv) (s := squares st)
      as (F & sq & _ & HF); [tauto| |done|assumption|].
    { intros i s _ _. exists 0, (markTile tileSize y i s). done. }
    exists F, {| squares := sq; xValues := delete y (xValues st) |}. split.
    + intros y' xv'. cbn. rewrite lookup_delete. case_decide; [done|]. apply Hst.
    + intros fuel Hfuel. by rewrite HF.
  - exists 0, {| squares := squares st; xValues := <[y := floor x tileSize]> (xValues st) |}.
    split; [|done]. intros y' xv'. cbn. rewrite lookup_insert. case_decide.
    + intros [= <-]. apply floor_not_infinite.
    + apply Hst.
Qed.

Lemma scanLine_returns tileSize m b y st :
  (ofZ 0 <? tileSize)%J = true → pending_ok st →
  ∃ F st', pending_ok st' ∧
    ∀ fuel, F ≤ fuel → scanLine fuel tileSize m b y st = Some st'.
Proof. intros HT Hst. apply crossing_returns; auto using floor_not_infinite. Qed.

Lemma accumulateSquaresForEdge_returns tileSize edge st :
  (ofZ 0 <? tileSize)%J = true → pending_ok st →
  ∃ F st', pending_ok st' ∧
    ∀ fuel, F ≤ fuel → accumulateSquaresForEdge fuel tileSize edge st = Some st'.
Proof.
  intros HT Hst. unfold accumulateSquaresForEdge.
  set (m := if strict_eq _ _ then _ else _). set (b := (_ - m * _)%J).
  set (ya := Math_min _ _). set (yb := Math_max _ _).
  destruct (advance_passes_le tileSize (floor ya tileSize + tileSize)%J yb)
    as [n Hn]; [assumption| | |].
  { pose proof (floor_not_infinite ya tileSize) as Hfl.
    destruct (floor ya tileSize), tileSize; cbn in *; congruence. }
  { subst yb.
    apply Math_max_not_PInf; apply sub_not_PInf;
      first [apply parseInt_not_PInf | by apply half_not_NInf]. }
  apply (for_loop_returns pending_ok _ _ (λ fuel, scanLine fuel tileSize m b))
    with (n := n); [|intros i s Hs _; by apply scanLine_returns|assumption|assumption].
  intros f f' i s r Hle. by apply scanLine_mono.
Qed.

Lemma fillPass_returns tileSize edges :
  (ofZ 0 <? tileSize)%J = true →
  ∃ F st, pending_ok st ∧ ∀ fuel, F ≤ fuel → fillPass fuel tileSize edges = Some st.
Proof.
  intros HT. unfold fillPass.
  apply (forEach_returns pending_ok (λ fuel, accumulateSquaresForEdge fuel tileSize)).
  - intros n n' a s r Hle. by apply accumulateSquaresForEdge_mono.
  - intros a s _ Hs. by apply accumulateSquaresForEdge_returns.
  - intros y xv. cbn. by rewrite lookup_empty.
Qed.

(** ** [floor] on a whole modulus *)

Lemma Qc_trunc_cases (q : Qc) :
  Qc_trunc q = if bool_decide (0 ≤ q)%Qc then Qfloor q else Qceiling q.
Proof.
  unfold Qc_trunc, Qceiling, Qfloor. destruct q as [[n d] Hc]. cbn [this Qnum Qden Qopp].
  case_bool_decide as H; unfold Qcle, Qle in H; cbn in H;
    change (Qred 0) with (0 # 1) in H; cbn in H.
  - apply Z.quot_div_nonneg; lia.
  - rewrite <- (Z.opp_involutive n) at 1. rewrite Z.quot_opp_l by lia.
    f_equal. apply Z.quot_div_nonneg; lia.
Qed.

Lemma Qc_trunc_lower (q : Qc) : (q - 1 < Qc_of_Z (Qc_trunc q))%Qc.
Proof.
  rewrite Qc_trunc_cases. case_bool_decide.
  - pose proof (Qlt_floor q) as H1. rewrite inject_Z_plus in H1. qc_lra.
  - pose proof (Qle_ceiling q) as H1. qc_lra.
Qed.

Lemma Qc_trunc_upper (q : Qc) : (Qc_of_Z (Qc_trunc q) < q + 1)%Qc.
Proof.
  rewrite Qc_trunc_cases. case_bool_decide.
  - pose proof (Qfloor_le q) as H1. qc_lra.
  - pose proof (Qceiling_lt q) as H1.
    replace (Qceiling q - 1)%Z with (Qceiling q + -1)%Z in H1 by lia.
    rewrite inject_Z_plus in H1. qc_lra.
Qed.

Lemma Qc_of_Z_nonzero (t : Z) : t ≠ 0%Z → Qc_of_Z t ≠ 0%Qc.
Proof. intros Ht E. apply Ht, Z2Qc_inj. rewrite E. symmetry. apply Z2Qc_inj_0. Qed.

Lemma Qc_of_Z_pos (t : Z) : (0 < t)%Z → (0 < Qc_of_Z t)%Qc.
Proof. intros Ht. rewrite <- Z2Qc_inj_0. by apply (proj1 (Z2Qc_inj_lt _ _)). Qed.

Lemma Qfloor_Qc_of_Z (z : Z) : Qfloor (Qc_of_Z z) = z.
Proof. apply Qfloor_Z. Qed.

(** On a whole modulus [floor] rounds toward zero to a multiple of it. *)
Lemma floor_whole (p : Qc) (t : Z) :
  t ≠ 0%Z →
  floor (Fin p) (ofZ t) = ofZ (t * Qc_trunc (p / Qc_of_Z t)%Qc).
Proof.
  intros Ht. unfold floor, ofZ, rem, sub, neg, add, Math_floor.
  rewrite bool_decide_eq_false_2 by by apply Qc_of_Z_nonzero.
  unfold ofZ. do 2 f_equal.
  rewrite <- (Qfloor_Qc_of_Z (t * _)). apply Qfloor_comp.
  apply (proj1 (Qc_this_eq _ _)). rewrite Z2Qc_inj_mul. ring.
Qed.

Lemma floor_whole_cases (n : num) (t : Z) :
  t ≠ 0%Z → floor n (ofZ t) = NaN ∨ ∃ k, floor n (ofZ t) = ofZ (t * k).
Proof.
  intros Ht. destruct n as [| | |p]; [by left..|].
  right. eexists. by apply floor_whole.
Qed.

Lemma Math_min_idem (v : num) : Math_min v v = v.
Proof. destruct v; cbn; try reflexivity. by case_bool_decide. Qed.

Lemma Math_max_idem (v : num) : Math_max v v = v.
Proof. destruct v; cbn; try reflexivity. by case_bool_decide. Qed.

(** The first scan-line of an edge lies strictly above its lower end. *)
Lemma first_scanLine_above (v : num) (t : Z) :
  (0 < t)%Z → (floor v (ofZ t) + ofZ t <=? v)%J = false.
Proof.
  intros Ht. destruct v as [| | |a]; [reflexivity..|].
  rewrite floor_whole by lia. cbn. apply bool_decide_eq_false.
  apply Qclt_not_le. rewrite Z2Qc_inj_mul.
  pose proof (Qc_trunc_lower (a / Qc_of_Z t)%Qc) as Hk.
  pose proof (Qc_of_Z_pos t Ht) as Hp.
  assert (Hm : ((a / Qc_of_Z t - 1) * Qc_of_Z t
                < Qc_of_Z (Qc_trunc (a / Qc_of_Z t)%Qc) * Qc_of_Z t)%Qc)
    by (by apply Qcmult_lt_compat_r).
  assert (Hd : ((a / Qc_of_Z t - 1) * Qc_of_Z t = a - Qc_of_Z t)%Qc).
  { field. by apply Qc_of_Z_nonzero, Z.neq_sym, Z.lt_neq. }
  rewrite Hd in Hm. clear Hd Hk.
  generalize dependent (Qc_of_Z (Qc_trunc (a / Qc_of_Z t)%Qc)).
  generalize dependent (Qc_of_Z t). intros u _ k Hm. qc_to_q. lra.
Qed.

(** ** C4 *)




(** ** C1 *)

(** C1: on the square (100,100), (200,100), (200,200), (100,200) with tiles
    of size 20 the fill pass returns no tile at all, for any supply of fuel
    of six or more.  The two vertical edges get [m = 0], their intersections
    [(y - b) / m] are infinite, [floor] turns them into [NaN], and a span
    between [NaN] and [NaN] is empty. *)
Theorem square_fills_no_tile (Math_cos Math_sin : num → num) (fuel : nat) :
  computeFilledSquares (6 + fuel) (ofZ 20)
    (Polygon Math_cos Math_sin squareOptions) = Some ∅.
Proof.
  unfold computeFilledSquares.
  rewrite (fillPass_mono _ _ 6 (6 + fuel) emptyState); [reflexivity|lia|].
  vm_compute. reflexivity.
Qed.

(** ** The edges of a polygon *)

Lemma Polygon_edges_join_vertices Math_cos Math_sin options edge :
  edge ∈ edges (Polygon Math_cos Math_sin options) →
  ∃ left right,
    left ∈ vertices (Polygon Math_cos Math_sin options) ∧
    right ∈ vertices (Polygon Math_cos Math_sin options) ∧
    edge = Edge left right.
Proof.
  cbn [edges vertices Polygon]. unfold initializeEdges.
  intros (i & _ & Hi)%list_elem_of_omap.
  destruct (initializeVertices _ _ _ !! i) as [l|] eqn:Hl; [|discriminate].
  cbn in Hi.
  destruct (initializeVertices _ _ _ !! (_ `mod` _)) as [r|] eqn:Hr; [|discriminate].
  cbn in Hi. simplify_eq. exists l, r.
  eauto using list_elem_of_lookup_2.
Qed.

Lemma Edge_position_Edge (left right : VertexEl) :
  Edge_position (Edge left right) =
    {| x1 := x (Vertex_position left); y1 := y (Vertex_position left);
       x2 := x (Vertex_position right); y2 := y (Vertex_position right) |}.
Proof. reflexivity. Qed.

(** ** C6 *)

Lemma Qfloor_unique (v : Q) (k : Z) :
  (inject_Z k <= v)%Q → (v < inject_Z (k + 1))%Q → Qfloor v = k.
Proof.
  intros Hlo Hhi.
  pose proof (Qfloor_le v) as H1. pose proof (Qlt_floor v) as H2.
  assert (Qfloor v < k + 1)%Z.
  { rewrite Zlt_Qlt. eapply Qle_lt_trans; eassumption. }
  assert (k < Qfloor v + 1)%Z.
  { rewrite Zlt_Qlt. eapply Qle_lt_trans; eassumption. }
  lia.
Qed.

Lemma Qc_trunc_unique (q : Qc) (k : Z) :
  (0 ≤ k)%Z → (Qc_of_Z k ≤ q)%Qc → (q < Qc_of_Z (k + 1))%Qc → Qc_trunc q = k.
Proof.
  intros Hk Hlo Hhi. rewrite Qc_trunc_cases.
  rewrite bool_decide_eq_true_2.
  - by apply Qfloor_unique.
  - etrans; [|exact Hlo]. rewrite <- Z2Qc_inj_0. by apply (proj1 (Z2Qc_inj_le _ _)).
Qed.

Lemma Qc_trunc_small (q : Qc) : (- 1 < q)%Qc → (q < 1)%Qc → Qc_trunc q = 0%Z.
Proof.
  intros Hlo Hhi. rewrite Qc_trunc_cases. case_bool_decide as Hs.
  - apply Qfloor_unique; [change (0 <= q)%Q|change (q < 1)%Q]; qc_lra.
  - unfold Qceiling.
    rewrite (Qfloor_unique (- q) 0);
      [reflexivity|change (0 <= - q)%Q|change (- q < 1)%Q]; qc_lra.
Qed.

(** An edge whose two ends lie in one band between consecutive scan-lines
    is not scanned. *)
Lemma band_not_scanned (t k : Z) (qa qb : Qc) :
  (0 < t)%Z → (qa ≤ qb)%Qc →
  ((0 ≤ k)%Z ∧ (Qc_of_Z (k * t) ≤ qa)%Qc ∧ (qb < Qc_of_Z ((k + 1) * t))%Qc) ∨
  ((- Qc_of_Z t < qa)%Qc ∧ (qb < Qc_of_Z t)%Qc) →
  (floor (Fin qa) (ofZ t) + ofZ t <=? Fin qb)%J = false.
Proof.
  intros Ht Hab Hband. rewrite floor_whole by lia.
  pose proof (Qc_of_Z_pos t Ht) as Hp.
  assert (Hnz : Qc_of_Z t ≠ 0%Qc) by (apply Qc_of_Z_nonzero; lia).
  cbn. apply bool_decide_eq_false, Qclt_not_le.
  destruct Hband as [(Hk & Hlo & Hhi)|[Hlo Hhi]].
  - rewrite (Qc_trunc_unique _ k); [| assumption | |].
    + rewrite <- Z2Qc_inj_add. replace (t * k + t)%Z with ((k + 1) * t)%Z by lia.
      assumption.
    + apply (Qcmult_lt_0_le_reg_r _ _ (Qc_of_Z t)); [assumption|].
      rewrite <- Z2Qc_inj_mul.
      replace (qa / Qc_of_Z t * Qc_of_Z t)%Qc with qa by (field; assumption).
      assumption.
    + apply Qcnot_le_lt. intros Hc.
      apply (Qcmult_le_compat_r _ _ (Qc_of_Z t)) in Hc; [|by apply Qclt_le_weak].
      rewrite <- Z2Qc_inj_mul in Hc.
      replace (qa / Qc_of_Z t * Qc_of_Z t)%Qc with qa in Hc by (field; assumption).
      eapply Qcle_not_lt; [exact Hc|]. eapply Qcle_lt_trans; eassumption.
  - rewrite (Qc_trunc_small (qa / Qc_of_Z t)%Qc).
    + rewrite Z.mul_0_r, Z2Qc_inj_0. by rewrite Qcplus_0_l.
    + apply Qcnot_le_lt. intros Hc.
      apply (Qcmult_le_compat_r _ _ (Qc_of_Z t)) in Hc; [|by apply Qclt_le_weak].
      replace (qa / Qc_of_Z t * Qc_of_Z t)%Qc with qa in Hc by (field; assumption).
      eapply Qcle_not_lt; [exact Hc|]. clear -Hlo. qc_lra.
    + apply Qcnot_le_lt. intros Hc.
      apply (Qcmult_le_compat_r _ _ (Qc_of_Z t)) in Hc; [|by apply Qclt_le_weak].
      replace (qa / Qc_of_Z t * Qc_of_Z t)%Qc with qa in Hc by (field; assumption).
      rewrite Qcmult_1_l in Hc.
      eapply Qcle_not_lt; [exact Hc|]. eapply Qcle_lt_trans; eassumption.
Qed.

Lemma band_not_scanned_pair (t k : Z) (q1 q2 : Qc) :
  (0 < t)%Z →
  ((0 ≤ k)%Z ∧ (Qc_of_Z (k * t) ≤ q1 < Qc_of_Z ((k + 1) * t))%Qc
             ∧ (Qc_of_Z (k * t) ≤ q2 < Qc_of_Z ((k + 1) * t))%Qc) ∨
  ((- Qc_of_Z t < q1 < Qc_of_Z t)%Qc ∧ (- Qc_of_Z t < q2 < Qc_of_Z t)%Qc) →
  (floor (Math_min (Fin q1) (Fin q2)) (ofZ t) + ofZ t
     <=? Math_max (Fin q1) (Fin q2))%J = false.
Proof.
  intros Ht Hband. cbn [Math_min Math_max ltb].
  repeat case_bool_decide.
  - exfalso. eapply Qclt_not_le; [eassumption|]. by apply Qclt_le_weak.
  - apply (band_not_scanned t k); [assumption|by apply Qclt_le_weak|]. tauto.
  - apply (band_not_scanned t k); [assumption|by apply Qclt_le_weak|]. tauto.
  - assert (q1 = q2) as -> by (apply Qcle_antisym; by apply Qcnot_lt_le).
    apply (band_not_scanned t k); [assumption|apply Qcle_refl|]. tauto.
Qed.

Lemma forEach_unchanged {A S : Type} (f : A → S → option S) (l : list A) (s : S) :
  (∀ a, a ∈ l → f a s = Some s) → forEach f l s = Some s.
Proof.
  induction l as [|a l IH]; intros Hf; [reflexivity|]. cbn.
  rewrite Hf by left. cbn. apply IH. intros a' Ha'. apply Hf. by right.
Qed.

Lemma half_tile (t : Z) : (ofZ t / ofZ 2)%J = Fin (Qc_of_Z t / Qc_of_Z 2)%Qc.
Proof. cbn. rewrite bool_decide_eq_false_2; [reflexivity|]. by apply Qc_of_Z_nonzero. Qed.

Lemma pt_inj (a b c d : Z) : pt a b = pt c d → a = c ∧ b = d.
Proof. unfold pt, ofZ. intros [= Hx Hy]. done. Qed.

(** The offset ordinate [py - t/2] of a vertex beside the centre line of
    its tile lies in one band between consecutive scan-lines. *)
Lemma offset_in_band (t row py : Z) (above : bool) :
  (0 < t)%Z → (0 ≤ row)%Z → (row * t ≤ py < (row + 1) * t)%Z →
  (if above then (2 * py < 2 * row * t + t)%Z else (2 * row * t + t ≤ 2 * py)%Z) →
  let q := (Qc_of_Z py - Qc_of_Z t / Qc_of_Z 2)%Qc in
  let k := if above then (row - 1)%Z else row in
  (Qc_of_Z (k * t) ≤ q < Qc_of_Z ((k + 1) * t))%Qc ∧
  (row = 0%Z → above = true → (- Qc_of_Z t < q < Qc_of_Z t)%Qc).
Proof.
  intros Ht Hrow Hpy Hside q k.
  assert (Hinj : ∀ a b : Z, (a ≤ b)%Z → (Qc_of_Z a ≤ Qc_of_Z b)%Qc)
    by (intros a b; apply Z2Qc_inj_le).
  assert (Hinjlt : ∀ a b : Z, (a < b)%Z → (Qc_of_Z a < Qc_of_Z b)%Qc)
    by (intros a b; apply Z2Qc_inj_lt).
  pose proof (Qc_of_Z_pos t Ht) as Hp.
  assert (Hq : (q + q = Qc_of_Z (py + py) - Qc_of_Z t)%Qc).
  { subst q. rewrite Z2Qc_inj_add, Z2Qc_inj_2. field.
    intros E. apply (f_equal this) in E. discriminate E. }
  clearbody q.
  assert (Hk : ((k * t + k * t + t ≤ py + py)%Z ∧ (py + py < (k + 1) * t + (k + 1) * t + t)%Z) ∧
               (row = 0%Z → above = true → (0 < py + py + t)%Z ∧ (py + py < t + t + t)%Z)).
  { subst k. destruct above; (split; [lia|intros -> ?; try discriminate; lia]). }
  destruct Hk as [[Hk1 Hk2] Hk3].
  apply Hinj in Hk1. apply Hinjlt in Hk2.
  rewrite !Z2Qc_inj_add in Hk1. rewrite !Z2Qc_inj_add in Hk2.
  rewrite Z2Qc_inj_add in Hq.
  split.
  - clear Hk3. generalize dependent (Qc_of_Z (k * t)).
    generalize dependent (Qc_of_Z ((k + 1) * t)). generalize dependent (Qc_of_Z py).
    generalize dependent (Qc_of_Z t). clear. intros. split; qc_lra.
  - intros H0 Habove. destruct (Hk3 H0 Habove) as [Hl%Hinjlt Hh%Hinjlt].
    rewrite !Z2Qc_inj_add in Hl. rewrite !Z2Qc_inj_add in Hh.
    rewrite Z2Qc_inj_0 in Hl.
    clear Hk1 Hk2. generalize dependent (Qc_of_Z py).
    generalize dependent (Qc_of_Z t). clear. intros. split; qc_lra.
Qed.



Ltac in_tile :=
  unfold withinTile, besideCentre; eexists _, _; (split; [reflexivity|lia]).



(** ** The loops as folds over their iterations *)

Lemma forEach_app {A S : Type} (f : A → S → option S) (l1 l2 : list A) (s : S) :
  forEach f (l1 ++ l2) s = forEach f l1 s ≫= forEach f l2.
Proof.
  revert s. induction l1 as [|a l1 IH]; intros s; [reflexivity|]. cbn.
  destruct (f a s) as [s'|]; [apply IH|reflexivity].
Qed.

Lemma forEach_fmap {A B S : Type} (g : A → B) (f : B → S → option S) l (s : S) :
  forEach f (g <$> l) s = forEach (λ a, f (g a)) l s.
Proof.
  revert s. induction l as [|a l IH]; intros s; [reflexivity|]. cbn.
  destruct (f (g a) s) as [s'|]; [apply IH|reflexivity].
Qed.

Lemma forEach_bind {A B S : Type} (g : A → list B) (f : B → S → option S) l (s : S) :
  forEach f (l ≫= g) s = forEach (λ a, forEach f (g a)) l s.
Proof.
  revert s. induction l as [|a l IH]; intros s; [reflexivity|]. cbn.
  rewrite forEach_app. destruct (forEach f (g a) s) as [s'|]; [apply IH|reflexivity].
Qed.

Lemma forEach_ext {A S : Type} (f g : A → S → option S) l (s : S) :
  (∀ a s, a ∈ l → f a s = g a s) → forEach f l s = forEach g l s.
Proof.
  revert s. induction l as [|a l IH]; intros s Hfg; [reflexivity|]. cbn.
  rewrite Hfg by left. destruct (g a s) as [s'|]; [|reflexivity].
  apply IH. intros a' s'' Ha'. apply Hfg. by right.
Qed.

(** A loop that returns has run its body on its iterations, in order. *)
Lemma for_loop_iterations {S : Type} test step (body : num → S → option S) fuel i s r :
  for_loop fuel test step body i s = Some r →
  forEach body (iterations fuel test step i) s = Some r.
Proof.
  revert i s. induction fuel as [|fuel IH]; intros i s; [discriminate|]. cbn.
  destruct (test i); [|done]. cbn.
  destruct (body i s) as [s'|]; [apply IH|discriminate].
Qed.

(** The loop is the fold over its iterations once the fuel exceeds a number
    of increments after which the test fails. *)
Lemma for_loop_complete {S : Type} test step (body : num → S → option S) n :
  ∀ fuel i s, n < fuel → test (advance n step i) = false →
    for_loop fuel test step body i s = forEach body (iterations n test step i) s.
Proof.
  induction n as [|n IH]; intros fuel i s Hfuel Hn; cbn in Hn.
  - destruct fuel; [lia|]. cbn. by rewrite Hn.
  - destruct fuel as [|fuel]; [lia|]. cbn. destruct (test i); [|reflexivity].
    cbn. destruct (body i s) as [s'|]; [|reflexivity]. cbn. apply IH; [lia|assumption].
Qed.

Lemma iterations_complete test step n :
  ∀ fuel i, n ≤ fuel → test (advance n step i) = false →
    iterations fuel test step i = iterations n test step i.
Proof.
  induction n as [|n IH]; intros fuel i Hfuel Hn; cbn in Hn.
  - destruct fuel; [reflexivity|]. cbn. by rewrite Hn.
  - destruct fuel as [|fuel]; [lia|]. cbn. destruct (test i); [|reflexivity].
    f_equal. apply IH; [lia|assumption].
Qed.

Lemma iterations_elem test step k :
  ∀ n i, k < n → (∀ j, j ≤ k → test (advance j step i) = true) →
    advance k step i ∈ iterations n test step i.
Proof.
  induction k as [|k IH]; intros n i Hn Hk; (destruct n as [|n]; [lia|]); cbn;
    pose proof (Hk 0 ltac:(lia)) as H0; cbn in H0; rewrite H0.
  - left.
  - right. apply IH; [lia|].
    intros j Hj. apply (Hk (S j)). lia.
Qed.

(** ** The tiles a crossing marks *)

Lemma markTile_lookup tileSize y tileX sq col :
  markTile tileSize y tileX sq !! col =
    if decide (col = (tileX / tileSize)%J)
    then Some (default [] (sq !! col) ++ [(y / tileSize)%J])
    else sq !! col.
Proof.
  unfold markTile. rewrite lookup_alter.
  destruct (sq !! (tileX / tileSize)%J) as [rows|] eqn:Hk.
  - repeat case_decide; subst; try congruence. by rewrite Hk.
  - repeat case_decide; subst; try congruence.
    + by rewrite lookup_insert_eq, Hk.
    + by rewrite lookup_insert_ne.
Qed.

Lemma markTile_active tileSize y tileX sq col row :
  active (markTile tileSize y tileX sq) col row ↔
  active sq col row ∨ (col = (tileX / tileSize)%J ∧ row = (y / tileSize)%J).
Proof.
  unfold active. rewrite markTile_lookup. case_decide as Hc.
  - split.
    + intros (rows & [= <-] & [Hin| ->%list_elem_of_singleton]%elem_of_app); [|by right].
      left. destruct (sq !! col) as [rows|]; [eauto|]. by apply elem_of_nil in Hin.
    + intros [(rows & Hl & Hin)|[_ ->]]; eexists; (split; [reflexivity|]).
      * rewrite Hl. cbn. apply elem_of_app. by left.
      * apply elem_of_app. right. by apply list_elem_of_singleton.
  - split; [by left|]. intros [H|[? _]]; [assumption|contradiction].
Qed.

Lemma forEach_markTile_active tileSize y tiles sq sq' col row :
  forEach (λ tileX sq, Some (markTile tileSize y tileX sq)) tiles sq = Some sq' →
  active sq' col row ↔
  active sq col row ∨ (row = (y / tileSize)%J ∧
                       ∃ tileX, tileX ∈ tiles ∧ col = (tileX / tileSize)%J).
Proof.
  revert sq. induction tiles as [|tileX tiles IH]; intros sq; cbn.
  - intros [= <-]. split; [by left|]. intros [H|(_ & tx & Hin & _)]; [assumption|].
    by apply elem_of_nil in Hin.
  - intros H%IH. rewrite H, markTile_active. split.
    + intros [[Ha|[-> ->]]|(-> & tx & Hin & ->)]; [by left|right..].
      * split; [reflexivity|]. exists tileX. split; [left|reflexivity].
      * split; [reflexivity|]. exists tx. split; [by right|reflexivity].
    + intros [Ha|(-> & tx & [->|Hin]%elem_of_cons & ->)]; [by left; left|by left; right|].
      right. split; [reflexivity|]. by exists tx.
Qed.

(** The second crossing of a scan-line marks the span between the two
    intersections and clears the entry. *)
Lemma crossing_paired fuel tileSize y x st st' xv :
  xValues st !! y = Some xv →
  crossing fuel tileSize y x st = Some st' →
  xValues st' = delete y (xValues st) ∧
  ∀ col row, active (squares st') col row ↔
    active (squares st) col row ∨
    spanTile fuel tileSize y (Math_min x xv) (Math_max x xv) col row.
Proof.
  intros Hy. unfold crossing. rewrite Hy.
  destruct (for_loop fuel _ _ _ _ _) as [sq|] eqn:Hsq; [|discriminate].
  intros [= <-]. split; [reflexivity|]. intros col row. cbn [squares].
  apply for_loop_iterations in Hsq.
  apply (forEach_markTile_active _ _ _ _ _ col row) in Hsq. exact Hsq.
Qed.

(** The first crossing of a scan-line records its intersection. *)
Lemma crossing_recorded fuel tileSize y x st :
  xValues st !! y = None →
  crossing fuel tileSize y x st =
    Some {| squares := squares st;
            xValues := <[y := floor x tileSize]> (xValues st) |}.
Proof. intros Hy. unfold crossing. by rewrite Hy. Qed.

Lemma processCrossings_pending fuel tileSize crossings st st' :
  processCrossings fuel tileSize crossings st = Some st' →
  xValues st' = pendingAfter tileSize crossings (xValues st).
Proof.
  revert st. induction crossings as [|[y x] rest IH]; intros st; cbn.
  - by intros [= <-].
  - destruct (crossing fuel tileSize y x st) as [st1|] eqn:Hc; [|discriminate].
    cbn. intros Hrest%IH. rewrite Hrest.
    destruct (xValues st !! y) as [xv|] eqn:Hy.
    + by destruct (crossing_paired _ _ _ _ _ _ _ Hy Hc) as [-> _].
    + rewrite crossing_recorded in Hc by assumption. by injection Hc as <-.
Qed.

Lemma processCrossings_active fuel tileSize crossings st st' col row :
  processCrossings fuel tileSize crossings st = Some st' →
  active (squares st') col row ↔
  active (squares st) col row ∨
  pairedTile fuel tileSize crossings (xValues st) col row.
Proof.
  revert st. induction crossings as [|[y x] rest IH]; intros st; cbn.
  - intros [= <-]. tauto.
  - destruct (crossing fuel tileSize y x st) as [st1|] eqn:Hc; [|discriminate].
    cbn. intros Hrest%IH. rewrite Hrest.
    destruct (xValues st !! y) as [xv|] eqn:Hy.
    + destruct (crossing_paired _ _ _ _ _ _ _ Hy Hc) as [-> Hact].
      rewrite Hact. tauto.
    + rewrite crossing_recorded in Hc by assumption. injection Hc as <-. cbn. tauto.
Qed.

(** ** The fill pass as a fold over its crossings *)

Lemma advance_NaN n step : advance n step NaN = NaN.
Proof. induction n; [reflexivity|assumption]. Qed.

Lemma advance_PInf n step :
  (ofZ 0 <? step)%J = true → advance n step PInf = PInf.
Proof.
  intros Hs. induction n as [|n IH]; [reflexivity|]. cbn [advance].
  destruct (positive_cases step Hs) as [->|(t & -> & Ht)]; exact IH.
Qed.

Lemma tripBound_passes (step i bound : num) :
  (ofZ 0 <? step)%J = true → i ≠ NInf → bound ≠ PInf →
  (advance (tripBound i bound step) step i <=? bound)%J = false.
Proof.
  intros Hs Hi Hb. destruct i as [| | |a]; [by rewrite advance_NaN| |done|].
  - rewrite advance_PInf by assumption. by destruct bound.
  - destruct bound as [| | |b]; [by destruct (advance _ _ _)|done| |].
    + destruct (positive_cases step Hs) as [->|(t & -> & Ht)]; [reflexivity|].
      by rewrite advance_Fin.
    + destruct (positive_cases step Hs) as [->|(t & -> & Ht)]; [reflexivity|].
      assert (Ht0 : t ≠ 0%Qc) by (intros ->; by apply Qclt_not_eq in Ht).
      unfold tripBound. cbn [sub neg add div].
      rewrite bool_decide_eq_false_2 by assumption.
      rewrite advance_Fin. cbn [leb]. apply bool_decide_eq_false, Qclt_not_le.
      set (q := ((b + - a) / t)%Qc).
      assert (Hq : (q < Qc_of_Z (Z.of_nat (Z.to_nat (Qfloor q + 1))))%Qc).
      { apply (Qclt_le_trans _ (Qc_of_Z (Qfloor q + 1))); [apply (Qlt_floor q)|].
        apply (proj1 (Z2Qc_inj_le _ _)). lia. }
      apply (Qcmult_lt_compat_r _ _ t) in Hq; [|assumption].
      replace (q * t)%Qc with (b - a)%Qc in Hq by (subst q; field; assumption).
      generalize dependent (Qc_of_Z (Z.of_nat (Z.to_nat (Qfloor q + 1))) * t)%Qc.
      clear. intros u Hu. qc_lra.
Qed.

Lemma lowerEnd_scan_start tileSize edge :
  (ofZ 0 <? tileSize)%J = true →
  (floor (lowerEnd tileSize edge) tileSize + tileSize)%J ≠ NInf.
Proof.
  intros HT. pose proof (floor_not_infinite (lowerEnd tileSize edge) tileSize) as Hfl.
  destruct (floor _ tileSize), tileSize; cbn in *; congruence.
Qed.

Lemma upperEnd_not_PInf tileSize edge :
  (ofZ 0 <? tileSize)%J = true → upperEnd tileSize edge ≠ PInf.
Proof.
  intros HT. unfold upperEnd.
  apply Math_max_not_PInf; apply sub_not_PInf;
    first [apply parseInt_not_PInf | by apply half_not_NInf].
Qed.

Lemma accumulateSquaresForEdge_crossings fuel tileSize edge st :
  (ofZ 0 <? tileSize)%J = true →
  scanFuel tileSize [edge] ≤ fuel →
  accumulateSquaresForEdge fuel tileSize edge st =
    processCrossings fuel tileSize (crossingsOf tileSize edge) st.
Proof.
  intros HT Hfuel. unfold scanFuel in Hfuel. cbn [foldr] in Hfuel.
  change (accumulateSquaresForEdge fuel tileSize edge st) with
    (for_loop fuel (λ y, y <=? upperEnd tileSize edge)%J tileSize
       (scanLine fuel tileSize (slopeOf tileSize edge) (interceptOf tileSize edge))
       (floor (lowerEnd tileSize edge) tileSize + tileSize)%J st).
  rewrite (for_loop_complete _ _ _ (tripBound (floor (lowerEnd tileSize edge) tileSize + tileSize)%J
             (upperEnd tileSize edge) tileSize)); [|lia|].
  - unfold processCrossings, crossingsOf. by rewrite forEach_fmap.
  - apply tripBound_passes;
      auto using lowerEnd_scan_start, upperEnd_not_PInf.
Qed.

Lemma scanFuel_elem tileSize edges edge :
  edge ∈ edges → scanFuel tileSize [edge] ≤ scanFuel tileSize edges.
Proof.
  induction edges as [|e edges IH]; [by intros ?%elem_of_nil|].
  intros [->|Hin%IH]%elem_of_cons; unfold scanFuel in *; cbn [foldr] in *; lia.
Qed.

Lemma fillPass_crossings fuel tileSize edges :
  (ofZ 0 <? tileSize)%J = true →
  scanFuel tileSize edges ≤ fuel →
  fillPass fuel tileSize edges =
    processCrossings fuel tileSize (allCrossings tileSize edges) emptyState.
Proof.
  intros HT Hfuel. unfold fillPass, processCrossings, allCrossings.
  rewrite forEach_bind. apply forEach_ext. intros edge st Hin.
  apply accumulateSquaresForEdge_crossings; [assumption|].
  etrans; [by apply scanFuel_elem|assumption].
Qed.

(** ** Pending intersections *)

Lemma intersectionsAt_cons y y' x rest :
  intersectionsAt y ((y', x) :: rest) =
    if decide (y' = y) then x :: intersectionsAt y rest else intersectionsAt y rest.
Proof.
  unfold intersectionsAt. rewrite filter_cons. cbn. by case_decide.
Qed.

Lemma intersectionsAt_app y l1 l2 :
  intersectionsAt y (l1 ++ l2) = intersectionsAt y l1 ++ intersectionsAt y l2.
Proof. unfold intersectionsAt. by rewrite filter_app, fmap_app. Qed.

Lemma intersectionsAt_absent y l : y ∉ l.*1 → intersectionsAt y l = [].
Proof.
  induction l as [|[y' x] l IH]; [reflexivity|].
  rewrite fmap_cons. intros [Hne Hl]%not_elem_of_cons. rewrite intersectionsAt_cons.
  rewrite decide_False by (cbn in Hne; congruence). by apply IH.
Qed.

(** Each crossing of a scan-line toggles its pending entry. *)
Lemma pendingAfter_parity tileSize y crossings pending :
  pendingAt y (pendingAfter tileSize crossings pending) =
    xorb (pendingAt y pending) (Nat.odd (length (intersectionsAt y crossings))).
Proof.
  revert pending. induction crossings as [|[y' x] rest IH]; intros pending.
  - cbn. by destruct (pendingAt y pending).
  - cbn [pendingAfter]. rewrite intersectionsAt_cons.
    destruct (decide (y' = y)) as [->|Hne].
    + cbn [length]. rewrite Nat.odd_succ, <- Nat.negb_odd.
      unfold pendingAt at 2. destruct (pending !! y) eqn:Hy; rewrite IH.
      * unfold pendingAt at 1. rewrite lookup_delete_eq.
        by destruct (Nat.odd _).
      * unfold pendingAt at 1. rewrite lookup_insert_eq.
        by destruct (Nat.odd _).
    + destruct (pending !! y') eqn:Hy; rewrite IH; f_equal; unfold pendingAt.
      * by rewrite lookup_delete_ne.
      * by rewrite lookup_insert_ne.
Qed.

Lemma pendingAfter_other tileSize y crossings pending :
  y ∉ crossings.*1 →
  pendingAfter tileSize crossings pending !! y = pending !! y.
Proof.
  revert pending. induction crossings as [|[y' x] rest IH]; intros pending; [done|].
  rewrite fmap_cons. intros [Hne Hrest]%not_elem_of_cons. cbn in Hne.
  cbn [pendingAfter]. destruct (pending !! y'); rewrite IH by assumption.
  - by rewrite lookup_delete_ne.
  - by rewrite lookup_insert_ne.
Qed.

Lemma crossing_skip fuel tileSize y v y' x sq pending :
  y ≠ y' →
  crossing fuel tileSize y' x {| squares := sq; xValues := <[y := v]> pending |} =
  (λ st, {| squares := squares st; xValues := <[y := v]> (xValues st) |})
    <$> crossing fuel tileSize y' x {| squares := sq; xValues := pending |}.
Proof.
  intros Hne. unfold crossing. cbn [xValues squares].
  rewrite lookup_insert_ne by assumption.
  destruct (pending !! y') as [xv|].
  - destruct (for_loop fuel _ _ _ _ _) as [sq'|]; [|reflexivity]. cbn.
    by rewrite delete_insert_ne.
  - cbn. by rewrite insert_insert_ne.
Qed.

(** A pending entry that no later crossing meets changes no tile. *)
Lemma processCrossings_skip fuel tileSize y v crossings sq pending :
  y ∉ crossings.*1 →
  processCrossings fuel tileSize crossings
    {| squares := sq; xValues := <[y := v]> pending |} =
  (λ st, {| squares := squares st; xValues := <[y := v]> (xValues st) |})
    <$> processCrossings fuel tileSize crossings
          {| squares := sq; xValues := pending |}.
Proof.
  revert sq pending. induction crossings as [|[y' x] rest IH]; intros sq pending.
  - reflexivity.
  - rewrite fmap_cons. intros [Hne Hrest]%not_elem_of_cons. cbn in Hne.
    unfold processCrossings in *. cbn [forEach fst snd].
    rewrite crossing_skip by assumption.
    destruct (crossing fuel tileSize y' x _) as [[sq' pending']|]; [|reflexivity].
    cbn. by apply IH.
Qed.

Lemma last_crossing_of y (crossings : list (num * num)) :
  y ∈ crossings.*1 →
  ∃ before x after, crossings = before ++ (y, x) :: after ∧ y ∉ after.*1.
Proof.
  induction crossings as [|[y' x'] rest IH]; [by intros ?%elem_of_nil|].
  destruct (decide (y ∈ rest.*1)) as [Hin|Hout].
  - intros _. destruct (IH Hin) as (before & x & after & -> & Hafter).
    by exists ((y', x') :: before), x, after.
  - rewrite fmap_cons. intros [->|?]%elem_of_cons; [|contradiction].
    by exists [], x', rest.
Qed.

(** ** C10 *)



(** ** C5 *)

Lemma balanced_nil_pending pending :
  balanced [] pending → ∀ y, pending !! y = None.
Proof.
  intros Hb y. specialize (Hb y). destruct (pending !! y); [discriminate|reflexivity].
Qed.

(** When every scan-line is crossed exactly twice, the tiles marked are
    those between the two intersections of each scan-line. *)
Lemma pairedTile_pairs fuel tileSize crossings :
  ∀ pending col row, balanced crossings pending →
    pairedTile fuel tileSize crossings pending col row ↔
    pairTile fuel tileSize crossings pending col row.
Proof.
  induction crossings as [|[y0 x0] rest IH]; intros pending col row Hbal.
  - cbn. split; [contradiction|]. intros [y Hy].
    destruct (pending !! y); [by destruct Hy as (? & [=] & _)|].
    by destruct Hy as (? & ? & [=] & _).
  - assert (Hother : ∀ y, y ≠ y0 →
              intersectionsAt y ((y0, x0) :: rest) = intersectionsAt y rest).
    { intros y Hy. rewrite intersectionsAt_cons. by rewrite decide_False. }
    assert (Hhere : intersectionsAt y0 ((y0, x0) :: rest) = x0 :: intersectionsAt y0 rest).
    { rewrite intersectionsAt_cons. by rewrite decide_True. }
    pose proof (Hbal y0) as Hy0. rewrite Hhere in Hy0. cbn [pairedTile].
    destruct (pending !! y0) as [xv|] eqn:Hp.
    + assert (Hrest : intersectionsAt y0 rest = []).
      { cbn in Hy0. destruct (intersectionsAt y0 rest); [reflexivity|discriminate]. }
      rewrite IH.
      2:{ intros y. destruct (decide (y = y0)) as [->|Hne].
          - rewrite lookup_delete_eq, Hrest. by left.
          - rewrite lookup_delete_ne by congruence. specialize (Hbal y).
            by rewrite Hother in Hbal. }
      split.
      * intros [Hspan|[y Hy]].
        -- exists y0. rewrite Hp, Hhere, Hrest. eauto.
        -- destruct (decide (y = y0)) as [->|Hne].
           ++ rewrite lookup_delete_eq, Hrest in Hy. by destruct Hy as (? & ? & [=] & _).
           ++ exists y. rewrite lookup_delete_ne in Hy by congruence.
              by rewrite Hother.
      * intros [y Hy]. destruct (decide (y = y0)) as [->|Hne].
        -- rewrite Hp, Hhere, Hrest in Hy. destruct Hy as (x & [= <-] & Hspan).
           by left.
        -- right. exists y. rewrite lookup_delete_ne by congruence.
           by rewrite Hother in Hy.
    + assert (Hrest : ∃ x, intersectionsAt y0 rest = [x]).
      { cbn in Hy0. destruct Hy0 as [|Hy0]; [discriminate|].
        destruct (intersectionsAt y0 rest) as [|x [|]]; try discriminate. eauto. }
      destruct Hrest as [x Hrest].
      rewrite IH.
      2:{ intros y. destruct (decide (y = y0)) as [->|Hne].
          - by rewrite lookup_insert_eq, Hrest.
          - rewrite lookup_insert_ne by congruence. specialize (Hbal y).
            by rewrite Hother in Hbal. }
      split.
      * intros [y Hy]. exists y. destruct (decide (y = y0)) as [->|Hne].
        -- rewrite lookup_insert_eq, Hrest in Hy. destruct Hy as (x' & [= <-] & Hspan).
           rewrite Hp, Hhere, Hrest. eauto.
        -- rewrite lookup_insert_ne in Hy by congruence. by rewrite Hother.
      * intros [y Hy]. exists y. destruct (decide (y = y0)) as [->|Hne].
        -- rewrite Hp, Hhere, Hrest in Hy. destruct Hy as (x1 & x2 & [= <- <-] & Hspan).
           rewrite lookup_insert_eq, Hrest. eauto.
        -- rewrite lookup_insert_ne by congruence. by rewrite Hother in Hy.
Qed.

Lemma Math_min_comm (a b : num) : Math_min a b = Math_min b a.
Proof.
  destruct a as [| | |p], b as [| | |q]; try reflexivity. cbn.
  repeat case_bool_decide; try reflexivity.
  - exfalso. eapply Qclt_not_le; [eassumption|]. by apply Qclt_le_weak.
  - f_equal. apply Qcle_antisym; by apply Qcnot_lt_le.
Qed.

Lemma Math_max_comm (a b : num) : Math_max a b = Math_max b a.
Proof.
  destruct a as [| | |p], b as [| | |q]; try reflexivity. cbn.
  repeat case_bool_decide; try reflexivity.
  - exfalso. eapply Qclt_not_le; [eassumption|]. by apply Qclt_le_weak.
  - f_equal. apply Qcle_antisym; by apply Qcnot_lt_le.
Qed.

Lemma Qc_trunc_of_Z (k : Z) : Qc_trunc (Qc_of_Z k) = k.
Proof. unfold Qc_trunc. cbn. apply Z.quot_1_r. Qed.

(** On a whole modulus [floor] is idempotent. *)
Lemma floor_idem (n : num) (t : Z) :
  t ≠ 0%Z → floor (floor n (ofZ t)) (ofZ t) = floor n (ofZ t).
Proof.
  intros Ht. destruct (floor_whole_cases n t Ht) as [->|[k ->]]; [reflexivity|].
  unfold ofZ at 1. rewrite floor_whole by assumption. do 2 f_equal.
  rewrite Z2Qc_inj_mul.
  replace (Qc_of_Z t * Qc_of_Z k / Qc_of_Z t)%Qc with (Qc_of_Z k)
    by (field; by apply Qc_of_Z_nonzero).
  apply Qc_trunc_of_Z.
Qed.

Lemma crossings_floored (t : Z) edges y x :
  t ≠ 0%Z → (y, x) ∈ allCrossings (ofZ t) edges → floor x (ofZ t) = x.
Proof.
  intros Ht (edge & Hc & _)%list_elem_of_bind.
  apply list_elem_of_fmap in Hc as (y' & [= -> ->] & _). by apply floor_idem.
Qed.

Lemma intersectionsAt_elem y x crossings :
  x ∈ intersectionsAt y crossings → (y, x) ∈ crossings.
Proof.
  intros ([y' x'] & -> & [Hy Hin]%list_elem_of_filter)%list_elem_of_fmap.
  cbn in *. by subst.
Qed.

Lemma intersectionsAt_Permutation y l l' :
  l ≡ₚ l' → intersectionsAt y l ≡ₚ intersectionsAt y l'.
Proof. intros Hl. unfold intersectionsAt. by rewrite Hl. Qed.

Lemma allCrossings_Permutation tileSize edges edges' :
  edges ≡ₚ edges' → allCrossings tileSize edges ≡ₚ allCrossings tileSize edges'.
Proof. intros He. unfold allCrossings. by rewrite He. Qed.

(** The span between the two intersections of a scan-line does not depend
    on which of the two is met first. *)
Lemma pairTile_Permutation fuel tileSize l l' col row :
  l ≡ₚ l' → (∀ y x, (y, x) ∈ l → floor x tileSize = x) →
  pairTile fuel tileSize l ∅ col row → pairTile fuel tileSize l' ∅ col row.
Proof.
  intros Hl Hfl [y Hy]. rewrite lookup_empty in Hy.
  destruct Hy as (x1 & x2 & Hat & Hspan). exists y. rewrite lookup_empty.
  pose proof (intersectionsAt_Permutation y _ _ Hl) as Hp. rewrite Hat in Hp.
  assert (H1 : floor x1 tileSize = x1).
  { apply (Hfl y), intersectionsAt_elem. rewrite Hat. left. }
  assert (H2 : floor x2 tileSize = x2).
  { apply (Hfl y), intersectionsAt_elem. rewrite Hat. right. left. }
  apply Permutation_length_2_inv in Hp as [Hp|Hp]; rewrite Hp.
  - by exists x1, x2.
  - exists x2, x1. split; [reflexivity|].
    rewrite H1 in Hspan. by rewrite H2, Math_min_comm, Math_max_comm.
Qed.

Lemma ofZ_positive (t : Z) : (0 < t)%Z → (ofZ 0 <? ofZ t)%J = true.
Proof.
  intros Ht. unfold ofZ, ltb. apply bool_decide_eq_true.
  by apply (proj1 (Z2Qc_inj_lt _ _)).
Qed.

Lemma active_empty col row : ¬ active ∅ col row.
Proof. intros (rows & Hl & _). by rewrite lookup_empty in Hl. Qed.


(** The negation of a decidable closed proposition, by evaluation. *)
Ltac by_refutation := apply (bool_decide_eq_false_1 _); vm_compute; reflexivity.

(** A check of the hypothesis on a given list of crossings. *)
Lemma crossed_twice_check (crossings : list (num * num)) :
  Forall (λ c, length (intersectionsAt c.1 crossings) = 2) crossings →
  ∀ y, length (intersectionsAt y crossings) = 0 ∨
       length (intersectionsAt y crossings) = 2.
Proof.
  intros Hall y. destruct (decide (y ∈ crossings.*1)) as [Hin|Hout].
  - right. apply list_elem_of_fmap in Hin as ([y' x] & -> & Hin).
    rewrite Forall_forall in Hall. by apply (Hall (y', x)).
  - left. by rewrite intersectionsAt_absent.
Qed.



(** ** C2 *)

Lemma iterations_elem_returned {St : Type} test step (body : num → St → option St) fuel :
  ∀ k i s r, for_loop fuel test step body i s = Some r →
    (∀ j, j ≤ k → test (advance j step i) = true) →
    advance k step i ∈ iterations fuel test step i.
Proof.
  induction fuel as [|fuel IH]; intros k i s r; [discriminate|]. cbn.
  intros Hloop Hk. pose proof (Hk 0 ltac:(lia)) as H0. cbn in H0. rewrite H0 in *.
  destruct (body i s) as [s'|]; [|discriminate]. cbn in Hloop.
  destruct k as [|k]; [left|right].
  apply (IH k _ s' r Hloop). intros j Hj. apply (Hk (S j)). lia.
Qed.

Lemma advance_ofZ (n : nat) (t a : Z) :
  advance n (ofZ t) (ofZ a) = ofZ (a + Z.of_nat n * t).
Proof.
  unfold ofZ. rewrite advance_Fin. by rewrite Z2Qc_inj_add, Z2Qc_inj_mul.
Qed.

Lemma ofZ_div_multiple (k t : Z) : t ≠ 0%Z → (ofZ (k * t) / ofZ t)%J = ofZ k.
Proof.
  intros Ht. unfold ofZ, div. rewrite bool_decide_eq_false_2 by by apply Qc_of_Z_nonzero.
  f_equal. rewrite Z2Qc_inj_mul. field. by apply Qc_of_Z_nonzero.
Qed.

Lemma ofZ_ltb (a b : Z) : (ofZ a <? ofZ b)%J = bool_decide (a < b)%Z.
Proof.
  unfold ofZ, ltb. apply bool_decide_ext. symmetry. apply Z2Qc_inj_lt.
Qed.

Lemma ofZ_inj (a b : Z) : ofZ a = ofZ b → a = b.
Proof. unfold ofZ. by intros [= ?]. Qed.

(** The span between two multiples of the tile size holds every multiple
    from the lower one up to, not including, the upper one. *)
Lemma span_of_multiples {S : Type} (body : num → S → option S)
    fuel (t a k : Z) (xb : num) s r :
  (0 < t)%Z →
  for_loop fuel (λ tileX, tileX <? xb)%J (ofZ t) body (ofZ (a * t)) s = Some r →
  (a ≤ k)%Z → (ofZ (k * t) <? xb)%J = true →
  ofZ (k * t) ∈ iterations fuel (λ tileX, tileX <? xb)%J (ofZ t) (ofZ (a * t)).
Proof.
  intros Ht Hloop Hak Hk.
  replace (ofZ (k * t)) with (advance (Z.to_nat (k - a)) (ofZ t) (ofZ (a * t))).
  2:{ rewrite advance_ofZ. f_equal. rewrite Z2Nat.id by lia. ring. }
  eapply iterations_elem_returned; [exact Hloop|].
  intros j Hj. rewrite advance_ofZ.
  destruct xb as [| | |b]; try discriminate; [reflexivity|].
  cbn in *. apply bool_decide_eq_true in Hk. apply bool_decide_eq_true.
  eapply Qcle_lt_trans; [|exact Hk]. apply (proj1 (Z2Qc_inj_le _ _)). nia.
Qed.

Lemma Math_min_cases (a b : num) :
  Math_min a b = NaN ∨ Math_min a b = a ∨ Math_min a b = b.
Proof. destruct a, b; cbn; auto. case_bool_decide; auto. Qed.

Lemma ofZ_leb (a b : Z) : (ofZ a <=? ofZ b)%J = bool_decide (a ≤ b)%Z.
Proof.
  unfold ofZ, leb. apply bool_decide_ext. symmetry. apply Z2Qc_inj_le.
Qed.

Lemma iterations_elem_inv test step N :
  ∀ i v, v ∈ iterations N test step i →
    ∃ j, v = advance j step i ∧ test v = true.
Proof.
  induction N as [|N IH]; intros i v; cbn; [by intros ?%elem_of_nil|].
  destruct (test i) eqn:Ht; [|by intros ?%elem_of_nil].
  intros [->|Hin]%elem_of_cons.
  - by exists 0.
  - destruct (IH _ _ Hin) as (j & -> & Hj). by exists (S j).
Qed.

(** The second crossing of a scan-line returns: its inner loop runs to its
    end and the pending entry is deleted. *)
Lemma second_crossing_returns (t : Z) (y x v : num) (st : fillState) :
  (0 < t)%Z →
  xValues st !! y = Some (floor v (ofZ t)) →
  ∃ F, ∀ fuel, F ≤ fuel → ∃ sq,
    for_loop fuel (λ tileX, tileX <? Math_max (floor x (ofZ t)) (floor v (ofZ t)))%J
      (ofZ t) (λ tileX sq, Some (markTile (ofZ t) y tileX sq))
      (Math_min (floor x (ofZ t)) (floor v (ofZ t))) (squares st) = Some sq ∧
    crossing fuel (ofZ t) y (floor x (ofZ t)) st =
      Some {| squares := sq; xValues := delete y (xValues st) |}.
Proof.
  intros Ht Hy.
  set (x' := floor x (ofZ t)). set (xv := floor v (ofZ t)) in *.
  assert (Hx : is_infinite x' = false) by apply floor_not_infinite.
  assert (Hxv : is_infinite xv = false) by apply floor_not_infinite.
  destruct (advance_passes_lt (ofZ t) (Math_min x' xv) (Math_max x' xv)) as [n Hn].
  { by apply ofZ_positive. }
  { intros E. pose proof (Math_min_not_infinite x' xv Hx Hxv) as H. by rewrite E in H. }
  { intros E. pose proof (Math_max_not_infinite x' xv Hx Hxv) as H. by rewrite E in H. }
  destruct (for_loop_returns (λ _ : gmap num (list num), True)
              (λ tileX, tileX <? Math_max x' xv)%J (ofZ t)
              (λ _ tileX sq, Some (markTile (ofZ t) y tileX sq)))
    with (n := n) (i := Math_min x' xv) (s := squares st)
    as (F & sq & _ & HF); [tauto| |done|assumption|].
  { intros i s _ _. exists 0, (markTile (ofZ t) y i s). done. }
  exists F. intros fuel Hfuel. exists sq. split; [by apply HF|].
  unfold crossing. rewrite Hy. cbn. by rewrite HF.
Qed.

(** The lower end of a span on tiles of a whole size is a multiple of the
    size, unless it is [NaN]. *)
Lemma span_start_multiple (t : Z) (x v : num) :
  t ≠ 0%Z →
  Math_min (floor x (ofZ t)) (floor v (ofZ t)) = NaN ∨
  ∃ a, Math_min (floor x (ofZ t)) (floor v (ofZ t)) = ofZ (a * t).
Proof.
  intros Ht.
  destruct (Math_min_cases (floor x (ofZ t)) (floor v (ofZ t))) as [E|[E|E]];
    [by left|rewrite E..].
  - destruct (floor_whole_cases x t Ht) as [E'|[a E']]; [by left|].
    right. exists a. rewrite E'. f_equal. lia.
  - destruct (floor_whole_cases v t Ht) as [E'|[a E']]; [by left|].
    right. exists a. rewrite E'. f_equal. lia.
Qed.




(** ** C3 *)

Lemma iterations_prefix test step N :
  ∀ i, test (advance N step i) = false →
    ∃ n, n ≤ N ∧
      iterations N test step i = (λ j, advance j step i) <$> seq 0 n ∧
      (∀ j, j < n → test (advance j step i) = true) ∧
      test (advance n step i) = false.
Proof.
  induction N as [|N IH]; intros i HN.
  - exists 0. cbn. split; [lia|]. split; [reflexivity|]. split; [intros; lia|assumption].
  - cbn [iterations]. destruct (test i) eqn:Ht.
    + cbn in HN. destruct (IH _ HN) as (n & Hn & Hl & Ht' & Hf).
      exists (S n). split; [lia|]. split; [|split].
      * cbn [seq]. rewrite fmap_cons, Hl, <- fmap_S_seq, <- list_fmap_compose. reflexivity.
      * intros [|j] Hj; cbn; [assumption|apply Ht'; lia].
      * exact Hf.
    + exists 0. cbn. split; [lia|]. split; [reflexivity|]. split; [intros; lia|assumption].
Qed.

Lemma Qc_trunc_nonneg (q : Qc) :
  (0 ≤ q)%Qc → (Qc_of_Z (Qc_trunc q) ≤ q)%Qc ∧ (q < Qc_of_Z (Qc_trunc q + 1))%Qc.
Proof.
  intros Hq. rewrite Qc_trunc_cases, bool_decide_eq_true_2 by assumption.
  pose proof (Qfloor_le q) as H1. pose proof (Qlt_floor q) as H2.
  rewrite inject_Z_plus in H2. rewrite Z2Qc_inj_add, Z2Qc_inj_1. split; qc_lra.
Qed.

Lemma floor_whole_nonneg (p : Qc) (t : Z) :
  (0 < t)%Z → (0 ≤ p)%Qc →
  ∃ k, floor (Fin p) (ofZ t) = ofZ (k * t) ∧
       (Qc_of_Z (k * t) ≤ p)%Qc ∧ (p < Qc_of_Z ((k + 1) * t))%Qc.
Proof.
  intros Ht Hp. exists (Qc_trunc (p / Qc_of_Z t)%Qc).
  pose proof (Qc_of_Z_pos t Ht) as Hpos.
  assert (Hnz : Qc_of_Z t ≠ 0%Qc) by (by apply Qc_of_Z_nonzero, Z.neq_sym, Z.lt_neq).
  split; [rewrite floor_whole by lia; f_equal; lia|].
  assert (Hr : (p = p / Qc_of_Z t * Qc_of_Z t)%Qc) by (by field).
  assert (Hq : (0 ≤ p / Qc_of_Z t)%Qc).
  { destruct (Qclt_le_dec (p / Qc_of_Z t) 0) as [Hneg|]; [exfalso|assumption].
    revert Hr Hneg. generalize (p / Qc_of_Z t)%Qc. intros r Hr Hneg.
    generalize dependent (Qc_of_Z t). intros T HT _ Hr. qc_to_q. nra. }
  destruct (Qc_trunc_nonneg _ Hq) as [Hlo Hhi].
  rewrite !Z2Qc_inj_mul, Z2Qc_inj_add, Z2Qc_inj_1.
  revert Hr Hlo Hhi. generalize (Qc_trunc (p / Qc_of_Z t)%Qc). generalize (p / Qc_of_Z t)%Qc.
  intros r k Hr Hlo Hhi. rewrite Z2Qc_inj_add, Z2Qc_inj_1 in Hhi.
  generalize dependent (Qc_of_Z k). intros K Hlo Hhi.
  generalize dependent (Qc_of_Z t). intros T HT _ Hr.
  split; qc_to_q; nra.
Qed.

Lemma intersection_nonneg (X1 Y1 X2 Y2 q : Qc) :
  (0 ≤ X1)%Qc → (0 ≤ X2)%Qc → X1 ≠ X2 →
  ((Y1 < q)%Qc ∧ (q ≤ Y2)%Qc) ∨ ((Y2 < q)%Qc ∧ (q ≤ Y1)%Qc) →
  ((Y2 - Y1) / (X2 - X1) ≠ 0)%Qc ∧
  (0 ≤ (q - (Y1 - (Y2 - Y1) / (X2 - X1) * X1)) / ((Y2 - Y1) / (X2 - X1)))%Qc.
Proof.
  intros H1 H2 Hx Hy.
  assert (Hdx : (X2 - X1 ≠ 0)%Qc).
  { intros E. apply Hx. qc_to_q. lra. }
  assert (Hdy : (Y2 - Y1 ≠ 0)%Qc).
  { intros E. destruct Hy as [[? ?]|[? ?]]; qc_to_q; lra. }
  assert (Hm : ((Y2 - Y1) / (X2 - X1) ≠ 0)%Qc).
  { intros E. apply Hdy.
    replace (Y2 - Y1)%Qc with ((Y2 - Y1) / (X2 - X1) * (X2 - X1))%Qc by (by field).
    rewrite E. ring. }
  split; [assumption|].
  set (v := ((q - (Y1 - (Y2 - Y1) / (X2 - X1) * X1)) / ((Y2 - Y1) / (X2 - X1)))%Qc).
  assert (Hv : (v * (Y2 - Y1) = X1 * (Y2 - Y1) + (q - Y1) * (X2 - X1))%Qc).
  { subst v. field. split; assumption. }
  clearbody v. clear Hm Hdx Hdy Hx.
  destruct (Qclt_le_dec v 0) as [Hneg|]; [exfalso|assumption].
  destruct Hy as [[Ha Hb]|[Ha Hb]]; qc_to_q; nra.
Qed.

Lemma slopeOf_oblique (t : Z) edge (X1 Y1 X2 Y2 : Qc) :
  offsetEnds t edge X1 Y1 X2 Y2 → X1 ≠ X2 →
  slopeOf (ofZ t) edge = Fin ((Y2 - Y1) / (X2 - X1))%Qc ∧
  interceptOf (ofZ t) edge = Fin (Y1 - (Y2 - Y1) / (X2 - X1) * X1)%Qc.
Proof.
  intros (Hx1 & Hy1 & Hx2 & Hy2) Hx.
  assert (Hdx : (X2 - X1 ≠ 0)%Qc).
  { intros E. apply Hx. qc_to_q. lra. }
  assert (Hs : slopeOf (ofZ t) edge = Fin ((Y2 - Y1) / (X2 - X1))%Qc).
  { unfold slopeOf. rewrite Hx1, Hy1, Hx2, Hy2. cbn [sub neg add].
    unfold strict_eq. rewrite bool_decide_eq_false_2.
    - cbn [div]. by rewrite bool_decide_eq_false_2.
    - unfold ofZ. rewrite Z2Qc_inj_0. intros E. apply Hdx. by apply (f_equal (λ n, match n with Fin q => q | _ => Q2Qc 0 end)) in E. }
  split; [assumption|].
  unfold interceptOf. rewrite Hs, Hx1, Hy1. reflexivity.
Qed.

Lemma lowerEnd_offset (t : Z) edge (X1 Y1 X2 Y2 : Qc) :
  offsetEnds t edge X1 Y1 X2 Y2 →
  lowerEnd (ofZ t) edge = Fin (if bool_decide (Y2 < Y1)%Qc then Y2 else Y1) ∧
  upperEnd (ofZ t) edge = Fin (if bool_decide (Y1 < Y2)%Qc then Y2 else Y1).
Proof.
  intros (_ & Hy1 & _ & Hy2). unfold lowerEnd, upperEnd. rewrite Hy1, Hy2. cbn.
  split; by case_bool_decide.
Qed.

Lemma scanLines_multiples (t : Z) edge (qa qb : Qc) :
  (0 < t)%Z → lowerEnd (ofZ t) edge = Fin qa → upperEnd (ofZ t) edge = Fin qb →
  (0 ≤ qa)%Qc →
  ∃ (k0 : Z) (n : nat),
    scanLinesOf (ofZ t) edge = (λ j : nat, ofZ ((k0 + Z.of_nat j) * t)) <$> seq 0 n ∧
    (Qc_of_Z ((k0 - 1) * t) ≤ qa)%Qc ∧ (qa < Qc_of_Z (k0 * t))%Qc ∧
    (∀ j : nat, j < n → (Qc_of_Z ((k0 + Z.of_nat j) * t) ≤ qb)%Qc) ∧
    (qb < Qc_of_Z ((k0 + Z.of_nat n) * t))%Qc.
Proof.
  intros Ht Hlo Hhi Hqa.
  destruct (floor_whole_nonneg qa t Ht Hqa) as (k & Hk & Hk1 & Hk2).
  exists (k + 1)%Z.
  unfold scanLinesOf. rewrite Hlo, Hhi, Hk.
  replace (ofZ (k * t) + ofZ t)%J with (ofZ ((k + 1) * t)).
  2:{ unfold ofZ. cbn. f_equal. rewrite <- Z2Qc_inj_add. f_equal. lia. }
  destruct (iterations_prefix (λ y, y <=? Fin qb)%J (ofZ t)
              (tripBound (ofZ ((k + 1) * t)) (Fin qb) (ofZ t)) (ofZ ((k + 1) * t)))
    as (n & _ & Hl & Htrue & Hfalse).
  { apply tripBound_passes; [by apply ofZ_positive|done|done]. }
  exists n. rewrite Hl. split.
  { apply list_fmap_ext. intros ? j ?. rewrite advance_ofZ. f_equal. lia. }
  replace ((k + 1 - 1) * t)%Z with (k * t)%Z by lia.
  split; [assumption|]. split; [assumption|]. split.
  - intros j Hj. specialize (Htrue j Hj). rewrite advance_ofZ in Htrue.
    cbn in Htrue. apply bool_decide_eq_true in Htrue.
    replace ((k + 1 + Z.of_nat j) * t)%Z with ((k + 1) * t + Z.of_nat j * t)%Z by lia.
    exact Htrue.
  - rewrite advance_ofZ in Hfalse. cbn in Hfalse. apply bool_decide_eq_false in Hfalse.
    apply Qcnot_le_lt in Hfalse.
    replace ((k + 1 + Z.of_nat n) * t)%Z with ((k + 1) * t + Z.of_nat n * t)%Z by lia.
    exact Hfalse.
Qed.




(** ** C7 *)

Lemma decimal_prefix_fraction rest :
  fraction_like rest → decimal_prefix rest = (Decimal.Nil, rest).
Proof.
  intros [->|[s ->]]; [reflexivity|]. cbn. by destruct (decimal_prefix s).
Qed.

Lemma decimal_prefix_digits (d : Decimal.uint) rest :
  decimal_prefix rest = (Decimal.Nil, rest) →
  decimal_prefix (NilEmpty.string_of_uint d +:+ rest) = (d, rest).
Proof.
  intros Hrest. induction d as [|d IH|d IH|d IH|d IH|d IH|d IH|d IH|d IH|d IH|d IH];
    [exact Hrest|..];
    cbn [NilEmpty.string_of_uint String.app decimal_prefix]; unfold String.app in IH |- *;
    cbn [NilEmpty.string_of_uint String.append decimal_prefix]; by rewrite IH.
Qed.

Lemma digits_of_N_shape (n : N) :
  N.to_uint n ≠ Decimal.Nil ∧
  digits_of_N n = NilEmpty.string_of_uint (N.to_uint n).
Proof.
  assert (Hn : N.to_uint n ≠ Decimal.Nil).
  { destruct n as [|p]; [discriminate|apply DecimalPos.Unsigned.to_uint_nonnil]. }
  split; [assumption|]. unfold digits_of_N, NilZero.string_of_uint.
  by destruct (N.to_uint n).
Qed.

(** A string that starts with the digits of a number and goes on with a
    fraction, or ends there, is parsed as it stands: no white space, no
    sign, no [0x] prefix. *)
Lemma digits_as_they_stand (d : Decimal.uint) rest :
  d ≠ Decimal.Nil → fraction_like rest →
  let s := NilEmpty.string_of_uint d +:+ rest in
  trim_start s = s ∧ strip_sign s = (false, s) ∧ has_hex_prefix s = false.
Proof.
  intros Hd Hrest. unfold String.app.
  destruct d as [|d|d|d|d|d|d|d|d|d|d]; [done|..];
    (split; [reflexivity|]; split; [reflexivity|]);
    (destruct d; [by destruct Hrest as [->|[s ->]]|reflexivity..]).
Qed.

Lemma parseInt_digits (negative : bool) (n : N) rest :
  fraction_like rest →
  parseInt ((if negative then "-" else EmptyString)%string +:+ digits_of_N n +:+ rest)
    = signed negative n.
Proof.
  intros Hrest. destruct (digits_of_N_shape n) as [Hn ->].
  destruct (digits_as_they_stand _ rest Hn Hrest) as (Htrim & Hsign & Hhex).
  pose proof (decimal_prefix_digits (N.to_uint n) rest
                (decimal_prefix_fraction rest Hrest)) as Hdec.
  set (s := NilEmpty.string_of_uint (N.to_uint n) +:+ rest) in *.
  assert (Hs : strip_sign (trim_start ((if negative then "-" else EmptyString)%string +:+ s))
               = (negative, s)).
  { destruct negative.
    - reflexivity.
    - change (EmptyString +:+ s) with s. by rewrite Htrim. }
  unfold parseInt. rewrite Hs, Hhex, Hdec.
  rewrite <- (DecimalN.Unsigned.of_to n) at 2.
  by destruct (N.to_uint n).
Qed.

Lemma fraction_part_like (r : Qc) : fraction_like (fraction_part r).
Proof.
  unfold fraction_part. case_bool_decide; [by left|right]. by eexists.
Qed.

Lemma Qfloor_nonneg (q : Qc) : (Q2Qc 0 ≤ q)%Qc → (0 ≤ Qfloor q)%Z.
Proof. intros Hq. change 0%Z with (Qfloor 0). by apply Qfloor_resp_le. Qed.

Lemma decimal_notation (a : Qc) :
  (/ pow10 6 ≤ a)%Qc → (a < pow10 21)%Qc →
  (Q2Qc 0 < a)%Qc ∧
  bool_decide (pow10 21 ≤ a)%Qc = false ∧ bool_decide (a < / pow10 6)%Qc = false.
Proof.
  intros Hlo Hhi. split; [|split].
  - eapply Qclt_le_trans; [|exact Hlo]. reflexivity.
  - apply bool_decide_eq_false. by apply Qclt_not_le.
  - apply bool_decide_eq_false. by apply Qcle_not_lt.
Qed.

(** Reading back the attribute that holds a number: the number comes back
    truncated toward zero. *)
Lemma parseInt_Number_toString (q : Qc) :
  decimalRange q → parseInt (Number_toString (Fin q)) = ofZ (Qc_trunc q).
Proof.
  intros [->|[[Hlo Hhi]|[Hlo Hhi]]]; [reflexivity|..];
    destruct (decimal_notation _ Hlo Hhi) as (Hpos & Hbig & Hsmall);
    unfold Number_toString.
  - rewrite bool_decide_eq_false_2 by (intros ->; by apply Qclt_not_eq in Hpos).
    rewrite (bool_decide_eq_false_2 (q < Q2Qc 0)%Qc)
      by (apply Qcle_not_lt; by apply Qclt_le_weak).
    cbv zeta. rewrite Hbig, Hsmall.
    rewrite (parseInt_digits false) by apply fraction_part_like.
    unfold signed. f_equal.
    rewrite Z2N.id by (by apply Qfloor_nonneg, Qclt_le_weak).
    rewrite Qc_trunc_cases, bool_decide_eq_true_2; [reflexivity|by apply Qclt_le_weak].
  - assert (Hneg : (q < Q2Qc 0)%Qc) by (clear Hlo Hhi Hbig Hsmall; qc_lra).
    rewrite bool_decide_eq_false_2 by (intros ->; by apply Qclt_not_eq in Hneg).
    rewrite (bool_decide_eq_true_2 (q < Q2Qc 0)%Qc) by assumption.
    cbv zeta. rewrite Hbig, Hsmall.
    rewrite (parseInt_digits true) by apply fraction_part_like.
    unfold signed. f_equal.
    rewrite Z2N.id by (by apply Qfloor_nonneg, Qclt_le_weak).
    rewrite Qc_trunc_cases, bool_decide_eq_false_2 by (by apply Qclt_not_le).
    unfold Qceiling. f_equal. apply Qfloor_comp, Qred_correct.
Qed.

(** C7, as the source has it: a polygon built with [n] sides from a list of
    at least [n] points, whose coordinates are numbers that [String] writes
    in decimal notation, gives back from [vertexPositions] the first [n]
    points of the list, each coordinate truncated toward zero to a whole
    number (the attribute holds [String(value)] and is read back with
    [parseInt]). *)
Theorem vertexPositions_returns_truncated_points
    (Math_cos Math_sin : num → num) (n : nat) (pts : list (Qc * Qc)) :
  n ≤ length pts →
  Forall (λ p, decimalRange p.1 ∧ decimalRange p.2) pts →
  vertexPositions (Polygon Math_cos Math_sin (givenPoints n pts))
    = truncated <$> take n pts.
Proof.
  intros Hn Hpts. unfold vertexPositions. cbn [vertices Polygon].
  unfold initializeVertices. cbn [sides givenPoints].
  apply list_eq. intros i. rewrite !list_lookup_fmap.
  destruct (decide (i < n)) as [Hi|Hi].
  - rewrite lookup_seq_lt by assumption. rewrite lookup_take_lt by assumption.
    destruct (lookup_lt_is_Some_2 pts i ltac:(lia)) as [p Hp]. rewrite Hp. cbn.
    f_equal. unfold initialPoint. cbn [points givenPoints].
    rewrite list_lookup_fmap, Hp. cbn [fmap option_fmap option_map].
    rewrite Forall_forall in Hpts.
    destruct (Hpts p (list_elem_of_lookup_2 _ _ _ Hp)) as [Hx Hy].
    unfold Vertex_position, Vertex, pointOf, truncated. cbn [cx cy x y].
    by rewrite !parseInt_Number_toString.
  - rewrite lookup_seq_ge by lia. rewrite lookup_take_ge by lia. reflexivity.
Qed.

Lemma vertexPositions_returns_truncated_points_witness :
  vertexPositions (Polygon (λ _, NaN) (λ _, NaN) halfOptions)
    = truncated <$> take 3 [(Q2Qc (21 # 2), Qc_of_Z 20); (Qc_of_Z 0, Qc_of_Z 0);
                            (Qc_of_Z 5, Qc_of_Z 5)].
Proof.
  apply (vertexPositions_returns_truncated_points (λ _, NaN) (λ _, NaN) 3);
    [cbn; lia|].
  repeat (apply List.Forall_cons; [unfold decimalRange; by_computation|]).
  apply List.Forall_nil.
Defined.

(** C7 as stated fails on the triangle (10.5,20), (0,0), (5,5):
    [vertexPositions] returns (10,20), (0,0), (5,5); the first abscissa is
    off by one half. *)
Lemma fractional_vertex_comes_back_truncated :
  (Fin (Q2Qc (21 # 2)) - ofZ 10)%J = Fin (Q2Qc (1 # 2)) ∧
  ∀ Math_cos Math_sin,
    points halfOptions =
      Some [Some {| x := Fin (Q2Qc (21 # 2)); y := ofZ 20 |};
            Some (pt 0 0); Some (pt 5 5)] ∧
    vertexPositions (Polygon Math_cos Math_sin halfOptions)
      = [pt 10 20; pt 0 0; pt 5 5].
Proof.
  split; [by_computation|]. intros Math_cos Math_sin. split; [reflexivity|].
  match goal with |- ?l = _ => evaluate l end. by_computation.
Qed.

Lemma whole_in_decimalRange (z : Z) :
  (Z.abs z < 10 ^ 21)%Z → decimalRange (Qc_of_Z z).
Proof.
  intros Hz. unfold decimalRange, pow10.
  assert (Hsmall : (/ Qc_of_Z (10 ^ Z.of_nat 6) ≤ Qc_of_Z 1)%Qc) by done.
  destruct (Z.lt_trichotomy z 0) as [Hneg|[->|Hpos]].
  - right. right. rewrite <- Z2Qc_inj_opp. split.
    + etrans; [exact Hsmall|]. apply (proj1 (Z2Qc_inj_le _ _)). lia.
    + apply (proj1 (Z2Qc_inj_lt _ _)). change (Z.of_nat 21) with 21%Z. lia.
  - left. apply Z2Qc_inj_0.
  - right. left. split.
    + etrans; [exact Hsmall|]. apply (proj1 (Z2Qc_inj_le _ _)). lia.
    + apply (proj1 (Z2Qc_inj_lt _ _)). change (Z.of_nat 21) with 21%Z. lia.
Qed.

(** ** C8 *)

Lemma radialAngle_steps (options : PolygonOptions) (i : nat) :
  0 < sides options →
  radialAngle options i
    = (startAngle (sides options) + ofNat i * stepAngle (sides options))%J.
Proof.
  intros Hn. unfold radialAngle, startAngle, stepAngle.
  assert (Hpi : ∃ p, Math_PI = Fin p) by (by eexists).
  destruct Hpi as [p ->].
  assert (Hs : Qc_of_Z (Z.of_nat (sides options)) ≠ Q2Qc 0).
  { apply Qc_of_Z_nonzero. lia. }
  assert (H2 : Qc_of_Z 2 ≠ Q2Qc 0) by (by apply Qc_of_Z_nonzero).
  unfold ofNat, ofZ. cbn [mul add div].
  rewrite !(bool_decide_eq_false_2 (Qc_of_Z (Z.of_nat (sides options)) = Q2Qc 0)) by assumption.
  rewrite !(bool_decide_eq_false_2 (Qc_of_Z 2 = Q2Qc 0)) by assumption.
  cbn [mul add div].
  rewrite !(bool_decide_eq_false_2 (Qc_of_Z (Z.of_nat (sides options)) = Q2Qc 0)) by assumption.
  cbn [mul add]. f_equal. field. split; assumption.
Qed.




(** ** C9 *)

(** C9, as the source has it: with a [JSON.parse] that reads the text of
    the empty object as the empty object, the settings are the defaults
    [sides = 4], [points = undefined] when the persisted record is absent or
    is the empty string, and when its text parses to a value without own
    properties; when [JSON.parse] throws on the text of the record, the
    error is not caught and the startup throws it. *)
Theorem settings_default_when_absent_but_throw_when_malformed
    (JSON_parse : string → completion jsval) :
  JSON_parse "{}"%string = Returns (VObj []) →
  (∀ item, item = None ∨ item = Some EmptyString →
     Rasterizer_settings JSON_parse item = Returns default_settings) ∧
  (∀ text parsed, text ≠ EmptyString →
     JSON_parse text = Returns parsed → own_properties parsed = [] →
     Rasterizer_settings JSON_parse (Some text) = Returns default_settings) ∧
  (∀ text error, text ≠ EmptyString →
     JSON_parse text = Throws error →
     Rasterizer_settings JSON_parse (Some text) = Throws error).
Proof.
  intros Hempty. split; [|split].
  - intros item [->| ->]; unfold Rasterizer_settings; by rewrite Hempty.
  - intros text parsed Htext Hparse Hown. unfold Rasterizer_settings.
    destruct text as [|c text]; [done|]. rewrite Hparse.
    unfold Object_assign. by rewrite Hown.
  - intros text error Htext Hparse. unfold Rasterizer_settings.
    destruct text as [|c text]; [done|]. by rewrite Hparse.
Qed.

Lemma settings_default_when_absent_but_throw_when_malformed_witness :
  (∀ item, item = None ∨ item = Some EmptyString →
     Rasterizer_settings bracesOnly item = Returns default_settings) ∧
  (∀ text parsed, text ≠ EmptyString →
     bracesOnly text = Returns parsed → own_properties parsed = [] →
     Rasterizer_settings bracesOnly (Some text) = Returns default_settings) ∧
  (∀ text error, text ≠ EmptyString →
     bracesOnly text = Throws error →
     Rasterizer_settings bracesOnly (Some text) = Throws error).
Proof.
  apply (settings_default_when_absent_but_throw_when_malformed bracesOnly).
  reflexivity.
Defined.

(** C9 as stated fails on the persisted record [{]: [JSON.parse] throws on
    it and so does the startup, whatever the parser is, the one of the
    sample included. *)
Lemma malformed_settings_throw :
  "{"%string ≠ EmptyString ∧
  (∀ JSON_parse error,
     JSON_parse "{"%string = Throws error →
     Rasterizer_settings JSON_parse (Some "{"%string) = Throws error) ∧
  Rasterizer_settings bracesOnly (Some "{"%string) = Throws "SyntaxError"%string.
Proof.
  split; [done|]. split; [|reflexivity].
  intros JSON_parse error Hparse. unfold Rasterizer_settings. by rewrite Hparse.
Qed.

(** ** The span of a second crossing, exactly *)



(** ** Whole coordinates *)

(** A polygon built from points with whole coordinates below [1e21] in
    absolute value gives back from [vertexPositions] the first [n] of them,
    unchanged. *)
Theorem whole_points_come_back_unchanged
    (Math_cos Math_sin : num → num) (n : nat) (pts : list (Z * Z)) :
  n ≤ length pts →
  Forall (λ p, (Z.abs p.1 < 10 ^ 21)%Z ∧ (Z.abs p.2 < 10 ^ 21)%Z) pts →
  vertexPositions
    (Polygon Math_cos Math_sin
       {| sides := n; points := Some ((λ p, Some (pt p.1 p.2)) <$> pts) |})
    = (λ p, pt p.1 p.2) <$> take n pts.
Proof.
  intros Hn Hpts. unfold vertexPositions. cbn [vertices Polygon].
  unfold initializeVertices. cbn [sides].
  apply list_eq. intros i. rewrite !list_lookup_fmap.
  destruct (decide (i < n)) as [Hi|Hi].
  - rewrite lookup_seq_lt by assumption. rewrite lookup_take_lt by assumption.
    destruct (lookup_lt_is_Some_2 pts i ltac:(lia)) as [p Hp]. rewrite Hp. cbn.
    f_equal. unfold initialPoint. cbn [points].
    rewrite list_lookup_fmap, Hp. cbn [fmap option_fmap option_map].
    rewrite Forall_forall in Hpts.
    destruct (Hpts p (list_elem_of_lookup_2 _ _ _ Hp)) as [Hx Hy].
    unfold Vertex_position, Vertex, pt, ofZ. cbn [cx cy x y].
    rewrite !parseInt_Number_toString by (by apply whole_in_decimalRange).
    by rewrite !Qc_trunc_of_Z.
  - rewrite lookup_seq_ge by lia. rewrite lookup_take_ge by lia. reflexivity.
Qed.

Lemma whole_points_come_back_unchanged_witness :
  vertexPositions
    (Polygon (λ _, NaN) (λ _, NaN)
       {| sides := 3;
          points := Some ((λ p, Some (pt p.1 p.2)) <$>
                            [(5, 0); (0, 10); (10, 10); (7, 7)]%Z) |})
    = (λ p, pt p.1 p.2) <$> take 3 [(5, 0); (0, 10); (10, 10); (7, 7)]%Z.
Proof.
  apply (whole_points_come_back_unchanged (λ _, NaN) (λ _, NaN) 3);
    [cbn; lia|].
  repeat (apply List.Forall_cons; [cbn; lia|]). apply List.Forall_nil.
Defined.

(** * Further properties *)

(** ** Upright and flat edges *)

Lemma floor_over_zero (a T : num) : floor (a / ofZ 0)%J T = NaN.
Proof.
  unfold ofZ. rewrite Z2Qc_inj_0.
  destruct a as [| | |p]; cbn [div]; rewrite ?bool_decide_eq_true_2 by reflexivity;
    [reflexivity| by destruct T | by destruct T |].
  repeat case_bool_decide; try reflexivity; by destruct T.
Qed.

Lemma div_NaN_r (a : num) : (a / NaN)%J = NaN.
Proof. by destruct a. Qed.

Lemma sub_self (a : num) : (a - a)%J = ofZ 0 ∨ (a - a)%J = NaN.
Proof.
  destruct a as [| | |q]; [by right..|left].
  unfold ofZ. cbn. f_equal. rewrite Z2Qc_inj_0. ring.
Qed.

(** The scan loop of an upright edge works with [NaN] on every scan-line. *)
Lemma upright_crossings_NaN (T : num) (edge : EdgeEl) :
  x1 (Edge_position edge) = x2 (Edge_position edge) →
  crossingsOf T edge = (λ y, (y, NaN)) <$> scanLinesOf T edge.
Proof.
  intros Hx. unfold crossingsOf. apply list_fmap_ext. intros _ y _. f_equal.
  unfold interceptOf, slopeOf. rewrite <- Hx.
  destruct (sub_self (x1 (Edge_position edge) + T / ofZ 2)%J) as [E|E]; rewrite E.
  - replace (strict_eq (ofZ 0) (ofZ 0)) with true
      by (symmetry; by apply bool_decide_eq_true).
    apply floor_over_zero.
  - cbn [strict_eq]. by rewrite !div_NaN_r.
Qed.

Lemma flat_not_scanned (t : Z) (edge : EdgeEl) :
  (0 < t)%Z →
  y1 (Edge_position edge) = y2 (Edge_position edge) →
  scanLinesOf (ofZ t) edge = [].
Proof.
  intros Ht Hy. unfold scanLinesOf, lowerEnd, upperEnd.
  rewrite Hy, Math_min_idem, Math_max_idem.
  destruct (tripBound _ _ _); [reflexivity|]. cbn [iterations].
  by rewrite first_scanLine_above.
Qed.

(** A crossing at [NaN] marks no tile. *)
Lemma crossing_NaN fuel tileSize y st st' :
  crossing fuel tileSize y NaN st = Some st' → squares st' = squares st.
Proof.
  unfold crossing. destruct (xValues st !! y) as [xv|]; [|by intros [= <-]].
  destruct fuel as [|fuel]; [discriminate|]. cbn. by intros [= <-].
Qed.

Lemma processCrossings_NaN fuel tileSize crossings :
  Forall (λ c, c.2 = NaN) crossings →
  ∀ st st', processCrossings fuel tileSize crossings st = Some st' →
    squares st' = squares st.
Proof.
  unfold processCrossings.
  induction 1 as [|[y x] rest Hx _ IH]; intros st st'; cbn; [by intros [= <-]|].
  cbn in Hx. subst x.
  destruct (crossing fuel tileSize y NaN st) as [st1|] eqn:Hc; [|discriminate].
  cbn. intros Hrest%IH. rewrite Hrest. by eapply crossing_NaN.
Qed.



(** ** The tiles of a result *)

Lemma forEach_invariant {A St : Type} (Inv : St → Prop)
    (f : A → St → option St) (l : list A) :
  (∀ a s s', a ∈ l → Inv s → f a s = Some s' → Inv s') →
  ∀ s r, Inv s → forEach f l s = Some r → Inv r.
Proof.
  induction l as [|a l IH]; intros Hf s r Hs; cbn; [by intros [= <-]|].
  destruct (f a s) as [s'|] eqn:Ha; [|discriminate]. cbn.
  apply IH.
  - intros a' s1 s2 Hin. apply Hf. by right.
  - eapply Hf; [left|exact Hs|exact Ha].
Qed.

Lemma floor_whole_multiple (n : num) (t : Z) :
  t ≠ 0%Z → floor n (ofZ t) = NaN ∨ ∃ a, floor n (ofZ t) = ofZ (a * t).
Proof.
  intros Ht. destruct (floor_whole_cases n t Ht) as [E|[a E]]; [by left|right].
  exists a. rewrite E. f_equal. lia.
Qed.

Lemma Math_min_multiple (t : Z) (x xv : num) :
  (x = NaN ∨ ∃ a, x = ofZ (a * t)) → (xv = NaN ∨ ∃ a, xv = ofZ (a * t)) →
  Math_min x xv = NaN ∨ ∃ a, Math_min x xv = ofZ (a * t).
Proof.
  intros Hx Hxv. destruct (Math_min_cases x xv) as [E|[E|E]]; rewrite E; auto.
Qed.

Lemma crossing_gridState (t : Z) edges fuel (r : Z) edge x st st' :
  (0 < t)%Z → edge ∈ edges →
  (lowerEnd (ofZ t) edge <? ofZ (r * t))%J = true →
  (ofZ (r * t) <=? upperEnd (ofZ t) edge)%J = true →
  gridState t edges st →
  crossing fuel (ofZ t) (ofZ (r * t)) (floor x (ofZ t)) st = Some st' →
  gridState t edges st'.
Proof.
  intros Ht Hin Hlo Hhi [Hpend Hact] Hc.
  destruct (xValues st !! ofZ (r * t)) as [xv|] eqn:Hy.
  - destruct (crossing_paired _ _ _ _ _ _ _ Hy Hc) as [Hx' Hact']. split.
    + intros y xv'. rewrite Hx'. intros [_ Hl]%lookup_delete_Some. by eapply Hpend.
    + intros col row [Hold|(-> & tileX & Htile & ->)]%Hact'; [by apply Hact|].
      apply iterations_elem_inv in Htile as (j & -> & Htest).
      destruct (Math_min_multiple t (floor x (ofZ t)) xv) as [E|[a E]].
      { apply floor_whole_multiple. lia. }
      { by eapply Hpend. }
      { rewrite E, advance_NaN in Htest. discriminate. }
      rewrite E, advance_ofZ.
      replace (a * t + Z.of_nat j * t)%Z with ((a + Z.of_nat j) * t)%Z by lia.
      rewrite !ofZ_div_multiple by lia.
      by exists (a + Z.of_nat j)%Z, r, edge.
  - rewrite crossing_recorded in Hc by assumption. injection Hc as <-. split; [|exact Hact].
    cbn. intros y xv [[_ <-]|[_ Hl]]%lookup_insert_Some; [|by eapply Hpend].
    apply floor_whole_multiple. lia.
Qed.

Lemma floor_next_above (p : Qc) (t : Z) :
  (0 < t)%Z →
  ∃ k, floor (Fin p) (ofZ t) = ofZ (k * t) ∧ (p < Qc_of_Z ((k + 1) * t))%Qc.
Proof.
  intros Ht. exists (Qc_trunc (p / Qc_of_Z t)%Qc).
  split; [rewrite floor_whole by lia; f_equal; lia|].
  pose proof (first_scanLine_above (Fin p) t Ht) as Hf.
  rewrite floor_whole in Hf by lia. cbn in Hf.
  apply bool_decide_eq_false in Hf. apply Qcnot_le_lt in Hf.
  rewrite <- Z2Qc_inj_add in Hf.
  by replace ((Qc_trunc (p / Qc_of_Z t) + 1) * t)%Z
    with (t * Qc_trunc (p / Qc_of_Z t) + t)%Z by lia.
Qed.

Lemma accumulateSquaresForEdge_gridState (t : Z) edges fuel edge st st' :
  (0 < t)%Z → edge ∈ edges →
  gridState t edges st →
  accumulateSquaresForEdge fuel (ofZ t) edge st = Some st' →
  gridState t edges st'.
Proof.
  intros Ht Hin Hst.
  change (accumulateSquaresForEdge fuel (ofZ t) edge st) with
    (for_loop fuel (λ y, y <=? upperEnd (ofZ t) edge)%J (ofZ t)
       (scanLine fuel (ofZ t) (slopeOf (ofZ t) edge) (interceptOf (ofZ t) edge))
       (floor (lowerEnd (ofZ t) edge) (ofZ t) + ofZ t)%J st).
  intros Hloop%for_loop_iterations. revert Hloop.
  apply forEach_invariant; [|exact Hst].
  intros y s s' (j & -> & Htest)%iterations_elem_inv Hs.
  destruct (lowerEnd (ofZ t) edge) as [| | |p] eqn:Hp;
    [by rewrite advance_NaN in Htest..|].
  destruct (floor_next_above p t Ht) as (k & Hk & Hlt).
  revert Htest. rewrite Hk.
  replace (ofZ (k * t) + ofZ t)%J with (ofZ ((k + 1) * t))
    by (unfold ofZ; cbn; f_equal; rewrite <- Z2Qc_inj_add; f_equal; lia).
  rewrite advance_ofZ.
  replace ((k + 1) * t + Z.of_nat j * t)%Z with ((k + 1 + Z.of_nat j) * t)%Z by lia.
  intros Htest. unfold scanLine.
  apply (crossing_gridState t edges fuel _ edge); try assumption.
  rewrite Hp. cbn. apply bool_decide_eq_true.
  eapply Qclt_le_trans; [exact Hlt|]. apply (proj1 (Z2Qc_inj_le _ _)). nia.
Qed.



(** ** [floor] *)

Lemma Qc_trunc_nonpos (q : Qc) :
  (q ≤ Q2Qc 0)%Qc → (q ≤ Qc_of_Z (Qc_trunc q))%Qc ∧ (Qc_of_Z (Qc_trunc q - 1) < q)%Qc.
Proof.
  intros Hq. rewrite Qc_trunc_cases. case_bool_decide as Hs.
  - assert (q = Q2Qc 0) as -> by (by apply Qcle_antisym). by split.
  - pose proof (Qle_ceiling q) as H1. pose proof (Qceiling_lt q) as H2.
    replace (Qceiling q - 1)%Z with (Qceiling q + -1)%Z in * by lia.
    rewrite inject_Z_plus in H2. rewrite Z2Qc_inj_add. split; qc_lra.
Qed.

Lemma Qc_trunc_opp (q : Qc) : Qc_trunc (- q) = (- Qc_trunc q)%Z.
Proof.
  unfold Qc_trunc. destruct q as [[n d] Hc]. cbn [this Qcopp Q2Qc Qopp Qnum Qden].
  assert (Hred : Qred (- (n # d)) = (- (n # d))%Q).
  { rewrite Qred_opp. f_equal. exact Hc. }
  rewrite Hred. cbn [Qnum Qden]. apply Z.quot_opp_l. lia.
Qed.


(** [floor(n, modulo)] is [NaN] exactly when [n] is not a finite number or
    [modulo] is [NaN] or 0; for a finite [n] and an infinite [modulo] it
    is 0. *)
Theorem floor_edge_cases :
  (∀ n modulo, floor n modulo = NaN ↔
     (∀ p, n ≠ Fin p) ∨ modulo = NaN ∨ modulo = ofZ 0) ∧
  (∀ p modulo, is_infinite modulo = true → floor (Fin p) modulo = ofZ 0).
Proof.
  assert (Hinf : ∀ p modulo, is_infinite modulo = true → floor (Fin p) modulo = ofZ 0).
  { intros p modulo Hm.
    assert (Hz : Math_floor (Fin p - Fin p) = ofZ 0).
    { unfold Math_floor, sub, neg, add. f_equal.
      change 0%Z with (Qfloor 0). apply Qfloor_comp.
      apply (proj1 (Qc_this_eq (p + - p)%Qc (Q2Qc 0))). ring. }
    by destruct modulo. }
  split; [|exact Hinf]. intros n modulo. split.
  - destruct n as [| | |p]; [left; discriminate..|].
    destruct modulo as [| | |q]; [by right; left|by rewrite Hinf..|].
    unfold floor, rem. case_bool_decide as Hq; [|discriminate].
    intros _. right. right. unfold ofZ. by rewrite Hq, Z2Qc_inj_0.
  - intros [Hn|[->| ->]].
    + destruct n as [| | |p]; [by destruct modulo..|]. by destruct (Hn p).
    + by destruct n.
    + destruct n as [| | |p]; [reflexivity..|].
      unfold floor, rem, ofZ. by rewrite Z2Qc_inj_0, bool_decide_eq_true_2.
Qed.

(** ** The ring of edges, and a polygon built again *)

(** A polygon has as many edges as sides, and edge [i] runs from the
    position of vertex [i] to the position of vertex [(i + 1) % sides]: each
    edge starts where the one before ends, and the last one ends at the
    first vertex. *)
Theorem polygon_edges_close_the_ring
    (Math_cos Math_sin : num → num) (options : PolygonOptions) (i : nat) :
  i < sides options →
  length (edges (Polygon Math_cos Math_sin options)) = sides options ∧
  ∃ edge left right,
    edges (Polygon Math_cos Math_sin options) !! i = Some edge ∧
    vertices (Polygon Math_cos Math_sin options) !! i = Some left ∧
    vertices (Polygon Math_cos Math_sin options) !! ((i + 1) `mod` sides options)
      = Some right ∧
    Edge_position edge =
      {| x1 := x (Vertex_position left); y1 := y (Vertex_position left);
         x2 := x (Vertex_position right); y2 := y (Vertex_position right) |}.
Proof.
  intros Hi. cbn [edges vertices Polygon]. unfold initializeEdges.
  set (vs := initializeVertices Math_cos Math_sin options).
  assert (Hlen : length vs = sides options).
  { unfold vs, initializeVertices. by rewrite length_fmap, length_seq. }
  assert (Hedges :
    omap (λ edgeIndex,
            left ← vs !! edgeIndex;
            right ← vs !! ((edgeIndex + 1) `mod` sides options);
            Some (Edge left right)) (seq 0 (sides options))
    = (λ edgeIndex,
         Edge (default (Vertex {| x := NaN; y := NaN |}) (vs !! edgeIndex))
              (default (Vertex {| x := NaN; y := NaN |})
                 (vs !! ((edgeIndex + 1) `mod` sides options))))
        <$> seq 0 (sides options)).
  { assert (Hall : ∀ j, j ∈ seq 0 (sides options) → j < sides options).
    { intros j Hj%elem_of_seq. lia. }
    revert Hall. generalize (seq 0 (sides options)). intros l.
    induction l as [|j l IH]; intros Hall; [reflexivity|]. cbn.
    destruct (lookup_lt_is_Some_2 vs j) as [lv Hl]; [rewrite Hlen; apply Hall; left|].
    destruct (lookup_lt_is_Some_2 vs ((j + 1) `mod` sides options)) as [rv Hr].
    { rewrite Hlen. apply Nat.mod_upper_bound. specialize (Hall j ltac:(left)). lia. }
    rewrite Hl, Hr. cbn. f_equal. apply IH. intros j' Hj'. apply Hall. by right. }
  rewrite Hedges. split; [by rewrite length_fmap, length_seq|].
  destruct (lookup_lt_is_Some_2 vs i) as [lv Hl]; [lia|].
  destruct (lookup_lt_is_Some_2 vs ((i + 1) `mod` sides options)) as [rv Hr].
  { rewrite Hlen. apply Nat.mod_upper_bound. lia. }
  exists (Edge lv rv), lv, rv.
  rewrite list_lookup_fmap, lookup_seq_lt by assumption. cbn.
  rewrite Hl, Hr. cbn. done.
Qed.

Lemma position_read_back (s : string) :
  belowExponent (parseInt s) →
  parseInt (Number_toString (parseInt s)) = parseInt s.
Proof.
  intros Hs. destruct (parseInt_cases s) as [E|[z E]]; rewrite E in *; [reflexivity|].
  unfold ofZ. rewrite parseInt_Number_toString; [by rewrite Qc_trunc_of_Z|].
  apply whole_in_decimalRange. destruct Hs as [Hlo Hhi]. unfold pow10 in *.
  change (Z.of_nat 21) with 21%Z in *.
  rewrite <- Z2Qc_inj_opp in Hlo.
  apply Z2Qc_inj_lt in Hlo. apply Z2Qc_inj_lt in Hhi. lia.
Qed.

(** A polygon built again from [sides()] and [vertexPositions()] of a
    polygon, whose coordinates are below [1e21] in absolute value, has the
    vertex positions of that polygon. *)
Theorem rebuilt_polygon_keeps_positions
    (Math_cos Math_sin : num → num) (polygon : PolygonObj) :
  Forall (λ p, belowExponent (x p) ∧ belowExponent (y p)) (vertexPositions polygon) →
  vertexPositions
    (Polygon Math_cos Math_sin
       {| sides := Polygon_sides polygon;
          points := Some (Some <$> vertexPositions polygon) |})
    = vertexPositions polygon.
Proof.
  intros Hpos. unfold vertexPositions at 1. cbn [vertices Polygon].
  unfold initializeVertices, Polygon_sides. cbn [sides].
  apply list_eq. intros i. rewrite !list_lookup_fmap.
  destruct (decide (i < length (vertices polygon))) as [Hi|Hi].
  - rewrite lookup_seq_lt by assumption.
    destruct (lookup_lt_is_Some_2 (vertexPositions polygon) i) as [p Hp].
    { unfold vertexPositions. by rewrite length_fmap. }
    rewrite Hp. cbn. f_equal. unfold initialPoint. cbn [points].
    rewrite list_lookup_fmap, Hp. cbn [fmap option_fmap option_map].
    rewrite Forall_forall in Hpos.
    destruct (Hpos p (list_elem_of_lookup_2 _ _ _ Hp)) as [Hx Hy].
    unfold vertexPositions in Hp. rewrite list_lookup_fmap in Hp.
    destruct (vertices polygon !! i) as [v|]; [|discriminate].
    injection Hp as <-. unfold Vertex_position, Vertex in *. cbn [cx cy x y] in *.
    by rewrite !position_read_back.
  - rewrite lookup_seq_ge by lia.
    rewrite (lookup_ge_None_2 (vertexPositions polygon)); [reflexivity|].
    unfold vertexPositions. rewrite length_fmap. lia.
Qed.


Lemma polygon_edges_close_the_ring_witness :
  length (edges (Polygon (λ _, NaN) (λ _, NaN) squareOptions)) = sides squareOptions ∧
  ∃ edge left right,
    edges (Polygon (λ _, NaN) (λ _, NaN) squareOptions) !! 3 = Some edge ∧
    vertices (Polygon (λ _, NaN) (λ _, NaN) squareOptions) !! 3 = Some left ∧
    vertices (Polygon (λ _, NaN) (λ _, NaN) squareOptions)
      !! ((3 + 1) `mod` sides squareOptions) = Some right ∧
    Edge_position edge =
      {| x1 := x (Vertex_position left); y1 := y (Vertex_position left);
         x2 := x (Vertex_position right); y2 := y (Vertex_position right) |}.
Proof.
  apply (polygon_edges_close_the_ring (λ _, NaN) (λ _, NaN) squareOptions 3).
  cbn. lia.
Defined.

Lemma rebuilt_polygon_keeps_positions_witness :
  vertexPositions
    (Polygon (λ _, NaN) (λ _, NaN)
       {| sides := Polygon_sides (Polygon (λ _, NaN) (λ _, NaN) halfOptions);
          points := Some (Some <$> vertexPositions
                                     (Polygon (λ _, NaN) (λ _, NaN) halfOptions)) |})
    = vertexPositions (Polygon (λ _, NaN) (λ _, NaN) halfOptions).
Proof.
  apply (rebuilt_polygon_keeps_positions (λ _, NaN) (λ _, NaN)).
  by_computation.
Defined.

(** ** Settings and options *)

Lemma obj_get_set (key k : string) (v : jsval) (o : object) :
  obj_get key (obj_set k v o) = if bool_decide (k = key) then v else obj_get key o.
Proof.
  induction o as [|[k' w] o IH]; cbn.
  - by case_bool_decide.
  - destruct (bool_decide (k' = k)) eqn:Hk; cbn.
    + apply bool_decide_eq_true in Hk as ->. by case_bool_decide.
    + apply bool_decide_eq_false in Hk. rewrite IH.
      repeat case_bool_decide; congruence.
Qed.

Lemma assign_absent (key : string) (props target : object) :
  key ∉ props.*1 →
  obj_get key (foldl (λ o kv, obj_set kv.1 kv.2 o) target props) = obj_get key target.
Proof.
  revert target. induction props as [|[k v] props IH]; intros target Hkey; [reflexivity|].
  cbn in *. apply not_elem_of_cons in Hkey as [Hk Hkey].
  rewrite IH by assumption. rewrite obj_get_set. by rewrite bool_decide_eq_false_2.
Qed.

Lemma assign_present (key : string) (v : jsval) (props target : object) :
  NoDup props.*1 → (key, v) ∈ props →
  obj_get key (foldl (λ o kv, obj_set kv.1 kv.2 o) target props) = v.
Proof.
  revert target. induction props as [|[k w] props IH]; intros target Hnd Hin;
    [by apply elem_of_nil in Hin|].
  cbn in *. apply NoDup_cons in Hnd as [Hk Hnd].
  apply elem_of_cons in Hin as [[= -> ->]|Hin].
  - rewrite assign_absent by assumption. rewrite obj_get_set.
    by rewrite bool_decide_eq_true_2.
  - by apply IH.
Qed.





(** ** The canvas *)

Ltac same_branch :=
  repeat case_bool_decide; try reflexivity; exfalso;
  repeat match goal with
  | H : _ ∧ _ |- _ => destruct H
  | H : _ ∨ _ |- _ => destruct H
  | H : Some _ = Some _ |- _ => injection H as H
  | H : Some _ = None |- _ => discriminate H
  | H : None = Some _ |- _ => discriminate H
  end;
  subst; intuition congruence.

Lemma forEach_collect {A B : Type} (f : A → B) (l : list A) (s : list B) :
  forEach (λ a acc, Some (acc ++ [f a])) l s = Some (s ++ (f <$> l)).
Proof.
  revert s. induction l as [|a l IH]; intros s; cbn; [by rewrite app_nil_r|].
  rewrite IH. by rewrite <- app_assoc.
Qed.

Lemma tileCount_spec (extent t : Z) (j : nat) :
  (0 < t)%Z → (Z.of_nat j * t < extent)%Z ↔ j < tileCount extent t.
Proof.
  intros Ht. unfold tileCount.
  assert (Hdiv : ((extent + t - 1) / t * t ≤ extent + t - 1
                  < ((extent + t - 1) / t + 1) * t)%Z).
  { pose proof (Z.mul_div_le (extent + t - 1) t Ht).
    pose proof (Z.mul_succ_div_gt (extent + t - 1) t Ht). lia. }
  split; intros H; nia.
Qed.

(** A loop from 0 by steps of [t] below [extent] that collects [f x]. *)
Lemma collecting_loop {B : Type} (f : num → B) (extent t : Z) (fuel : nat) :
  (0 < t)%Z → tileCount extent t < fuel →
  for_loop fuel (λ x, x <? ofZ extent)%J (ofZ t) (λ x acc, Some (acc ++ [f x]))
    (ofZ 0) []
  = Some ((λ i : nat, f (ofZ (Z.of_nat i * t))) <$> seq 0 (tileCount extent t)).
Proof.
  intros Ht Hfuel.
  assert (Htest : ∀ j : nat,
            (advance j (ofZ t) (ofZ 0) <? ofZ extent)%J = bool_decide (j < tileCount extent t)).
  { intros j. rewrite advance_ofZ, ofZ_ltb. apply bool_decide_ext.
    pose proof (tileCount_spec extent t j Ht). lia. }
  rewrite (for_loop_complete _ _ _ (tileCount extent t)); [|assumption|].
  2:{ rewrite Htest. apply bool_decide_eq_false. lia. }
  rewrite forEach_collect. cbn. f_equal.
  destruct (iterations_prefix (λ x, x <? ofZ extent)%J (ofZ t)
              (tileCount extent t) (ofZ 0)) as (n & Hn & Hl & Htrue & Hfalse).
  { rewrite Htest. apply bool_decide_eq_false. lia. }
  rewrite Htest in Hfalse. apply bool_decide_eq_false in Hfalse.
  assert (n = tileCount extent t) as -> by lia.
  rewrite Hl, <- list_fmap_compose. apply list_fmap_ext. intros _ j _. cbn.
  rewrite advance_ofZ.
  by replace (0 + Z.of_nat j * t)%Z with (Z.of_nat j * t)%Z by lia.
Qed.

(** For a tile size [t] that is a positive whole number and a canvas of
    [width] by [height], [redrawTiles] returns a grid of
    [ceil(height / t)] rows of [ceil(width / t)] tiles, and the tile of row
    [j] and column [i] is the rect at [(i * t, j * t)], of size [t], without
    fill. *)
Theorem redrawTiles_covers_the_canvas
    (width height t : Z) (tileBorderColor : string) :
  (0 < t)%Z →
  ∃ F, ∀ fuel, F ≤ fuel →
    redrawTiles fuel (ofZ width) (ofZ height) (ofZ t) tileBorderColor
      = Some (tileGrid (tileCount height t) (tileCount width t) t tileBorderColor).
Proof.
  intros Ht. exists (S (Nat.max (tileCount width t) (tileCount height t))).
  intros fuel Hfuel. unfold redrawTiles.
  rewrite (for_loop_complete _ _ _ (tileCount height t)); [|lia|].
  2:{ rewrite advance_ofZ, ofZ_ltb. apply bool_decide_eq_false.
      pose proof (tileCount_spec height t (tileCount height t) Ht). lia. }
  erewrite forEach_ext.
  2:{ intros y acc _. rewrite (collecting_loop _ width t fuel) by (assumption || lia).
      cbn. reflexivity. }
  rewrite (forEach_collect
    (λ y, (λ i : nat, Tile (ofZ (Z.of_nat i * t)) y (ofZ t) (ofZ t)
                        (Some (gridStyle tileBorderColor)))
            <$> seq 0 (tileCount width t))).
  cbn. f_equal.
  destruct (iterations_prefix (λ y, y <? ofZ height)%J (ofZ t)
              (tileCount height t) (ofZ 0)) as (n & Hn & Hl & Htrue & Hfalse).
  { rewrite advance_ofZ, ofZ_ltb. apply bool_decide_eq_false.
    pose proof (tileCount_spec height t (tileCount height t) Ht). lia. }
  rewrite advance_ofZ, ofZ_ltb in Hfalse. apply bool_decide_eq_false in Hfalse.
  assert (n = tileCount height t) as ->.
  { pose proof (tileCount_spec height t n Ht). lia. }
  rewrite Hl, <- list_fmap_compose. unfold tileGrid. apply list_fmap_ext.
  intros _ j _. cbn. rewrite advance_ofZ.
  by replace (0 + Z.of_nat j * t)%Z with (Z.of_nat j * t)%Z by lia.
Qed.

Lemma array_index_Some (n : num) (i : nat) : array_index n = Some i ↔ n = ofNat i.
Proof.
  unfold array_index, ofNat, ofZ. split.
  - destruct n as [| | |q]; try discriminate.
    case_bool_decide as Hq; [|discriminate]. destruct Hq as [Hpos Hwhole].
    intros [= <-]. f_equal. rewrite Z2Nat.id by (by apply Qfloor_nonneg). by symmetry.
  - intros ->. rewrite bool_decide_eq_true_2.
    + by rewrite Qfloor_Qc_of_Z, Nat2Z.id.
    + split; [|by rewrite Qfloor_Qc_of_Z].
      rewrite <- Z2Qc_inj_0. apply (proj1 (Z2Qc_inj_le _ _)). lia.
Qed.

Lemma setFill_setFill (c c' : string) (tile : TileEl) :
  setFill c (setFill c' tile) = setFill c tile.
Proof. reflexivity. Qed.

Lemma mapGrid_ext (f g : nat → nat → TileEl → TileEl) tiles :
  (∀ j i tile, f j i tile = g j i tile) → mapGrid f tiles = mapGrid g tiles.
Proof.
  intros Hfg. unfold mapGrid. apply imap_ext. intros j row _.
  apply imap_ext. intros i tile _. apply Hfg.
Qed.

Lemma mapGrid_mapGrid (f g : nat → nat → TileEl → TileEl) tiles :
  mapGrid f (mapGrid g tiles) = mapGrid (λ j i tile, f j i (g j i tile)) tiles.
Proof.
  unfold mapGrid. apply list_eq. intros j. rewrite !list_lookup_imap.
  destruct (tiles !! j) as [row|]; [|reflexivity]. cbn. f_equal.
  apply list_eq. intros i. rewrite !list_lookup_imap.
  by destruct (row !! i).
Qed.

Lemma imap_id_ext {A : Type} (f : nat → A → A) (l : list A) :
  (∀ i a, f i a = a) → imap f l = l.
Proof.
  intros Hf. apply list_eq. intros i. rewrite list_lookup_imap.
  destruct (l !! i); [cbn; by rewrite Hf|reflexivity].
Qed.

Lemma list_alter_imap {A : Type} (f : A → A) (k : nat) (l : list A) :
  alter f k l = imap (λ j a, if bool_decide (k = j) then f a else a) l.
Proof.
  apply list_eq. intros j. rewrite list_lookup_imap.
  destruct (decide (k = j)) as [->|Hj].
  - rewrite list_lookup_alter_eq. destruct (l !! j); [cbn|reflexivity].
    by rewrite bool_decide_eq_true_2.
  - rewrite list_lookup_alter_ne by assumption. destruct (l !! j); [cbn|reflexivity].
    by rewrite bool_decide_eq_false_2.
Qed.

Lemma paintTile_mapGrid (c : string) (x y : num) tiles :
  paintTile c x y tiles =
    mapGrid (λ j i tile,
               if bool_decide (array_index x = Some i ∧ array_index y = Some j)
               then setFill c tile else tile) tiles.
Proof.
  unfold paintTile, mapGrid.
  destruct (array_index y) as [row|], (array_index x) as [col|].
  - rewrite list_alter_imap. apply imap_ext. intros j r _. cbn.
    case_bool_decide as Hj.
    + subst j. rewrite list_alter_imap. apply imap_ext. intros i tile _. cbn.
      same_branch.
    + symmetry. apply imap_id_ext. intros i tile.
      same_branch.
  - symmetry. apply imap_id_ext. intros j r. apply imap_id_ext. intros i tile.
    same_branch.
  - symmetry. apply imap_id_ext. intros j r. apply imap_id_ext. intros i tile.
    same_branch.
  - symmetry. apply imap_id_ext. intros j r. apply imap_id_ext. intros i tile.
    same_branch.
Qed.

Lemma paint_positions (c : string) (positions : list (num * num)) :
  ∀ tiles,
    foldl (λ tiles p, paintTile c p.1 p.2 tiles) tiles positions =
      mapGrid (λ j i tile,
                 if bool_decide (hits positions j i) then setFill c tile else tile)
              tiles.
Proof.
  induction positions as [|p positions IH]; intros tiles; cbn [foldl].
  - symmetry. apply imap_id_ext. intros j r. apply imap_id_ext. intros i tile.
    rewrite bool_decide_eq_false_2; [reflexivity|]. intros H. by apply Exists_nil in H.
  - rewrite IH, paintTile_mapGrid, mapGrid_mapGrid. apply mapGrid_ext.
    intros j i tile. unfold hits. rewrite (bool_decide_ext _ _ (Exists_cons _ _ _)).
    same_branch.
Qed.

Lemma paint_entries (c : string) (entries : list (num * list num)) :
  ∀ tiles,
    foldl (λ tiles entry,
             foldl (λ tiles y, paintTile c entry.1 y tiles) tiles entry.2)
          tiles entries
    = foldl (λ tiles p, paintTile c p.1 p.2 tiles) tiles (positionsOf entries).
Proof.
  induction entries as [|[x ys] entries IH]; intros tiles; [reflexivity|].
  cbn. rewrite foldl_app, <- IH. f_equal.
  generalize tiles. induction ys as [|y ys IHys]; intros g; [reflexivity|].
  cbn. apply IHys.
Qed.

Lemma clearTiles_mapGrid tiles :
  clearTiles tiles = mapGrid (λ _ _, setFill "none"%string) tiles.
Proof.
  unfold mapGrid, clearTiles. apply list_eq. intros j.
  rewrite list_lookup_imap, list_lookup_fmap.
  destruct (tiles !! j) as [r|]; [cbn|reflexivity]. f_equal.
  apply list_eq. intros i. rewrite list_lookup_imap, list_lookup_fmap.
  by destruct (r !! i).
Qed.

Lemma hits_active (activeTiles : gmap num (list num))
    (entries : list (num * list num)) (j i : nat) :
  entries ≡ₚ map_to_list activeTiles →
  hits (positionsOf entries) j i ↔ active activeTiles (ofNat i) (ofNat j).
Proof.
  intros Hperm. unfold hits, positionsOf, active. rewrite Exists_exists. split.
  - intros ([x y] & Hin & Hx & Hy). cbn in *.
    apply list_elem_of_bind in Hin as ([x' ys] & Hp & Hentry). cbn in Hp.
    apply list_elem_of_fmap in Hp as (y' & [= -> ->] & Hy').
    rewrite Hperm in Hentry. apply elem_of_map_to_list in Hentry.
    apply array_index_Some in Hx as ->. apply array_index_Some in Hy as ->.
    by exists ys.
  - intros (rows & Hl & Hin). exists (ofNat i, ofNat j). cbn [fst snd].
    split; [|split; by apply array_index_Some].
    apply list_elem_of_bind. exists (ofNat i, rows). cbn. split.
    + apply list_elem_of_fmap. by exists (ofNat j).
    + rewrite Hperm. by apply elem_of_map_to_list.
Qed.

(** [setActiveTiles] keeps the grid as it is but for the fills: the tile of
    row [j] and column [i] gets the active colour when [j] is an entry of
    [activeTiles[i]], and ['none'] when it is not, whatever its fill was.
    The entries of [activeTiles] that name no tile of the grid (an index
    that is negative, not whole, or past the end) change nothing, and the
    order in which the entries are listed does not matter. *)
Theorem setActiveTiles_paints_the_active_set
    (tileActiveColor : string) (tiles : list (list TileEl))
    (activeTiles : gmap num (list num)) :
  setActiveTilesDict tileActiveColor tiles activeTiles
    = paintedGrid tileActiveColor tiles activeTiles ∧
  ∀ entries, entries ≡ₚ map_to_list activeTiles →
    paintEntries tileActiveColor tiles entries
      = paintedGrid tileActiveColor tiles activeTiles.
Proof.
  assert (Hany : ∀ entries, entries ≡ₚ map_to_list activeTiles →
            paintEntries tileActiveColor tiles entries
              = paintedGrid tileActiveColor tiles activeTiles).
  { intros entries Hperm. unfold paintEntries, paintedGrid.
    rewrite paint_entries, paint_positions.
    rewrite clearTiles_mapGrid, mapGrid_mapGrid. apply mapGrid_ext. intros j i tile.
    rewrite (bool_decide_ext _ _ (hits_active activeTiles entries j i Hperm)).
    by case_bool_decide. }
  split; [by apply Hany|exact Hany].
Qed.

(** [setActiveTilesTuples] paints the tile of row [j] and column [i] with
    the active colour when one of the pairs is [(i, j)], and with ['none']
    when none is. *)
Theorem setActiveTilesTuples_paints_the_positions
    (tileActiveColor : string) (tiles : list (list TileEl))
    (positions : list (num * num)) :
  setActiveTilesTuples tileActiveColor tiles positions
    = paintedPositions tileActiveColor tiles positions.
Proof.
  unfold setActiveTilesTuples, paintedPositions. rewrite paint_positions.
  rewrite clearTiles_mapGrid, mapGrid_mapGrid. apply mapGrid_ext. intros j i tile.
  by case_bool_decide.
Qed.

Lemma redrawTiles_covers_the_canvas_witness :
  ∃ F, ∀ fuel, F ≤ fuel →
    redrawTiles fuel (ofZ 100) (ofZ 50) (ofZ 20) "#222222"%string
      = Some (tileGrid (tileCount 50 20) (tileCount 100 20) 20 "#222222"%string).
Proof. apply (redrawTiles_covers_the_canvas 100 50 20). lia. Defined.

(** ** Tile sizes that are not positive *)

(** A loop whose test holds on every value of its variable runs out of any
    fuel. *)
Lemma for_loop_diverges {St : Type} test step (body : num → St → option St) :
  ∀ fuel i s,
    (∀ j, test (advance j step i) = true) →
    for_loop fuel test step body i s = None.
Proof.
  induction fuel as [|fuel IH]; intros i s Htest; [reflexivity|]. cbn.
  pose proof (Htest 0) as H0. cbn in H0. rewrite H0.
  destruct (body i s) as [s'|]; [cbn|reflexivity].
  apply IH. intros j. apply (Htest (S j)).
Qed.

Lemma for_loop_S {St : Type} fuel test step (body : num → St → option St) i s :
  for_loop (S fuel) test step body i s =
    if test i then s' ← body i s; for_loop fuel test step body (i + step)%J s'
    else Some s.
Proof. reflexivity. Qed.

(** With a tile size that is zero or negative, [redrawTiles] on a canvas
    that is not empty never returns: no amount of fuel is enough for its
    loops. *)
Theorem redrawTiles_needs_a_positive_tile_size
    (width height t : Z) (tileBorderColor : string) (fuel : nat) :
  (t ≤ 0)%Z → (0 < width)%Z → (0 < height)%Z →
  redrawTiles fuel (ofZ width) (ofZ height) (ofZ t) tileBorderColor = None.
Proof.
  intros Ht Hw Hh. unfold redrawTiles.
  destruct fuel as [|fuel]; [reflexivity|]. rewrite for_loop_S. cbv beta.
  rewrite ofZ_ltb, bool_decide_eq_true_2 by assumption.
  rewrite for_loop_diverges; [reflexivity|].
  intros j. rewrite advance_ofZ, ofZ_ltb. apply bool_decide_eq_true. nia.
Qed.

Lemma accumulateSquaresForEdge_diverges (t : Z) edge fuel st :
  (t < 0)%Z → finiteOrdinates edge →
  accumulateSquaresForEdge fuel (ofZ t) edge st = None.
Proof.
  intros Ht [H1 H2].
  assert (Ha : ∃ a, y1 (Edge_position edge) = ofZ a).
  { destruct (parseInt_cases (attr_y1 edge)) as [E|[a E]]; [|by exists a].
    unfold Edge_position in H1. cbn [y1] in H1. by rewrite E in H1. }
  assert (Hb : ∃ b, y2 (Edge_position edge) = ofZ b).
  { destruct (parseInt_cases (attr_y2 edge)) as [E|[b E]]; [|by exists b].
    unfold Edge_position in H2. cbn [y2] in H2. by rewrite E in H2. }
  destruct Ha as [a Ha], Hb as [b Hb]. clear H1 H2.
  change (accumulateSquaresForEdge fuel (ofZ t) edge st) with
    (for_loop fuel (λ y, y <=? upperEnd (ofZ t) edge)%J (ofZ t)
       (scanLine fuel (ofZ t) (slopeOf (ofZ t) edge) (interceptOf (ofZ t) edge))
       (floor (lowerEnd (ofZ t) edge) (ofZ t) + ofZ t)%J st).
  apply for_loop_diverges. intros j.
  unfold lowerEnd, upperEnd. rewrite Ha, Hb, half_tile.
  set (h := (Qc_of_Z t / Qc_of_Z 2)%Qc).
  change (ofZ a - Fin h)%J with (Fin (Qc_of_Z a - h)).
  change (ofZ b - Fin h)%J with (Fin (Qc_of_Z b - h)).
  set (ya := Math_min _ _). set (yb := Math_max _ _).
  assert (Hab : ∃ p q, ya = Fin p ∧ yb = Fin q ∧ (p ≤ q)%Qc).
  { subst ya yb. cbn [Math_min Math_max ltb]. repeat case_bool_decide; eexists _, _;
      (split; [reflexivity|split; [reflexivity|]]);
      try apply Qcle_refl; try (by apply Qclt_le_weak); try (by apply Qcnot_lt_le). }
  destruct Hab as (p & q & -> & -> & Hpq).
  rewrite floor_whole by lia.
  replace (ofZ (t * Qc_trunc (p / Qc_of_Z t)%Qc) + ofZ t)%J
    with (ofZ (t * Qc_trunc (p / Qc_of_Z t)%Qc + t))
    by (unfold ofZ; cbn; f_equal; by rewrite <- Z2Qc_inj_add).
  rewrite advance_ofZ. cbn [leb ofZ]. apply bool_decide_eq_true.
  apply Qclt_le_weak. eapply Qclt_le_trans; [|exact Hpq].
  eapply Qcle_lt_trans.
  { apply (proj1 (Z2Qc_inj_le _ (t * Qc_trunc (p / Qc_of_Z t)%Qc + t))). nia. }
  pose proof (Qc_trunc_lower (p / Qc_of_Z t)%Qc) as Hk.
  assert (Hnz : Qc_of_Z t ≠ Q2Qc 0) by (apply Qc_of_Z_nonzero; lia).
  assert (Hneg : (Qc_of_Z t < Q2Qc 0)%Qc).
  { rewrite <- Z2Qc_inj_0. by apply (proj1 (Z2Qc_inj_lt _ _)). }
  assert (Hr : (p = p / Qc_of_Z t * Qc_of_Z t)%Qc) by (by field).
  rewrite Z2Qc_inj_add, Z2Qc_inj_mul.
  revert Hk Hr. generalize (Qc_trunc (p / Qc_of_Z t)%Qc). generalize (p / Qc_of_Z t)%Qc.
  intros r k Hk Hr. generalize dependent (Qc_of_Z k). intros K Hk.
  clear Hnz. generalize dependent (Qc_of_Z t). intros T _ HT Hr.
  qc_to_q. nra.
Qed.

(** Tile sizes that are not positive numbers.  With a tile size that is
    [NaN], zero or [Infinity] no scan loop runs and the result is empty.
    With a negative whole tile size the scan loop of an edge whose two
    ordinates are numbers never ends, so that [computeFilledSquares] never
    returns on a polygon that has such an edge. *)
Theorem fill_needs_a_positive_tile_size :
  (∀ tileSize polygon fuel,
     tileSize = NaN ∨ tileSize = ofZ 0 ∨ tileSize = PInf →
     computeFilledSquares (S fuel) tileSize polygon = Some ∅) ∧
  (∀ (t : Z) polygon fuel,
     (t < 0)%Z → Exists finiteOrdinates (edges polygon) →
     computeFilledSquares fuel (ofZ t) polygon = None).
Proof.
  split.
  - intros tileSize polygon fuel HT. unfold computeFilledSquares, fillPass.
    rewrite forEach_unchanged; [reflexivity|]. intros edge _.
    unfold accumulateSquaresForEdge. cbn [for_loop].
    set (ya := Math_min _ _). set (yb := Math_max _ _).
    assert (Htest : (floor ya tileSize + tileSize <=? yb)%J = false); [|by rewrite Htest].
    destruct HT as [->|[->| ->]].
    + by destruct ya.
    + replace (floor ya (ofZ 0)) with NaN; [reflexivity|].
      unfold floor, rem, ofZ. by destruct ya.
    + assert (Hyb : yb = NaN ∨ yb = NInf).
      { subst yb. assert (Hhalf : (PInf / ofZ 2)%J = PInf) by reflexivity.
        rewrite Hhalf.
        destruct (parseInt_cases (attr_y1 edge)) as [E|[z E]];
          destruct (parseInt_cases (attr_y2 edge)) as [E'|[z' E']];
          unfold Edge_position; cbn [y1 y2]; rewrite E, E'; auto. }
      clearbody yb. destruct Hyb as [-> | ->]; by destruct ya.
  - intros t polygon fuel Ht Hedge. unfold computeFilledSquares, fillPass.
    replace (forEach _ _ _) with (@None fillState); [reflexivity|]. symmetry.
    generalize {| squares := ∅; xValues := ∅ |}.
    induction Hedge as [edge rest Hfin|edge rest _ IH]; intros st; cbn.
    + by rewrite accumulateSquaresForEdge_diverges.
    + destruct (accumulateSquaresForEdge _ _ _ _); [apply IH|reflexivity].
Qed.

Lemma redrawTiles_needs_a_positive_tile_size_witness :
  redrawTiles 7 (ofZ 100) (ofZ 50) (ofZ 0) "#222222"%string = None.
Proof.
  apply (redrawTiles_needs_a_positive_tile_size 100 50 0); lia.
Defined.

Lemma fill_needs_a_positive_tile_size_witness :
  computeFilledSquares 3 (ofZ 0) (Polygon (λ _, NaN) (λ _, NaN) squareOptions) = Some ∅ ∧
  computeFilledSquares 9 (ofZ (-20)) (Polygon (λ _, NaN) (λ _, NaN) squareOptions) = None.
Proof.
  split.
  - apply (proj1 fill_needs_a_positive_tile_size). by right; left.
  - apply (proj2 fill_needs_a_positive_tile_size); [lia|by_computation].
Defined.

(** ** Dragging *)

Lemma ringOf_fmap (d : VertexEl) (vs : list VertexEl) :
  ringOf vs =
    (λ k, Edge (default d (vs !! k)) (default d (vs !! ((k + 1) `mod` length vs))))
      <$> seq 0 (length vs).
Proof.
  unfold ringOf, initializeEdges. cbn [sides].
  assert (Hall : ∀ j, j ∈ seq 0 (length vs) → j < length vs).
  { intros j Hj%elem_of_seq. lia. }
  revert Hall. generalize (seq 0 (length vs)). intros l.
  induction l as [|j l IH]; intros Hall; [reflexivity|]. cbn.
  destruct (lookup_lt_is_Some_2 vs j) as [lv Hl]; [apply Hall; left|].
  destruct (lookup_lt_is_Some_2 vs ((j + 1) `mod` length vs)) as [rv Hr].
  { apply Nat.mod_upper_bound. specialize (Hall j ltac:(left)). lia. }
  rewrite Hl, Hr. cbn. f_equal. apply IH. intros j' Hj'. apply Hall. by right.
Qed.

Lemma followVertex_ring (vs : list VertexEl) (j : nat) (el : VertexEl) :
  j < length vs →
  imap (followVertex (length vs) j el) (ringOf vs) = ringOf (<[j := el]> vs).
Proof.
  intros Hj. rewrite !(ringOf_fmap el), length_insert.
  apply list_eq. intros k. rewrite list_lookup_imap, !list_lookup_fmap.
  destruct (seq 0 (length vs) !! k) as [k'|] eqn:Hk; [|reflexivity]. cbn.
  apply lookup_seq in Hk as [-> Hk]. cbn. f_equal. unfold followVertex, Edge. cbn.
  assert (Hlookup : ∀ i, i < length vs →
            default el (<[j := el]> vs !! i)
              = if bool_decide (i = j) then el else default el (vs !! i)).
  { intros i Hi. case_bool_decide as Hij.
    - subst i. by rewrite list_lookup_insert_eq.
    - by rewrite list_lookup_insert_ne. }
  rewrite !Hlookup by (try apply Nat.mod_upper_bound; lia).
  repeat case_bool_decide; reflexivity.
Qed.

Lemma handleStart_el point vertex vertex' :
  handleStart point vertex = Returns vertex' → vertex_el vertex' = vertex_el vertex.
Proof. destruct point; [by intros [= <-]|discriminate]. Qed.

Lemma circles_insert_same (vs : list VertexObj) (i : nat) (v v' : VertexObj) :
  vs !! i = Some v → vertex_el v' = vertex_el v →
  vertex_el <$> <[i := v']> vs = vertex_el <$> vs.
Proof.
  intros Hi Hel. rewrite list_fmap_insert, Hel. apply list_insert_id.
  by rewrite list_lookup_fmap, Hi.
Qed.

Lemma moveListener_ring point scene index :
  scene_edges scene = ringOf (circles scene) →
  scene_edges (moveListener point scene index)
    = ringOf (circles (moveListener point scene index)) ∧
  length (scene_vertices (moveListener point scene index))
    = length (scene_vertices scene).
Proof.
  intros Hring. unfold moveListener.
  destruct (scene_vertices scene !! index) as [vertex|] eqn:Hv; [|done].
  destruct (handleMove point vertex) as [vertex'|] eqn:Hm; [|done].
  unfold circles. cbn [scene_edges scene_vertices]. split; [|by rewrite length_insert].
  rewrite list_fmap_insert, Hring. unfold circles.
  rewrite <- (length_fmap vertex_el). apply followVertex_ring.
  rewrite length_fmap. by eapply lookup_lt_Some.
Qed.

Lemma dispatch_ring event scene :
  scene_edges scene = ringOf (circles scene) →
  scene_edges (dispatch event scene) = ringOf (circles (dispatch event scene)) ∧
  length (scene_vertices (dispatch event scene)) = length (scene_vertices scene).
Proof.
  intros Hring.
  assert (Hmoves : ∀ point listeners sc,
            scene_edges sc = ringOf (circles sc) →
            scene_edges (foldl (moveListener point) sc listeners)
              = ringOf (circles (foldl (moveListener point) sc listeners)) ∧
            length (scene_vertices (foldl (moveListener point) sc listeners))
              = length (scene_vertices sc)).
  { intros point listeners. induction listeners as [|j listeners IH]; intros sc Hsc; [done|].
    cbn. destruct (moveListener_ring point sc j Hsc) as [H1 H2].
    destruct (IH _ H1) as [H3 H4]. split; [assumption|congruence]. }
  destruct event as [index point|index point|point|point|]; cbn [dispatch]; try by apply Hmoves.
  - destruct (scene_vertices scene !! index) as [vertex|] eqn:Hv; [|done].
    destruct (handleStart (Some point) vertex) as [vertex'|] eqn:Hs; [|done].
    unfold circles. cbn [scene_edges scene_vertices]. rewrite length_insert. split; [|done].
    rewrite (circles_insert_same _ _ vertex); [assumption..|by eapply handleStart_el].
  - destruct (scene_vertices scene !! index) as [vertex|] eqn:Hv; [|done].
    destruct (handleStart point vertex) as [vertex'|] eqn:Hs; [|done].
    unfold circles. cbn [scene_edges scene_vertices]. rewrite length_insert. split; [|done].
    rewrite (circles_insert_same _ _ vertex); [assumption..|by eapply handleStart_el].
  - unfold circles. cbn [scene_edges scene_vertices]. rewrite length_fmap. split; [|done].
    rewrite <- list_fmap_compose. exact Hring.
Qed.

(** Whatever the pointer does (a list of events on a polygon that has just
    been built), the polygon keeps its number of vertices and its edges are
    the edges that [initializePieces] would build from the vertices as they
    are now: edge [k] runs from vertex [k] to vertex [(k + 1) % sides], with
    the attributes of these two vertices. *)
Theorem edges_follow_their_vertices
    (Math_cos Math_sin : num → num) (options : PolygonOptions)
    (events : list pointerEvent) :
  length (scene_vertices
            (after events (sceneOf (Polygon Math_cos Math_sin options))))
    = sides options ∧
  scene_edges (after events (sceneOf (Polygon Math_cos Math_sin options)))
    = ringOf (circles (after events (sceneOf (Polygon Math_cos Math_sin options)))).
Proof.
  unfold after.
  assert (Hinit : scene_edges (sceneOf (Polygon Math_cos Math_sin options))
                  = ringOf (circles (sceneOf (Polygon Math_cos Math_sin options)))
                  ∧ length (scene_vertices (sceneOf (Polygon Math_cos Math_sin options)))
                    = sides options).
  { unfold circles, sceneOf. cbn [scene_edges scene_vertices vertices edges Polygon].
    rewrite <- list_fmap_compose, length_fmap.
    assert (Hlen : length (initializeVertices Math_cos Math_sin options) = sides options).
    { unfold initializeVertices. by rewrite length_fmap, length_seq. }
    split; [|assumption].
    assert (Hid : (vertex_el ∘ (λ el, {| vertex_el := el;
                                         mouseGrabOffset := {| x := ofZ 0; y := ofZ 0 |} |}))
                    <$> initializeVertices Math_cos Math_sin options
                  = initializeVertices Math_cos Math_sin options).
    { etrans; [|apply list_fmap_id]. by apply list_fmap_ext. }
    rewrite Hid. unfold ringOf. by rewrite Hlen. }
  revert Hinit. generalize (sceneOf (Polygon Math_cos Math_sin options)).
  induction events as [|event events IH]; intros scene [Hring Hlen]; cbn; [done|].
  destruct (dispatch_ring event scene Hring) as [H1 H2]. apply IH.
  split; [assumption|congruence].
Qed.

Lemma moveListener_other point scene index j :
  j ≠ index →
  scene_vertices (moveListener point scene index) !! j = scene_vertices scene !! j.
Proof.
  intros Hj. unfold moveListener.
  destruct (scene_vertices scene !! index) as [vertex|]; [|done].
  destruct (handleMove point vertex) as [vertex'|]; [|done].
  cbn. by rewrite list_lookup_insert_ne.
Qed.

Lemma moveListeners_other point listeners j :
  j ∉ listeners →
  ∀ scene, scene_vertices (foldl (moveListener point) scene listeners) !! j
           = scene_vertices scene !! j.
Proof.
  induction listeners as [|k listeners IH]; intros Hj scene; [reflexivity|].
  apply not_elem_of_cons in Hj as [Hk Hj]. cbn.
  rewrite IH by assumption. by apply moveListener_other.
Qed.

(** A vertex that has no [mousemove] and no [touchmove] listener on the
    [<svg>] (it is not held) is where it was after any event. *)
Theorem vertices_without_listener_stay
    (event : pointerEvent) (scene : Scene) (j : nat) :
  j ∉ mousemove_listeners scene → j ∉ touchmove_listeners scene →
  circles (dispatch event scene) !! j = circles scene !! j.
Proof.
  intros Hmouse Htouch. unfold circles. rewrite !list_lookup_fmap.
  destruct event as [index point|index point|point|point|]; cbn [dispatch].
  - destruct (scene_vertices scene !! index) as [vertex|] eqn:Hv; [|done].
    cbn. destruct (decide (index = j)) as [->|Hne].
    + rewrite list_lookup_insert_eq by (by eapply lookup_lt_Some). by rewrite Hv.
    + by rewrite list_lookup_insert_ne.
  - destruct (scene_vertices scene !! index) as [vertex|] eqn:Hv; [|done].
    destruct point as [point|]; [|done].
    cbn. destruct (decide (index = j)) as [->|Hne].
    + rewrite list_lookup_insert_eq by (by eapply lookup_lt_Some). by rewrite Hv.
    + by rewrite list_lookup_insert_ne.
  - by rewrite moveListeners_other.
  - by rewrite moveListeners_other.
  - cbn. rewrite list_lookup_fmap. by destruct (scene_vertices scene !! j).
Qed.

Lemma offset_arithmetic (a b c : Z) :
  (ofZ c - (ofZ b - ofZ a))%J = ofZ (a + (c - b)).
Proof.
  unfold ofZ. cbn. f_equal.
  rewrite Z2Qc_inj_add, Z2Qc_inj_sub. ring.
Qed.


Lemma vertices_without_listener_stay_witness :
  circles (dispatch (MouseMove (pt 7 7))
             (sceneOf (Polygon (λ _, NaN) (λ _, NaN) squareOptions))) !! 1
    = circles (sceneOf (Polygon (λ _, NaN) (λ _, NaN) squareOptions)) !! 1.
Proof.
  apply (vertices_without_listener_stay (MouseMove (pt 7 7))
           (sceneOf (Polygon (λ _, NaN) (λ _, NaN) squareOptions)) 1);
    by_computation.
Defined.


(** ** The delayed listener *)

Lemma debounced_init delay now : debounced delay (createDelayedListener now).
Proof.
  unfold debounced, createDelayedListener. cbn [timers triggered invoked clock resizeTimer].
  split; [intros id due H; by rewrite lookup_empty in H|].
  split; [constructor|]. split; [intros l [=]|].
  split; [rewrite map_size_empty; cbn; lia|]. intros _ s [=].
Qed.

Lemma timers_cleared delay st :
  debounced delay st → clearTimeout (resizeTimer st) (timers st) = ∅.
Proof.
  intros (Hone & _). apply map_eq. intros k. rewrite lookup_empty. unfold clearTimeout.
  destruct (timers st !! k) as [d|] eqn:Hd.
  - destruct (Hone _ _ Hd) as [-> _]. apply lookup_delete_eq.
  - destruct (resizeTimer st); [|assumption].
    apply lookup_delete_None. by right.
Qed.

Lemma timers_expired delay st id due :
  debounced delay st → timers st !! id = Some due →
  delete id (timers st) = ∅ ∧ size (timers st) = 1.
Proof.
  intros (Hone & _) Hid.
  assert (Hempty : delete id (timers st) = ∅).
  { apply map_eq. intros k. rewrite lookup_empty. apply lookup_delete_None.
    destruct (decide (id = k)) as [->|Hk]; [by left|right].
    destruct (timers st !! k) as [d|] eqn:Hd; [|reflexivity].
    destruct (Hone _ _ Hd) as [Hr _]. destruct (Hone _ _ Hid) as [Hr' _]. congruence. }
  split; [assumption|].
  rewrite <- (insert_delete_id (timers st) id due Hid), Hempty.
  by rewrite map_size_insert_None, map_size_empty by apply lookup_empty.
Qed.

Lemma timerRun_debounced delay step st st' :
  debounced delay st → timerRun delay step st = Some st' → debounced delay st'.
Proof.
  intros Hst. pose proof Hst as (Hone & Hpast & Hlast & Hcount & Hrun).
  destruct step as [id|ms|id]; cbn [timerRun].
  - case_bool_decide as Hid; [|discriminate]. intros [= <-].
    unfold debounced, delayedListener.
    cbn [timers triggered invoked clock resizeTimer].
    rewrite (timers_cleared delay st Hst), !last_snoc.
    split; [|split; [|split; [|split]]].
    + intros k due [[-> <-]|[_ H]]%lookup_insert_Some;
        [eauto|by rewrite lookup_empty in H].
    + apply Forall_app. split; [assumption|]. by constructor.
    + intros l [= <-]. apply Forall_app. split; [assumption|]. by constructor.
    + rewrite map_size_insert_None, map_size_empty, length_app by apply lookup_empty.
      cbn. lia.
    + intros Hempty. exfalso. apply (insert_non_empty _ _ _ Hempty).
  - intros [= <-]. unfold debounced. cbn [timers triggered invoked clock resizeTimer].
    split; [assumption|]. split; [|by repeat split].
    eapply Forall_impl; [exact Hpast|]. cbn. lia.
  - destruct (timers st !! id) as [due|] eqn:Hdue; [|discriminate].
    case_bool_decide as Hd; [|discriminate]. intros [= <-].
    destruct (timers_expired delay st id due Hst Hdue) as [Hempty Hsize].
    unfold debounced. cbn [timers triggered invoked clock resizeTimer].
    rewrite Hempty, last_snoc.
    split; [intros k d H; by rewrite lookup_empty in H|].
    split; [assumption|]. split; [assumption|].
    split; [rewrite length_app, map_size_empty; cbn; lia|].
    intros _ s Hs. exists (clock st). split; [reflexivity|].
    destruct (Hone _ _ Hdue) as [_ (s' & Hs' & ->)]. rewrite Hs in Hs'.
    injection Hs' as <-. exact Hd.
Qed.

Lemma timerRuns_debounced delay steps :
  ∀ st st', debounced delay st → forEach (timerRun delay) steps st = Some st' →
    debounced delay st'.
Proof.
  induction steps as [|step steps IH]; intros st st' Hst; cbn; [by intros [= <-]|].
  destruct (timerRun delay step st) as [st1|] eqn:Hstep; [|discriminate]. cbn.
  apply IH. by eapply timerRun_debounced.
Qed.

(** When the browser runs the callback of a delayed listener, every event
    that the listener has seen is at least [delay] ms old (100 ms when no
    delay was given), and no timer of the listener is left. *)
Theorem delayed_callback_waits_for_quiet
    (delay : option nat) (now : nat) (steps : list timerStep)
    (st st' : Debouncer) (id : nat) :
  forEach (timerRun delay) steps (createDelayedListener now) = Some st →
  timerRun delay (Expire id) st = Some st' →
  Forall (λ s, s + effectiveDelay delay ≤ clock st) (triggered st) ∧
  timers st' = ∅ ∧
  invoked st' = invoked st ++ [clock st].
Proof.
  intros Hrun Hexp.
  pose proof (timerRuns_debounced delay steps _ _ (debounced_init delay now) Hrun) as Hst.
  pose proof Hst as (Hone & Hpast & Hlast & Hcount & _).
  cbn [timerRun] in Hexp.
  destruct (timers st !! id) as [due|] eqn:Hdue; [|discriminate].
  case_bool_decide as Hd; [|discriminate]. injection Hexp as <-.
  destruct (timers_expired delay st id due Hst Hdue) as [Hempty _].
  cbn [timers invoked]. split; [|by split].
  destruct (Hone _ _ Hdue) as [_ (l & Hl & ->)].
  eapply Forall_impl; [exact (Hlast l Hl)|]. cbn. lia.
Qed.

(** A delayed listener has one timer waiting at most; its callback has run
    once for each event at most; and when an event has been seen and no
    timer is waiting, the callback has run [delay] ms after the last event,
    or later: the last event is not lost. *)
Theorem delayed_listener_keeps_one_timer
    (delay : option nat) (now : nat) (steps : list timerStep) (st : Debouncer) :
  forEach (timerRun delay) steps (createDelayedListener now) = Some st →
  size (timers st) ≤ 1 ∧
  length (invoked st) + size (timers st) ≤ length (triggered st) ∧
  (triggered st ≠ [] → timers st = ∅ →
   ∃ s t, last (triggered st) = Some s ∧ last (invoked st) = Some t ∧
          s + effectiveDelay delay ≤ t).
Proof.
  intros Hrun.
  pose proof (timerRuns_debounced delay steps _ _ (debounced_init delay now) Hrun) as Hst.
  pose proof Hst as (Hone & Hpast & Hlast & Hcount & Hquiet).
  split; [|split; [assumption|]].
  - destruct (map_choose_or_empty (timers st)) as [(id & due & Hid)| ->].
    + by destruct (timers_expired delay st id due Hst Hid) as [_ ->].
    + rewrite map_size_empty. lia.
  - intros Hne Hempty. destruct (last (triggered st)) as [s|] eqn:Hs.
    + destruct (Hquiet Hempty s eq_refl) as (t & Ht & Hle). by exists s, t.
    + by apply last_None in Hs.
Qed.

Lemma delayed_callback_waits_for_quiet_witness :
  ∃ st st',
    forEach (timerRun None) twoEvents (createDelayedListener 0) = Some st ∧
    timerRun None (Expire 1) st = Some st' ∧
    Forall (λ s, s + effectiveDelay None ≤ clock st) (triggered st) ∧
    timers st' = ∅ ∧
    invoked st' = invoked st ++ [clock st].
Proof.
  eexists _, _. split; [vm_compute; reflexivity|]. split; [vm_compute; reflexivity|].
  eapply (delayed_callback_waits_for_quiet None 0 twoEvents _ _ 1);
    vm_compute; reflexivity.
Defined.

Lemma delayed_listener_keeps_one_timer_witness :
  ∃ st,
    forEach (timerRun None) twoEvents (createDelayedListener 0) = Some st ∧
    size (timers st) ≤ 1 ∧
    length (invoked st) + size (timers st) ≤ length (triggered st) ∧
    (triggered st ≠ [] → timers st = ∅ →
     ∃ s t, last (triggered st) = Some s ∧ last (invoked st) = Some t ∧
            s + effectiveDelay None ≤ t).
Proof.
  eexists. split; [vm_compute; reflexivity|].
  eapply (delayed_listener_keeps_one_timer None 0 twoEvents).
  vm_compute. reflexivity.
Defined.

(** ** The polyfill of [Object.assign], and [normalizeNodeList] *)

Lemma assignDefined_keeps (key : string) (srcObj : jsval) (destObj : object) :
  obj_get key destObj ≠ VUndefined →
  obj_get key (assignDefined destObj srcObj) ≠ VUndefined.
Proof.
  unfold assignDefined. generalize (own_properties srcObj). intros props.
  revert destObj. induction props as [|[k v] props IH]; intros destObj Hkey; [assumption|].
  cbn. apply IH. destruct v; try assumption;
    rewrite obj_get_set; case_bool_decide; try assumption; discriminate.
Qed.

Lemma assignDefined_native (srcObj : jsval) (destObj : object) :
  allDefined srcObj → assignDefined destObj srcObj = Object_assign destObj srcObj.
Proof.
  unfold allDefined, assignDefined, Object_assign.
  generalize (own_properties srcObj). intros props Hdef. revert destObj.
  induction Hdef as [|[k v] props Hv _ IH]; intros destObj; [reflexivity|].
  cbn in *. rewrite <- IH. by destruct v.
Qed.


Lemma unwrapNodes_nodes (nodes : list nat) :
  unwrapNodes (DomNode <$> nodes) = Returns nodes.
Proof. induction nodes as [|n nodes IH]; [reflexivity|]. cbn. by rewrite IH. Qed.

Lemma unwrapNodes_throws (elements : list domValue) :
  (∃ error, unwrapNodes elements = Throws error) ↔ Nullish ∈ elements.
Proof.
  induction elements as [|el elements IH]; cbn.
  - split; [intros [? [=]]|by intros ?%elem_of_nil].
  - rewrite elem_of_cons, <- IH. destruct el as [|truthy|node|el]; cbn.
    + split; [by left|eauto].
    + destruct (unwrapNodes elements); split;
        [intros [? [=]]|intros [[=]|[? [=]]]|eauto|eauto].
    + destruct (unwrapNodes elements); split;
        [intros [? [=]]|intros [[=]|[? [=]]]|eauto|eauto].
    + destruct (unwrapNodes elements); split;
        [intros [? [=]]|intros [[=]|[? [=]]]|eauto|eauto].
Qed.

(** [normalizeNodeList] gives a list of nodes back as it is; on a list it
    throws exactly when the list holds [null] or [undefined] (alone, either
    of them gives the empty list); and a single element gives one node at
    most. *)
Theorem normalizeNodeList_gives_nodes :
  (∀ nodes, normalizeNodeList (Several (DomNode <$> nodes)) = Returns nodes) ∧
  (∀ elements,
     (∃ error, normalizeNodeList (Several elements) = Throws error) ↔
     Nullish ∈ elements) ∧
  (∀ element, ∃ nodes,
     normalizeNodeList (Single element) = Returns nodes ∧ length nodes ≤ 1).
Proof.
  split; [|split].
  - intros nodes. cbn. apply unwrapNodes_nodes.
  - intros elements. cbn. apply unwrapNodes_throws.
  - intros [|[]|node|[el|]]; eexists; (split; [reflexivity|cbn; lia]).
Qed.


(** ** [redraw] *)

(** [redraw] on the grid that [redrawTiles] builds for tiles of size [t]:
    the tile [(col, row)] of the result of [computeFilledSquares] is shown
    on the rect at [(col * t, row * t)], which gets the active colour; every
    other rect of the grid gets ['none']. *)
Theorem redraw_paints_the_fill_on_the_grid
    (fuel : nat) (t : Z) (tileBorderColor tileActiveColor : string)
    (polygon : PolygonObj) (rows cols : nat) (sq : gmap num (list num)) :
  computeFilledSquares fuel (ofZ t) polygon = Some sq →
  redraw fuel (ofZ t) tileActiveColor polygon (tileGrid rows cols t tileBorderColor)
    = Some (shownGrid rows cols t tileBorderColor tileActiveColor sq).
Proof.
  intros Hsq. unfold redraw. rewrite Hsq. cbn [fmap option_fmap option_map]. f_equal.
  unfold setActiveTilesDict, paintEntries.
  rewrite paint_entries, paint_positions, clearTiles_mapGrid, mapGrid_mapGrid.
  unfold mapGrid, tileGrid, shownGrid.
  apply list_eq. intros j. rewrite list_lookup_imap, !list_lookup_fmap.
  destruct (seq 0 rows !! j) as [j'|] eqn:Hj; [|reflexivity].
  apply lookup_seq in Hj as [-> _]. cbn [fmap option_fmap option_map]. f_equal.
  apply list_eq. intros i. rewrite list_lookup_imap, !list_lookup_fmap.
  destruct (seq 0 cols !! i) as [i'|] eqn:Hi; [|reflexivity].
  apply lookup_seq in Hi as [-> _]. cbn [fmap option_fmap option_map]. f_equal.
  rewrite !Nat.add_0_l.
  rewrite (bool_decide_ext _ _ (hits_active sq _ j i (reflexivity _))).
  by case_bool_decide.
Qed.

Lemma redraw_paints_the_fill_on_the_grid_witness :
  ∃ sq,
    computeFilledSquares 2 (ofZ 20)
      (Polygon (λ _, NaN) (λ _, NaN) triangleOptions) = Some sq ∧
    redraw 2 (ofZ 20) "#db0167"%string
      (Polygon (λ _, NaN) (λ _, NaN) triangleOptions)
      (tileGrid 8 8 20 "#222222"%string)
    = Some (shownGrid 8 8 20 "#222222"%string "#db0167"%string sq).
Proof.
  eexists. split; [vm_compute; reflexivity|].
  apply (redraw_paints_the_fill_on_the_grid 2 20). vm_compute. reflexivity.
Defined.
